(** * pyunlocbox.acceleration: acceleration schemes for first-order solvers

    A shallow embedding of [pyunlocbox/acceleration.py] and the properties
    of its schemes: the [backtracking] step-size rule, the [fista] momentum
    rule and the [regularized_nonlinear] (RNA) extrapolation.

    Modelling conventions.
    - numpy floats are the real numbers of the Standard Library: rounding,
      infinities and NaN are outside the model, and so is a division by
      zero, which numpy answers with one of them: what is proved of
      computed values carries the hypotheses that exclude it;
    - a numpy vector is a [list R], a matrix a list of rows; the list
      operations truncate to the shorter operand where numpy would raise or
      broadcast, so the statements are about operands of matching shape;
    - a Python object is a record whose dynamically created attributes are
      [option] fields; reading an attribute that is not set raises
      [AttributeError];
    - methods are computations in a state-and-exception monad over the
      object: an exception leaves the mutations made before it in place;
    - [while] loops take fuel: [None] means the fuel ran out;
    - the numerical routines of numpy and scipy ([solve], [eigvals],
      [line_search_armijo]) and the solver's [_algo] are parameters. *)

From Stdlib Require Import Reals Lra Lia ZArith List String Ascii Bool.
From Stdlib Require Import Sorting.Permutation Sorting.Sorted.
Import ListNotations.

Set Warnings "-register-all".

Open Scope R_scope.

(* ------------------------------------------------------------------ *)
(** * Python values, exceptions and the method monad                   *)
(* ------------------------------------------------------------------ *)

Module Py.

Inductive exn : Set :=
| ValueError
| TypeError
| AttributeError
| IndexError
| ZeroDivisionError
| OverflowError
| LinAlgError.

Inductive result (A : Type) : Type :=
| Ok (a : A)
| Raise (e : exn).

Arguments Ok {A} a.
Arguments Raise {A} e.

(** A method of an object of type [S]. *)
Definition M (S A : Type) : Type := S -> result A * S.

Definition ret {S A} (a : A) : M S A := fun s => (Ok a, s).

Definition raise {S A} (e : exn) : M S A := fun s => (Raise e, s).

Definition bind {S A B} (m : M S A) (k : A -> M S B) : M S B :=
  fun s =>
    match m s with
    | (Ok a, s') => k a s'
    | (Raise e, s') => (Raise e, s')
    end.

Definition gets {S A} (f : S -> A) : M S A := fun s => (Ok (f s), s).

Definition modify {S} (f : S -> S) : M S unit := fun s => (Ok tt, f s).

(** Reading an attribute that may not be set. *)
Definition attr {S A} (f : S -> option A) : M S A :=
  fun s =>
    match f s with
    | Some a => (Ok a, s)
    | None => (Raise AttributeError, s)
    end.

(** A library call that may raise. *)
Definition lift {S A} (r : result A) : M S A := fun s => (r, s).

(** [m] takes every state to one related to it by [R], whether it
    returns or raises. *)
Definition frame {S A} (R : S -> S -> Prop) (m : M S A) : Prop :=
  forall s, R s (snd (m s)).

(** [l[i]], negative indices counting from the end. *)
Definition index {A} (l : list A) (i : Z) : result A :=
  let n := Z.of_nat (List.length l) in
  let j := if (i <? 0)%Z then (i + n)%Z else i in
  if ((0 <=? j) && (j <? n))%Z
  then match nth_error l (Z.to_nat j) with
       | Some a => Ok a
       | None => Raise IndexError
       end
  else Raise IndexError.

(** [a % b] on integers. *)
Definition mod_ (a b : Z) : result Z :=
  if (b =? 0)%Z then Raise ZeroDivisionError else Ok (a mod b)%Z.

(** The values a caller may pass where a number or a list of numbers is
    expected. *)
Inductive value : Type :=
| Float (r : R)
| Int (z : Z)
| Str (s : string)
| NoneV
| List (l : list value).

End Py.

Import Py.

Declare Scope py_scope.
Delimit Scope py_scope with py.
Notation "x <- m ;; k" := (bind m (fun x => k))
  (at level 61, m at next level, right associativity) : py_scope.
Notation "m ;;; k" := (bind m (fun _ => k))
  (at level 61, right associativity) : py_scope.
Open Scope py_scope.

(* ------------------------------------------------------------------ *)
(** * Vectors and matrices                                             *)
(* ------------------------------------------------------------------ *)

Definition vec : Type := list R.
Definition matrix : Type := list vec.

Definition Rgtb (x y : R) : bool := if Rgt_dec x y then true else false.
Definition Rleb (x y : R) : bool := if Rle_dec x y then true else false.

Fixpoint zip_with {A B C} (f : A -> B -> C) (l1 : list A) (l2 : list B)
  : list C :=
  match l1, l2 with
  | a :: l1', b :: l2' => f a b :: zip_with f l1' l2'
  | _, _ => []
  end.

(** [np.sum] *)
Definition Rsum (l : list R) : R := fold_right Rplus 0 l.

Definition vadd : vec -> vec -> vec := zip_with Rplus.
Definition vsub : vec -> vec -> vec := zip_with Rminus.
Definition vscale (c : R) (v : vec) : vec := map (Rmult c) v.
Definition zeros (n : nat) : vec := repeat 0 n.
Definition ones (n : nat) : vec := repeat 1 n.

(** [np.dot] of two vectors *)
Definition dot (u v : vec) : R := Rsum (zip_with Rmult u v).

(** [np.sum(d**2)] *)
Definition sqnorm (d : vec) : R := Rsum (map (fun x => x ^ 2) d).

(** An objective function: capabilities, evaluation and gradient. *)
Record func : Type := {
  cap : vec -> list string;
  eval : vec -> R;
  grad : vec -> vec
}.

(** [np.sum([f.eval(x) for f in fs])] *)
Definition sum_eval (fs : list func) (x : vec) : R :=
  Rsum (map (fun f => eval f x) fs).

(* ------------------------------------------------------------------ *)
(** * fista                                                            *)
(* ------------------------------------------------------------------ *)

Module Fista.

Record fista : Type := {
  t : R;
  sol : option vec
}.

Definition set_t (x : R) (a : fista) : fista := {| t := x; sol := sol a |}.
Definition set_sol (x : vec) (a : fista) : fista :=
  {| t := t a; sol := Some x |}.

(** [fista.__init__] followed by nothing else: [t = 1.], no snapshot. *)
Definition __init__ : fista := {| t := 1; sol := None |}.

(** [accel.pre]: the snapshot is a copy of [x0]. *)
Definition pre (x0 : vec) (a : fista) : fista := set_sol x0 a.

(** The momentum recurrence. *)
Definition t_next (x : R) : R := (1 + sqrt (1 + 4 * x ^ 2)) / 2.

Definition _update_sol (solver_sol : vec) (niter : Z) : M fista vec :=
  modify (fun a => set_t (if (niter =? 1)%Z then 1 else t a) a) ;;;
  self_t <- gets t ;;
  let t' := t_next self_t in
  self_sol <- attr sol ;;
  let y := vadd solver_sol
             (vscale ((self_t - 1) / t') (vsub solver_sol self_sol)) in
  modify (set_t t') ;;;
  modify (set_sol solver_sol) ;;;
  ret y.

End Fista.

(* ------------------------------------------------------------------ *)
(** * backtracking                                                     *)
(* ------------------------------------------------------------------ *)

Module Backtracking.

Record backtracking : Type := {
  eta : R;
  smooth_funs : option (list func);
  sol : option vec
}.

(** [accel.__init__] takes no keyword: a leftover keyword is a
    [TypeError]. *)
Definition accel_init (kwargs : list string) : result unit :=
  match kwargs with
  | [] => Ok tt
  | _ :: _ => Raise TypeError
  end.

Definition __init__ (eta0 : R) (kwargs : list string) : result backtracking :=
  if Rgtb eta0 1 || Rleb eta0 0 then Raise ValueError
  else match accel_init kwargs with
       | Ok _ => Ok {| eta := eta0; smooth_funs := None; sol := None |}
       | Raise e => Raise e
       end.

(** ['GRAD' in f.cap(x0)] *)
Definition has_grad (x0 : vec) (f : func) : bool :=
  if in_dec string_dec "GRAD"%string (cap f x0) then true else false.

(** [accel.pre] then [backtracking._pre]. *)
Definition pre (functions : list func) (x0 : vec) (a : backtracking)
  : backtracking :=
  {| eta := eta a;
     smooth_funs := Some (filter (has_grad x0) functions);
     sol := Some x0 |}.

(** What the scheme sees of the solver: its current point, its step and
    whatever else [_algo] works on. *)
Record solver (X : Type) : Type := {
  solver_sol : vec;
  step : R;
  aux : X
}.

Arguments solver_sol {X} s.
Arguments step {X} s.
Arguments aux {X} s.

Definition set_step {X} (x : R) (s : solver X) : solver X :=
  {| solver_sol := solver_sol s; step := x; aux := aux s |}.

(** The scheme and the solver it acts on. *)
Record world (X : Type) : Type := {
  self : backtracking;
  slv : solver X
}.

Arguments self {X} w.
Arguments slv {X} w.

Definition on_solver {X} (f : solver X -> solver X) (w : world X) : world X :=
  {| self := self w; slv := f (slv w) |}.

Section UpdateStep.

Context {X : Type}.

(** [solver._algo()]: recomputes the solver's trial point. *)
Variable _algo : solver X -> solver X.

(** The [for] loop that accumulates [valp] and [grad]. *)
Fixpoint accumulate (fs : list func) (valp : R) (g : vec)
  : M (world X) (R * vec) :=
  match fs with
  | [] => ret (valp, g)
  | f :: fs' =>
      s <- gets slv ;;
      self_sol <- attr (fun w => sol (self w)) ;;
      accumulate fs' (valp + eval f (solver_sol s))
                 (vadd g (grad f self_sol))
  end.

(** The condition of the [while] loop.  The vectors are taken of one
    shape, as the solver keeps them: where the shapes differ numpy
    broadcasts or raises a [ValueError], and the operations here stop at
    the shorter operand instead. *)
Definition criterion (valn : R) (g : vec) (valp : R) : M (world X) bool :=
  s <- gets slv ;;
  self_sol <- attr (fun w => sol (self w)) ;;
  let d := vsub (solver_sol s) self_sol in
  ret (Rgtb (2 * step s * (valp - valn - dot d g)) (sqnorm d)).

(** The body of the [while] loop; it yields the new [valp]. *)
Definition shrink : M (world X) R :=
  self_eta <- gets (fun w => eta (self w)) ;;
  modify (on_solver (fun s => set_step (step s * self_eta) s)) ;;;
  modify (on_solver _algo) ;;;
  fs <- attr (fun w => smooth_funs (self w)) ;;
  s <- gets slv ;;
  ret (sum_eval fs (solver_sol s)).

Fixpoint while_ (fuel : nat) (valn : R) (g : vec) (valp : R) (w : world X)
  : option (result unit * world X) :=
  match fuel with
  | O => None
  | S fuel' =>
      match criterion valn g valp w with
      | (Ok true, w1) =>
          match shrink w1 with
          | (Ok valp', w2) => while_ fuel' valn g valp' w2
          | (Raise e, w2) => Some (Raise e, w2)
          end
      | (Ok false, w1) => Some (Ok tt, w1)
      | (Raise e, w1) => Some (Raise e, w1)
      end
  end.

(** Everything before the [while] loop. *)
Definition prologue (objective : list (list R))
  : M (world X) (R * (R * vec)) :=
  last <- lift (index objective (-1)) ;;
  let valn := Rsum last in
  s <- gets slv ;;
  fs <- attr (fun w => smooth_funs (self w)) ;;
  acc <- accumulate fs 0 (zeros (List.length (solver_sol s))) ;;
  ret (valn, acc).

Definition _update_step (fuel : nat) (objective : list (list R)) (niter : Z)
  (w : world X) : option (result R * world X) :=
  match prologue objective w with
  | (Ok (valn, (valp, g)), w1) =>
      match while_ fuel valn g valp w1 with
      | Some (Ok _, w2) => Some (Ok (step (slv w2)), w2)
      | Some (Raise e, w2) => Some (Raise e, w2)
      | None => None
      end
  | (Raise e, w1) => Some (Raise e, w1)
  end.

(** One pass through the loop body seen from the solver alone. *)
Definition shrink_solver (eta0 : R) (s : solver X) : solver X :=
  _algo (set_step (step s * eta0) s).

(** [grad] as the [for] loop leaves it: the gradients of the smooth
    functions at the snapshot, added to [np.zeros] of the solver's shape. *)
Definition summed_grad (fs : list func) (snapshot : vec) (n : nat) : vec :=
  fold_left (fun g f => vadd g (grad f snapshot)) fs (zeros n).

(** The quadratic-majorant inequality
    [2*step*(valp - valn - <sol - snapshot, grad>) > ||sol - snapshot||^2]
    at a state of the solver, with [valp] the summed value of the smooth
    functions at the solver's point. *)
Definition majorant_violated (valn : R) (g : vec) (fs : list func)
  (snapshot : vec) (s : solver X) : bool :=
  let d := vsub (solver_sol s) snapshot in
  Rgtb (2 * step s * (sum_eval fs (solver_sol s) - valn - dot d g))
       (sqnorm d).

End UpdateStep.

End Backtracking.

(* ------------------------------------------------------------------ *)
(** * regularized_nonlinear                                            *)
(* ------------------------------------------------------------------ *)

Module RNA.

Record regularized_nonlinear : Type := {
  k : Z;
  _lambda_ : option (list R);
  adaptive : bool;
  dolinesearch : bool;
  forcedecrease : bool;
  buffer : option (list vec);
  functions : option (list func);
  sol : option vec
}.

(** The object together with what the process has printed and warned. *)
Record world : Type := {
  self : regularized_nonlinear;
  stdout : list string;
  warnings : list string
}.

Definition on_self (f : regularized_nonlinear -> regularized_nonlinear)
  (w : world) : world :=
  {| self := f (self w); stdout := stdout w; warnings := warnings w |}.

Definition set_lambda (l : list R) (a : regularized_nonlinear)
  : regularized_nonlinear :=
  {| k := k a; _lambda_ := Some l; adaptive := adaptive a;
     dolinesearch := dolinesearch a; forcedecrease := forcedecrease a;
     buffer := buffer a; functions := functions a; sol := sol a |}.

Definition set_buffer (b : list vec) (a : regularized_nonlinear)
  : regularized_nonlinear :=
  {| k := k a; _lambda_ := _lambda_ a; adaptive := adaptive a;
     dolinesearch := dolinesearch a; forcedecrease := forcedecrease a;
     buffer := Some b; functions := functions a; sol := sol a |}.

(** [print(msg)]; the text of the caught exception, which follows the
    prefix, is left out. *)
Definition print (msg : string) : M world unit :=
  modify (fun w => {| self := self w; stdout := stdout w ++ [msg];
                      warnings := warnings w |}).

(** [warnings.warn(msg)] *)
Definition warn (msg : string) : M world unit :=
  modify (fun w => {| self := self w; stdout := stdout w;
                      warnings := warnings w ++ [msg] |}).

(** ** Linear algebra on lists *)

(** [np.diff(buffer, axis=0)]: consecutive differences of the rows. *)
Fixpoint diff (b : list vec) : matrix :=
  match b with
  | x :: (y :: _) as b' => vsub y x :: diff b'
  | _ => []
  end.

(** [np.dot(U, U.T)] *)
Definition gram (U : matrix) : matrix :=
  map (fun u => map (fun v => dot u v) U) U.

(** [np.linalg.norm] of a matrix: the Frobenius norm. *)
Definition norm (A : matrix) : R := sqrt (Rsum (map sqnorm A)).

Definition mdiv (A : matrix) (c : R) : matrix :=
  map (map (fun x => x / c)) A.

Definition mscale (c : R) (A : matrix) : matrix := map (vscale c) A.

Definition madd (A B : matrix) : matrix := zip_with vadd A B.

(** [np.eye(n)] *)
Definition eye (n : nat) : matrix :=
  map (fun i => map (fun j => if Nat.eqb i j then 1 else 0) (seq 0 n))
      (seq 0 n).

(** [np.dot(A, x)] *)
Definition mat_vec (A : matrix) (x : vec) : vec :=
  map (fun row => dot row x) A.

(** [np.dot(np.asarray(points).T, c)], a vector of dimension [d]:
    the combination of the points with coefficients [c]. *)
Fixpoint combination (d : nat) (c : vec) (points : list vec) : vec :=
  match c, points with
  | ci :: c', p :: points' => vadd (vscale ci p) (combination d c' points')
  | _, _ => zeros d
  end.

(** [np.sort] *)
Fixpoint insert (x : R) (l : list R) : list R :=
  match l with
  | [] => [x]
  | y :: l' => if Rle_dec x y then x :: l else y :: insert x l'
  end.

Definition sort (l : list R) : list R := fold_right insert [] l.

(** [0.5 * (s[:-1] + s[1:])] *)
Definition pair_avg (s : list R) : list R :=
  zip_with (fun a b => 0.5 * (a + b)) (removelast s) (tl s).

(** The grid assembled from the eigenvalues of the normalized Gram
    matrix. *)
Definition adaptive_grid (eigenvalues : list R) : list R :=
  0 :: map exp (pair_avg (map ln (sort (map Rabs eigenvalues)))).

(** [min(l)] *)
Definition min (l : list R) : result R :=
  match l with
  | [] => Raise ValueError
  | x :: l' => Ok (fold_left (fun m y => if Rlt_dec y m then y else m) l' x)
  end.

(** [l.index(x)] *)
Fixpoint index_of (x : R) (l : list R) : result Z :=
  match l with
  | [] => Raise ValueError
  | y :: l' => if Req_dec_T y x then Ok 0%Z
               else match index_of x l' with
                    | Ok i => Ok (i + 1)%Z
                    | Raise e => Raise e
                    end
  end.

Section Scheme.

(** [float(s)] on a string: [None] is Python's [ValueError]. *)
Variable float_of_str : string -> option R.

(** [np.linalg.solve] *)
Variable solve : matrix -> vec -> result vec.

(** [np.linalg.eigvals] *)
Variable eigvals : matrix -> result (list R).

(** [scipy.optimize.linesearch.line_search_armijo f xk pk gfk old_fval c1
    alpha0]: the step it returns, [None] for Python's [None]. *)
Variable line_search_armijo :
  (vec -> R) -> vec -> vec -> vec -> R -> R -> R -> option R.

(** [float(v)]; an integer too large for a double, one that rounds to
    [2^1024], is an [OverflowError]. *)
Definition float (v : value) : result R :=
  match v with
  | Float r => Ok r
  | Int z => if (Z.abs z <? 2 ^ 1024 - 2 ^ 970)%Z then Ok (IZR z)
             else Raise OverflowError
  | Str s => match float_of_str s with
             | Some r => Ok r
             | None => Raise ValueError
             end
  | NoneV => Raise TypeError
  | List _ => Raise TypeError
  end.

(** Iterating over [v]: a string yields its characters. *)
Definition iter (v : value) : result (list value) :=
  match v with
  | List l => Ok l
  | Str s => Ok (map (fun c => Str (String c EmptyString))
                     (list_ascii_of_string s))
  | Float _ => Raise TypeError
  | Int _ => Raise TypeError
  | NoneV => Raise TypeError
  end.

(** [[float(elem) for elem in l]] *)
Fixpoint floats (l : list value) : result (list R) :=
  match l with
  | [] => Ok []
  | v :: l' =>
      match float v with
      | Ok r => match floats l' with
                | Ok rs => Ok (r :: rs)
                | Raise e => Raise e
                end
      | Raise e => Raise e
      end
  end.

(** The comprehension [[float(elem) for elem in v]]. *)
Definition comprehension (v : value) : result (list R) :=
  match iter v with Ok l => floats l | Raise e => Raise e end.

(** The setter of the [lambda_] property. *)
Definition lambda_setter (v : value) : M world unit :=
  match comprehension v with
  | Ok l => modify (on_self (set_lambda l))
  | Raise TypeError =>
      match float v with
      | Ok r => modify (on_self (set_lambda [r]))
      | Raise ValueError => print "User must provide a number: "
      | Raise e => raise e
      end
  | Raise ValueError => print "User must provide a list of numbers: "
  | Raise e => raise e
  end.

(** [regularized_nonlinear.__init__]: the attributes assigned after
    [lambda_] never matter to the setter, so they are filled in at once. *)
Definition __init__ (k0 : Z) (lambda0 : value) (adaptive0 dolinesearch0
  forcedecrease0 : bool) : M world unit :=
  modify (on_self (fun _ =>
    {| k := k0; _lambda_ := None; adaptive := adaptive0;
       dolinesearch := dolinesearch0; forcedecrease := forcedecrease0;
       buffer := None; functions := None; sol := None |})) ;;;
  lambda_setter lambda0.

(** [self.buffer.append(x)] *)
Definition buffer_append (x : vec) : M world unit :=
  b <- attr (fun w => buffer (self w)) ;;
  modify (on_self (set_buffer (b ++ [x]))).

(** [self.lambda_ = l] with [l] a sequence of floats. *)
Definition assign_lambda (l : list R) : M world unit :=
  lambda_setter (List (map Float l)).

(** The coefficients of one extrapolation: [solve] then normalize. *)
Definition coefficients (UU : matrix) (lam : R) (n : nat) : result vec :=
  match solve (madd UU (mscale lam (eye n))) (ones n) with
  | Ok c => Ok (map (fun x => x / Rsum c) c)
  | Raise e => Raise e
  end.

(** [np.zeros((k,))]: a negative length is a [ValueError]. *)
Definition size_k : M world nat :=
  self_k <- gets (fun w => k (self w)) ;;
  if (self_k <? 0)%Z then raise ValueError else ret (Z.to_nat self_k).

(** One extrapolation from the buffer, for one [lambda_]. *)
Definition extrapolate (UU : matrix) (d : nat) (lam : R) : M world vec :=
  n <- size_k ;;
  c <- lift (coefficients UU lam n) ;;
  b <- attr (fun w => buffer (self w)) ;;
  ret (combination d c (removelast b)).

(** The grid search: the objective at the extrapolation of every
    [lambda_] of the grid. *)
Fixpoint grid_search (UU : matrix) (d : nat) (grid : list R)
  : M world (list R) :=
  match grid with
  | [] => ret []
  | lam :: grid' =>
      extrap <- extrapolate UU d lam ;;
      fs <- attr (fun w => functions (self w)) ;;
      fvals <- grid_search UU d grid' ;;
      ret (sum_eval fs extrap :: fvals)
  end.

(** The normalized Gram matrix of the differences in the buffer.  When
    the norm is zero (all the buffered points are equal) numpy divides
    zero by zero and fills the matrix with [nan], which has no
    counterpart in the reals: what is proved of the values computed from
    this matrix carries the hypothesis that the norm is not zero. *)
Definition normalized_gram (b : list vec) : matrix :=
  let UU := gram (diff b) in mdiv UU (norm UU).

(** The test of the force-decrease guard. *)
Definition bad_extrapolation (fvals : list R) (objective : list (list R))
  : M world bool :=
  fd <- gets (fun w => forcedecrease (self w)) ;;
  if fd then
    m <- lift (min fvals) ;;
    last <- lift (index objective (-1)) ;;
    ret (Rgtb m (Rsum last))
  else ret false.

(** The best extrapolation of the grid. *)
Definition best_extrapolation (UU : matrix) (d : nat) (fvals : list R)
  : M world vec :=
  grid <- attr (fun w => _lambda_ (self w)) ;;
  m <- lift (min fvals) ;;
  i <- lift (index_of m fvals) ;;
  lam <- lift (index grid i) ;;
  extrapolate UU d lam.

(** The line search from the first buffered point towards [extrap]. *)
Definition line_search (extrap : vec) (objective : list (list R))
  : M world vec :=
  b <- attr (fun w => buffer (self w)) ;;
  xk <- lift (index b 0) ;;
  let pk := vsub extrap xk in
  self_k <- gets (fun w => k (self w)) ;;
  old <- lift (index objective (- self_k)) ;;
  fs <- attr (fun w => functions (self w)) ;;
  match line_search_armijo (sum_eval fs) xk pk pk (Rsum old) 1e-4 1 with
  | None => warn "Line search failed to find good step size" ;;; ret extrap
  | Some a => ret (vadd xk (vscale a pk))
  end.

(** "If no parameter grid was provided, assemble one." *)
Definition rebuild_grid (UU : matrix) : M world unit :=
  ad <- gets (fun w => adaptive (self w)) ;;
  if (ad : bool) then
    grid <- attr (fun w => _lambda_ (self w)) ;;
    if (List.length grid <=? 1)%nat then
      ev <- lift (eigvals UU) ;;
      assign_lambda (adaptive_grid ev)
    else ret tt
  else ret tt.

(** The grid search and the force-decrease guard: the solver's point
    when every extrapolation is bad, the best extrapolation otherwise. *)
Definition choose (solver_sol : vec) (objective : list (list R))
  (UU : matrix) : M world vec :=
  _ <- size_k ;;
  let d := List.length solver_sol in
  grid <- attr (fun w => _lambda_ (self w)) ;;
  fvals <- grid_search UU d grid ;;
  bad <- bad_extrapolation fvals objective ;;
  if (bad : bool) then ret solver_sol
  else best_extrapolation UU d fvals.

(** "Improve proposal with line search" *)
Definition improve (extrap : vec) (objective : list (list R))
  : M world vec :=
  dl <- gets (fun w => dolinesearch (self w)) ;;
  if (dl : bool) then line_search extrap objective else ret extrap.

(** "Clear buffer and parameter grid for next extrapolation process" *)
Definition clear : M world unit :=
  modify (on_self (set_buffer [])) ;;;
  ad <- gets (fun w => adaptive (self w)) ;;
  if (ad : bool) then assign_lambda []
  else grid <- attr (fun w => _lambda_ (self w)) ;; assign_lambda grid.

Definition _update_sol (solver_sol : vec) (objective : list (list R))
  (niter : Z) : M world vec :=
  self_k <- gets (fun w => k (self w)) ;;
  r <- lift (mod_ niter (self_k + 1)) ;;
  if (r =? 0)%Z then
    buffer_append solver_sol ;;;
    b <- attr (fun w => buffer (self w)) ;;
    let UU := normalized_gram b in
    rebuild_grid UU ;;;
    extrap <- choose solver_sol objective UU ;;
    extrap <- improve extrap objective ;;
    clear ;;;
    ret extrap
  else
    buffer_append solver_sol ;;;
    ret solver_sol.

(** The solver's loop as far as the scheme sees it: one call of
    [_update_sol] per iteration, with the solver's point and the
    objective history of that moment, the iteration index counting up
    from [niter]; the first exception ends the run.  The results of the
    calls are collected. *)
Fixpoint run (calls : list (vec * list (list R))) (niter : Z)
  : M world (list vec) :=
  match calls with
  | [] => ret []
  | (solver_sol, objective) :: calls' =>
      x <- _update_sol solver_sol objective niter ;;
      xs <- run calls' (niter + 1) ;;
      ret (x :: xs)
  end.

End Scheme.

(** The configuration of the scheme is the same in [w'] as in [w], and
    so is the grid when the scheme is not adaptive. *)
Definition same_config (w w' : world) : Prop :=
  k (self w') = k (self w)
  /\ adaptive (self w') = adaptive (self w)
  /\ dolinesearch (self w') = dolinesearch (self w)
  /\ forcedecrease (self w') = forcedecrease (self w)
  /\ functions (self w') = functions (self w)
  /\ sol (self w') = sol (self w)
  /\ stdout w' = stdout w
  /\ (adaptive (self w) = false -> _lambda_ (self w') = _lambda_ (self w)).

(** The world before any object exists. *)
Definition blank : world :=
  {| self := {| k := 0; _lambda_ := None; adaptive := false;
                dolinesearch := false; forcedecrease := false;
                buffer := None; functions := None; sol := None |};
     stdout := []; warnings := [] |}.

(** [accel.pre] then [regularized_nonlinear._pre]. *)
Definition pre (fs : list func) (x0 : vec) (a : regularized_nonlinear)
  : regularized_nonlinear :=
  {| k := k a; _lambda_ := _lambda_ a; adaptive := adaptive a;
     dolinesearch := dolinesearch a; forcedecrease := forcedecrease a;
     buffer := Some []; functions := Some fs; sol := Some x0 |}.

End RNA.

(* ------------------------------------------------------------------ *)
(** * The rest of the interface: dummy, post, fista_backtracking       *)
(* ------------------------------------------------------------------ *)

(** numpy's [dst[:] = src] on vectors: the shapes agree, or [src] has
    one entry, which is broadcast; anything else is a [ValueError].  The
    result is the new content of [dst]. *)
Definition assign_slice (dst src : vec) : result vec :=
  if (List.length src =? List.length dst)%nat then Ok src
  else if (List.length src =? 1)%nat
       then Ok (repeat (hd 0 src) (List.length dst))
       else Raise ValueError.

Module BacktrackingLifecycle.

Import Backtracking.

Definition set_sol (x : vec) (a : backtracking) : backtracking :=
  {| eta := eta a; smooth_funs := smooth_funs a; sol := Some x |}.

Definition on_self {X} (f : backtracking -> backtracking) (w : world X)
  : world X :=
  {| self := f (self w); slv := slv w |}.

(** [dummy._update_step], which [fista] keeps. *)
Definition dummy_update_step {X} : M (world X) R :=
  s <- gets slv ;; ret (step s).

(** [dummy._update_sol], which [backtracking] keeps: track the solver's
    point, return it. *)
Definition _update_sol {X} : M (world X) vec :=
  s <- gets slv ;;
  self_sol <- attr (fun w => sol (self w)) ;;
  new <- lift (assign_slice self_sol (solver_sol s)) ;;
  modify (on_self (set_sol new)) ;;;
  ret (solver_sol s).

(** [backtracking._post]: [del self.smooth_funs] *)
Definition _post : M backtracking unit :=
  fun a =>
    match smooth_funs a with
    | Some _ => (Ok tt, {| eta := eta a; smooth_funs := None; sol := sol a |})
    | None => (Raise AttributeError, a)
    end.

(** [del self.sol] *)
Definition del_sol : M backtracking unit :=
  fun a =>
    match sol a with
    | Some _ =>
        (Ok tt, {| eta := eta a; smooth_funs := smooth_funs a; sol := None |})
    | None => (Raise AttributeError, a)
    end.

(** [accel.post] *)
Definition post : M backtracking unit := _post ;;; del_sol.

End BacktrackingLifecycle.

Module FistaLifecycle.

Import Fista.

(** The solver's loop as far as [fista] sees it: one call of
    [_update_sol] per iteration, the index counting up from [niter]. *)
Fixpoint run (calls : list vec) (niter : Z) : M fista (list vec) :=
  match calls with
  | [] => ret []
  | x :: calls' =>
      y <- _update_sol x niter ;;
      ys <- run calls' (niter + 1) ;;
      ret (y :: ys)
  end.

End FistaLifecycle.

Module RNALifecycle.

Import RNA.

(** [del self.buffer] *)
Definition del_buffer : M world unit :=
  fun w =>
    match buffer (self w) with
    | Some _ =>
        (Ok tt,
         on_self (fun a =>
           {| k := k a; _lambda_ := _lambda_ a; adaptive := adaptive a;
              dolinesearch := dolinesearch a;
              forcedecrease := forcedecrease a;
              buffer := None; functions := functions a; sol := sol a |}) w)
    | None => (Raise AttributeError, w)
    end.

(** [del self.functions] *)
Definition del_functions : M world unit :=
  fun w =>
    match functions (self w) with
    | Some _ =>
        (Ok tt,
         on_self (fun a =>
           {| k := k a; _lambda_ := _lambda_ a; adaptive := adaptive a;
              dolinesearch := dolinesearch a;
              forcedecrease := forcedecrease a;
              buffer := buffer a; functions := None; sol := sol a |}) w)
    | None => (Raise AttributeError, w)
    end.

(** [del self.sol] *)
Definition del_sol : M world unit :=
  fun w =>
    match sol (self w) with
    | Some _ =>
        (Ok tt,
         on_self (fun a =>
           {| k := k a; _lambda_ := _lambda_ a; adaptive := adaptive a;
              dolinesearch := dolinesearch a;
              forcedecrease := forcedecrease a;
              buffer := buffer a; functions := functions a; sol := None |}) w)
    | None => (Raise AttributeError, w)
    end.

(** [regularized_nonlinear._post]: [del self.buffer, self.functions] *)
Definition _post : M world unit := del_buffer ;;; del_functions.

(** [accel.post] *)
Definition post : M world unit := _post ;;; del_sol.

End RNALifecycle.

Module FistaBacktracking.

(** An object of the class while it is being constructed. *)
Record fista_backtracking : Type := {
  eta : option R;
  t : option R
}.

(** The names of the keywords of a call [f(eta=..., others...)]. *)
Definition names (eta_kw : option R) (others : list string) : list string :=
  match eta_kw with
  | Some _ => "eta"%string :: others
  | None => others
  end.

(** [fista.__init__(self, **kwargs)]; after [fista] the resolution order
    of either class reaches [accel.__init__], which takes no keyword. *)
Definition fista_init (kwargs : list string) : M fista_backtracking unit :=
  modify (fun a => {| eta := eta a; t := Some 1 |}) ;;;
  lift (Backtracking.accel_init kwargs).

(** [backtracking.__init__(self, eta=0.5, **kwargs)] on an object of
    this class: [super(backtracking, self)] is [fista]. *)
Definition backtracking_init (eta_kw : option R) (others : list string)
  : M fista_backtracking unit :=
  let eta0 := match eta_kw with Some e => e | None => 0.5 end in
  if Rgtb eta0 1 || Rleb eta0 0 then raise ValueError
  else
    modify (fun a => {| eta := Some eta0; t := t a |}) ;;;
    fista_init others.

(** [fista_backtracking.__init__(self, **kwargs)] *)
Definition __init__ (eta_kw : option R) (others : list string)
  : M fista_backtracking unit :=
  backtracking_init eta_kw others ;;;
  fista_init (names eta_kw others).

(** An object with no attribute yet. *)
Definition blank : fista_backtracking := {| eta := None; t := None |}.

End FistaBacktracking.

(* ------------------------------------------------------------------ *)
(** * Concrete objectives, solvers and routines                        *)
(* ------------------------------------------------------------------ *)

(** The smooth objective [sqrt (1 + ||x||^2)]; its gradient
    [x / sqrt (1 + ||x||^2)] has norm below 1 everywhere. *)
Definition pseudo_huber : func :=
  {| cap := fun _ => ["EVAL"; "GRAD"]%string;
     eval := fun x => sqrt (1 + sqnorm x);
     grad := fun x => vscale (/ sqrt (1 + sqnorm x)) x |}.

(** A gradient-descent solver that keeps the point it steps from: its
    trial point is a function of that point and of the step alone. *)
Definition gradient_algo (f : func) (s : Backtracking.solver vec)
  : Backtracking.solver vec :=
  {| Backtracking.solver_sol :=
       vsub (Backtracking.aux s)
            (vscale (Backtracking.step s) (grad f (Backtracking.aux s)));
     Backtracking.step := Backtracking.step s;
     Backtracking.aux := Backtracking.aux s |}.

(** The backtracking scheme after [pre] at the point [3/4], and the
    solver about to leave that point with step [5/2]. *)
Definition bt_scheme (eta0 : R) : Backtracking.backtracking :=
  Backtracking.pre [pseudo_huber] [3/4]
    {| Backtracking.eta := eta0; Backtracking.smooth_funs := None;
       Backtracking.sol := None |}.

Definition bt_world (eta0 : R) : Backtracking.world vec :=
  {| Backtracking.self := bt_scheme eta0;
     Backtracking.slv :=
       gradient_algo pseudo_huber
         {| Backtracking.solver_sol := [3/4]; Backtracking.step := 5/2;
            Backtracking.aux := [3/4] |} |}.

(** The objective history at that moment: one entry, the value at
    [3/4]. *)
Definition bt_objective : list (list R) := [[5/4]].

(** [float(s)] on the one-character strings that iterating over a
    string yields: a decimal digit converts to its value, any other
    character is a [ValueError]. *)
Definition float_of_char (s : string) : option R :=
  match s with
  | String c EmptyString =>
      let n := nat_of_ascii c in
      if ((48 <=? n) && (n <=? 57))%nat then Some (INR (n - 48)) else None
  | _ => None
  end.

(** The least-squares objective [||x - y||^2]. *)
Definition quadratic (y : vec) : func :=
  {| cap := fun _ => ["EVAL"; "GRAD"]%string;
     eval := fun x => sqnorm (vsub x y);
     grad := fun x => vscale 2 (vsub x y) |}.

(** [np.linalg.solve] for one and two unknowns, by Cramer's rule; a
    singular matrix is a [LinAlgError].  Larger systems are not used
    below. *)
Definition solve_cramer (A : matrix) (y : vec) : result vec :=
  match A, y with
  | [[a]], [y1] =>
      if Req_dec_T a 0 then Raise LinAlgError else Ok [y1 / a]
  | [[a; b]; [c; d]], [y1; y2] =>
      let det := a * d - b * c in
      if Req_dec_T det 0 then Raise LinAlgError
      else Ok [(y1 * d - b * y2) / det; (a * y2 - c * y1) / det]
  | _, _ => Raise LinAlgError
  end.

(** [np.linalg.eigvals] of a 1 x 1 matrix and of a diagonal 2 x 2
    matrix; other matrices are not used below. *)
Definition eigvals_diag (A : matrix) : result (list R) :=
  match A with
  | [[a]] => Ok [a]
  | [[a; b]; [c; d]] =>
      if Req_dec_T b 0 then if Req_dec_T c 0 then Ok [a; d]
                            else Raise LinAlgError
      else Raise LinAlgError
  | _ => Raise LinAlgError
  end.

(** The first two trials of an Armijo backtracking search, as scipy's
    [line_search_armijo] makes them: the full step [alpha0], then the
    minimizer of the quadratic interpolant.  A search that passes
    neither is reported as failed here. *)
Definition armijo (f : vec -> R) (xk pk gfk : vec) (old_fval c1 alpha0 : R)
  : option R :=
  let phi := fun a => f (vadd xk (vscale a pk)) in
  let derphi0 := dot gfk pk in
  let phi_a0 := phi alpha0 in
  if Rleb phi_a0 (old_fval + c1 * alpha0 * derphi0) then Some alpha0
  else
    let alpha1 :=
      - derphi0 * alpha0 ^ 2 / 2 / (phi_a0 - old_fval - derphi0 * alpha0) in
    if Rleb (phi alpha1) (old_fval + c1 * alpha1 * derphi0) then Some alpha1
    else None.

(** The scheme [regularized_nonlinear(k0, lam, ad, dl, fd)] after
    [pre] on the objective [||x - 4||^2] from the point [0]. *)
Definition rna_start (k0 : Z) (lam : Py.value) (ad dl fd : bool)
  : RNA.world :=
  RNA.on_self (RNA.pre [quadratic [4]] [0])
    (snd (RNA.__init__ float_of_char k0 lam ad dl fd RNA.blank)).

(** One cycle of the default scheme with [k = 1]: the solver is at [0],
    then at [2]; the history holds the objective at the points so far. *)
Definition cycle_calls : list (vec * list (list R)) :=
  [([0], [[16]]); ([2], [[16]; [4]])].

(** A cycle with [k = 2] during which the objective goes up again: the
    solver is at [0], [3] and then [6]. *)
Definition overshoot_calls : list (vec * list (list R)) :=
  [([0], [[16]]); ([3], [[16]; [1]]); ([6], [[16]; [1]; [4]])].

(** The states the default scheme with [k = 1] goes through over
    [cycle_calls]: fresh from [pre], after the first call, after the grid
    has been rebuilt in the second call, and after the second call. *)
Definition cycle_w0 : RNA.world := rna_start 1 (Float 1e-6) true true true.
Definition cycle_w1 : RNA.world :=
  RNA.on_self (RNA.set_buffer [[0]]) cycle_w0.
Definition cycle_w2 : RNA.world :=
  RNA.on_self (RNA.set_lambda [0])
    (RNA.on_self (RNA.set_buffer [[0]; [2]]) cycle_w1).
Definition cycle_w3 : RNA.world :=
  RNA.on_self (RNA.set_lambda [])
    (RNA.on_self (RNA.set_buffer []) cycle_w2).

(** The states of the scheme
    [regularized_nonlinear(k=2, lambda_=1., adaptive=False)] over
    [overshoot_calls]: fresh from [pre], with the buffer full in the
    third call, and after the third call. *)
Definition overshoot_w0 : RNA.world :=
  rna_start 2 (Float 1) false true true.
Definition overshoot_w2 : RNA.world :=
  RNA.on_self (RNA.set_buffer [[0]; [3]; [6]]) overshoot_w0.
Definition overshoot_w3 : RNA.world :=
  RNA.on_self (RNA.set_lambda [1])
    (RNA.on_self (RNA.set_buffer []) overshoot_w2).

(** The states of the scheme
    [regularized_nonlinear(k=1, dolinesearch=False)] in its second call
    over [cycle_calls]: before the call, with the grid rebuilt, and after
    the call. *)
Definition plain_w1 : RNA.world :=
  RNA.on_self (RNA.set_buffer [[0]])
    (rna_start 1 (Float 1e-6) true false true).
Definition plain_w2 : RNA.world :=
  RNA.on_self (RNA.set_lambda [0])
    (RNA.on_self (RNA.set_buffer [[0]; [2]]) plain_w1).
Definition plain_w3 : RNA.world :=
  RNA.on_self (RNA.set_lambda [])
    (RNA.on_self (RNA.set_buffer []) plain_w2).

(* ------------------------------------------------------------------ *)
(** * Properties of the method monad and of vectors                    *)
(* ------------------------------------------------------------------ *)

Lemma Rgtb_true (x y : R) : Rgtb x y = true <-> x > y.
Proof.
  unfold Rgtb. destruct (Rgt_dec x y); split; intros; try easy.
Qed.

Lemma Rgtb_false (x y : R) : Rgtb x y = false <-> x <= y.
Proof.
  unfold Rgtb. destruct (Rgt_dec x y); split; intros; try easy; lra.
Qed.

Lemma Rleb_true (x y : R) : Rleb x y = true <-> x <= y.
Proof.
  unfold Rleb. destruct (Rle_dec x y); split; intros; try easy.
Qed.

Lemma Rleb_false (x y : R) : Rleb x y = false <-> x > y.
Proof.
  unfold Rleb. destruct (Rle_dec x y); split; intros; try easy; lra.
Qed.

Section Frames.

Context {S : Type}.
Variable R : S -> S -> Prop.
Hypothesis R_refl : forall s, R s s.
Hypothesis R_trans : forall a b c, R a b -> R b c -> R a c.

Lemma frame_ret {A} (a : A) : frame R (ret a).
Proof. intros s. apply R_refl. Qed.

Lemma frame_raise {A} (e : exn) : frame R (@raise S A e).
Proof. intros s. apply R_refl. Qed.

Lemma frame_gets {A} (f : S -> A) : frame R (gets f).
Proof. intros s. apply R_refl. Qed.

Lemma frame_attr {A} (f : S -> option A) : frame R (attr f).
Proof. intros s. unfold attr. destruct (f s); apply R_refl. Qed.

Lemma frame_lift {A} (r : result A) : frame R (@lift S A r).
Proof. intros s. apply R_refl. Qed.

Lemma frame_modify (f : S -> S) : (forall s, R s (f s)) -> frame R (modify f).
Proof. intros H s. apply H. Qed.

Lemma frame_bind {A B} (m : M S A) (k : A -> M S B) :
  frame R m -> (forall a, frame R (k a)) -> frame R (bind m k).
Proof.
  intros Hm Hk s. unfold bind. specialize (Hm s).
  destruct (m s) as [[a|e] s1]; simpl in *; [|exact Hm].
  apply (R_trans _ s1); [exact Hm | apply Hk].
Qed.

End Frames.

(** If a sequence returns, so did its first part. *)
Lemma bind_Ok {S A B} (m : M S A) (k : A -> M S B) (s s' : S) (b : B) :
  bind m k s = (Ok b, s') ->
  exists a s1, m s = (Ok a, s1) /\ k a s1 = (Ok b, s').
Proof.
  unfold bind. destruct (m s) as [[a|e] s1]; [|discriminate].
  intros H. now exists a, s1.
Qed.

Lemma bind_eq {S A B} (m : M S A) (k : A -> M S B) (s s1 : S) (a : A) :
  m s = (Ok a, s1) -> bind m k s = k a s1.
Proof. intros H. unfold bind. now rewrite H. Qed.

(** Splits an equation between lists of reals into its entries. *)
Ltac entries :=
  repeat match goal with
         | |- ?x = ?x => reflexivity
         | |- (_, _) = (_, _) => apply f_equal2
         | |- Ok _ = Ok _ => apply f_equal
         | |- Some _ = Some _ => apply f_equal
         | |- _ :: _ = _ :: _ => apply f_equal2
         end.

(** Applies the frame rules down the structure of a method. *)
Ltac frame_tac Hrefl Htrans :=
  repeat first
    [ progress cbv beta
    | (apply frame_bind; [exact Htrans| |]); [|intro]
    | (apply frame_ret; try exact Hrefl)
    | (apply frame_raise; try exact Hrefl)
    | (apply frame_gets; try exact Hrefl)
    | (apply frame_attr; try exact Hrefl)
    | (apply frame_lift; try exact Hrefl)
    | match goal with
      | |- frame _ (if ?b then _ else _) => destruct b
      | |- frame _ (match ?x with _ => _ end) => destruct x
      end ].

(* ------------------------------------------------------------------ *)
(** * backtracking: construction                                       *)
(* ------------------------------------------------------------------ *)

Section BacktrackingInit.

Import Backtracking.

Lemma init_raises_ValueError (eta0 : R) (kwargs : list string) :
  __init__ eta0 kwargs = Raise ValueError <-> ~ (0 < eta0 <= 1).
Proof.
  unfold __init__.
  destruct (Rgtb eta0 1) eqn:E1; destruct (Rleb eta0 0) eqn:E2; simpl;
    try apply Rgtb_true in E1; try apply Rgtb_false in E1;
    try apply Rleb_true in E2; try apply Rleb_false in E2;
    try (split; [intros _; lra | reflexivity]).
  destruct kwargs; simpl; split; intros H; try discriminate; lra.
Qed.

Lemma init_accepts (eta0 : R) :
  0 < eta0 <= 1 ->
  __init__ eta0 [] = Ok {| eta := eta0; smooth_funs := None; sol := None |}.
Proof.
  intros Hin. unfold __init__.
  assert (E1 : Rgtb eta0 1 = false) by (apply Rgtb_false; lra).
  assert (E2 : Rleb eta0 0 = false) by (apply Rleb_false; lra).
  rewrite E1, E2. reflexivity.
Qed.

Lemma init_returns (eta0 : R) (kwargs : list string) (a : backtracking) :
  __init__ eta0 kwargs = Ok a -> eta a = eta0 /\ 0 < eta0 <= 1.
Proof.
  intros Ha.
  assert (Hin : 0 < eta0 <= 1).
  { destruct (Rle_dec eta0 0) as [Hle|Hle].
    - assert (Hr : __init__ eta0 kwargs = Raise ValueError)
        by (apply init_raises_ValueError; lra).
      rewrite Hr in Ha. discriminate.
    - destruct (Rgt_dec eta0 1) as [Hgt|Hgt].
      + assert (Hr : __init__ eta0 kwargs = Raise ValueError)
          by (apply init_raises_ValueError; lra).
        rewrite Hr in Ha. discriminate.
      + lra. }
  split; [|exact Hin].
  unfold __init__ in Ha.
  destruct (Rgtb eta0 1 || Rleb eta0 0); [discriminate|].
  destruct (accel_init kwargs); [|discriminate].
  injection Ha as <-. reflexivity.
Qed.

(** C7. [backtracking(eta)] raises the configuration error ([ValueError])
    exactly when [eta] is outside the interval (0, 1], and it does so in
    the constructor; an [eta] inside the interval is stored as it is, in
    every object the constructor returns, and with no stray keyword the
    constructor does return. *)
Theorem backtracking_init_validates_eta (eta0 : R) (kwargs : list string) :
  (__init__ eta0 kwargs = Raise ValueError <-> ~ (0 < eta0 <= 1))
  /\ (forall a, __init__ eta0 kwargs = Ok a -> eta a = eta0 /\ 0 < eta0 <= 1)
  /\ (0 < eta0 <= 1 ->
      __init__ eta0 [] =
      Ok {| eta := eta0; smooth_funs := None; sol := None |}).
Proof.
  split; [apply init_raises_ValueError|].
  split; [apply init_returns | apply init_accepts].
Qed.

Lemma backtracking_init_validates_eta_witness :
  Backtracking.__init__ (1/2) [] =
  Ok {| eta := 1/2; smooth_funs := None; sol := None |}.
Proof.
  apply (backtracking_init_validates_eta (1/2) []). lra.
Defined.

End BacktrackingInit.

(* ------------------------------------------------------------------ *)
(** * fista                                                            *)
(* ------------------------------------------------------------------ *)

Section FistaFacts.

Import Fista.

Lemma sqrt_gt_double (x : R) : sqrt (1 + 4 * x ^ 2) > 2 * x.
Proof.
  destruct (Rle_dec 0 x) as [Hx|Hx].
  - replace (2 * x) with (sqrt ((2 * x) * (2 * x)))
      by (apply sqrt_square; lra).
    apply sqrt_lt_1_alt. nra.
  - assert (0 <= sqrt (1 + 4 * x ^ 2)) by apply sqrt_pos. lra.
Qed.

Lemma t_next_increases (x : R) : t_next x > x.
Proof.
  unfold t_next. pose proof (sqrt_gt_double x). lra.
Qed.

(** C5. A call of [fista._update_sol] with a snapshot in place: with
    [t0] the momentum scalar after the restart test (1 at iteration 1,
    the stored [t] otherwise) and [t1 = (1 + sqrt (1 + 4 t0^2)) / 2], the
    call returns [sol + ((t0 - 1) / t1) (sol - snapshot)], stores [t1] as
    the new [t] and the solver's point as the new snapshot; and the
    recurrence takes every [x >= 1] to a strictly larger value. *)
Theorem fista_update_sol_recurrence (a : fista) (snapshot solver_sol : vec)
  (niter : Z) :
  sol a = Some snapshot ->
  let t0 := if (niter =? 1)%Z then 1 else t a in
  let t1 := (1 + sqrt (1 + 4 * t0 ^ 2)) / 2 in
  _update_sol solver_sol niter a =
    (Ok (vadd solver_sol
           (vscale ((t0 - 1) / t1) (vsub solver_sol snapshot))),
     {| t := t1; sol := Some solver_sol |})
  /\ (niter = 1%Z -> t0 = 1)
  /\ (forall x, 1 <= x -> (1 + sqrt (1 + 4 * x ^ 2)) / 2 > x).
Proof.
  intros Hsol t0 t1. split; [|split].
  - unfold _update_sol, bind, modify, gets, attr, ret, set_t, set_sol.
    simpl. rewrite Hsol. reflexivity.
  - intros ->. reflexivity.
  - intros x _. apply t_next_increases.
Qed.

Lemma fista_update_sol_recurrence_witness :
  _update_sol [1] 1 {| t := 3; sol := Some [0] |} =
    (Ok (vadd [1]
           (vscale ((1 - 1) / ((1 + sqrt (1 + 4 * 1 ^ 2)) / 2))
                   (vsub [1] [0]))),
     {| t := (1 + sqrt (1 + 4 * 1 ^ 2)) / 2; sol := Some [1] |})
  /\ (1 + sqrt (1 + 4 * 1 ^ 2)) / 2 > 1.
Proof.
  pose proof (fista_update_sol_recurrence
                {| t := 3; sol := Some [0] |} [0] [1] 1 eq_refl) as H.
  simpl in H. destruct H as (H1 & _ & H3).
  split; [exact H1 | apply H3; lra].
Defined.

End FistaFacts.

(* ------------------------------------------------------------------ *)
(** * backtracking: the step update                                    *)
(* ------------------------------------------------------------------ *)

Section BacktrackingStep.

Import Backtracking.

Context {X : Type}.
Variable _algo : solver X -> solver X.

(** None of the pieces of [_update_step] touches the scheme. *)

Lemma accumulate_self (fs : list func) (valp : R) (g : vec) (w : world X) :
  snd (accumulate fs valp g w) = w.
Proof.
  revert valp g. induction fs as [|f fs IH]; intros valp g; simpl.
  - reflexivity.
  - unfold bind, gets, attr. simpl.
    destruct (sol (self w)); simpl; [apply IH | reflexivity].
Qed.

Lemma prologue_self (objective : list (list R)) (w : world X) :
  snd (prologue objective w) = w.
Proof.
  unfold prologue, bind, lift, gets, attr, ret. simpl.
  destruct (index objective (-1)); simpl; [|reflexivity].
  destruct (smooth_funs (self w)); simpl; [|reflexivity].
  match goal with
  | |- context [accumulate ?fs ?v ?g w] =>
      pose proof (accumulate_self fs v g w) as H;
      destruct (accumulate fs v g w) as [[acc|e] w1]
  end; simpl in *; subst; reflexivity.
Qed.

Lemma criterion_self (valn : R) (g : vec) (valp : R) (w : world X) :
  snd (criterion valn g valp w) = w.
Proof.
  unfold criterion, bind, gets, attr, ret. simpl.
  destruct (sol (self w)); reflexivity.
Qed.

Lemma shrink_self (w : world X) :
  self (snd (shrink _algo w)) = self w.
Proof.
  unfold shrink, bind, gets, modify, attr, ret, on_solver. simpl.
  destruct (smooth_funs (self w)); reflexivity.
Qed.

Lemma while_self (fuel : nat) (valn : R) (g : vec) (valp : R)
  (w : world X) (r : result unit) (w' : world X) :
  while_ _algo fuel valn g valp w = Some (r, w') -> self w' = self w.
Proof.
  revert valp w. induction fuel as [|fuel IH]; intros valp w; simpl.
  - discriminate.
  - pose proof (criterion_self valn g valp w) as Hc.
    destruct (criterion valn g valp w) as [[[|]|e] w1]; simpl in Hc; subst w1.
    + pose proof (shrink_self w) as Hs.
      destruct (shrink _algo w) as [[valp'|e] w2]; simpl in Hs.
      * intros H. apply IH in H. congruence.
      * intros H. injection H as _ <-. exact Hs.
    + intros H. injection H as _ <-. reflexivity.
    + intros H. injection H as _ <-. reflexivity.
Qed.

(** C10. When [backtracking._update_step] returns, the step held by the
    solver is the value returned, and the scheme's own state ([eta], the
    smooth functions, the snapshot [sol]) is what it was before the
    call. *)
Theorem backtracking_update_step_frame (fuel : nat)
  (objective : list (list R)) (niter : Z) (w w' : world X) (r : R) :
  _update_step _algo fuel objective niter w = Some (Ok r, w') ->
  step (slv w') = r
  /\ eta (self w') = eta (self w)
  /\ smooth_funs (self w') = smooth_funs (self w)
  /\ sol (self w') = sol (self w).
Proof.
  unfold _update_step.
  pose proof (prologue_self objective w) as Hp.
  destruct (prologue objective w) as [[[valn [valp g]]|e] w1];
    simpl in Hp; subst w1; [|discriminate].
  destruct (while_ _algo fuel valn g valp w) as [[[u|e] w2]|] eqn:Hw;
    try discriminate.
  intros H. injection H as <- <-.
  apply while_self in Hw. rewrite Hw. auto.
Qed.

(** ** The loop as an iteration of the solver *)

Lemma accumulate_ok (fs : list func) (valp : R) (g : vec) (w : world X)
  (snap : vec) :
  sol (self w) = Some snap ->
  accumulate fs valp g w =
  (Ok (valp + sum_eval fs (solver_sol (slv w)),
       fold_left (fun g f => vadd g (grad f snap)) fs g), w).
Proof.
  intros Hs. revert valp g.
  induction fs as [|f fs IH]; intros valp g; simpl.
  - unfold ret, sum_eval. simpl. rewrite Rplus_0_r. reflexivity.
  - unfold bind, gets, attr. simpl. rewrite Hs. rewrite IH.
    unfold sum_eval. simpl. rewrite Rplus_assoc. reflexivity.
Qed.

Lemma iter_step (eta0 : R) (s : solver X) (m : nat) :
  (forall s', step (_algo s') = step s') ->
  step (Nat.iter m (shrink_solver _algo eta0) s) = step s * eta0 ^ m.
Proof.
  intros Halgo. induction m as [|m IH]; simpl.
  - lra.
  - unfold shrink_solver at 1. rewrite Halgo. simpl. rewrite IH. lra.
Qed.

Section Loop.

Variables (a : backtracking) (fs : list func) (snap : vec).
Variables (valn : R) (g : vec).
Hypothesis Hfs : smooth_funs a = Some fs.
Hypothesis Hsnap : sol a = Some snap.

Let viol : solver X -> bool := majorant_violated valn g fs snap.
Let next := shrink_solver _algo (eta a).
Let at_ (s : solver X) : world X := {| self := a; slv := s |}.

Lemma while_unfold (fuel : nat) (s : solver X) :
  while_ _algo (S fuel) valn g (sum_eval fs (solver_sol s)) (at_ s) =
  if viol s
  then while_ _algo fuel valn g (sum_eval fs (solver_sol (next s)))
              (at_ (next s))
  else Some (Ok tt, at_ s).
Proof.
  simpl. unfold criterion, bind, gets, attr, ret. simpl. rewrite Hsnap.
  fold (viol s). unfold viol, majorant_violated.
  destruct (Rgtb _ _); [|reflexivity].
  unfold shrink, bind, gets, modify, attr, ret, on_solver. simpl.
  rewrite Hfs. reflexivity.
Qed.

Lemma while_returns (fuel : nat) (s : solver X)
  (res : result unit * world X) :
  while_ _algo fuel valn g (sum_eval fs (solver_sol s)) (at_ s) = Some res
  <-> exists m, (m < fuel)%nat
      /\ (forall i, (i < m)%nat -> viol (Nat.iter i next s) = true)
      /\ viol (Nat.iter m next s) = false
      /\ res = (Ok tt, at_ (Nat.iter m next s)).
Proof.
  revert s. induction fuel as [|fuel IH]; intros s.
  - simpl. split; [discriminate | intros (m & Hm & _); lia].
  - rewrite while_unfold. destruct (viol s) eqn:Hv.
    + rewrite IH. split.
      * intros (m & Hm & Hlt & Hstop & Hres). exists (S m).
        split; [lia|]. split; [|split].
        -- intros [|i] Hi; [exact Hv|].
           rewrite Nat.iter_succ_r. apply Hlt. lia.
        -- rewrite Nat.iter_succ_r. exact Hstop.
        -- rewrite Nat.iter_succ_r. exact Hres.
      * intros (m & Hm & Hlt & Hstop & Hres). destruct m as [|m].
        -- simpl in Hstop. congruence.
        -- exists m. split; [lia|]. split; [|split].
           ++ intros i Hi. rewrite <- Nat.iter_succ_r. apply Hlt. lia.
           ++ rewrite <- Nat.iter_succ_r. exact Hstop.
           ++ rewrite <- Nat.iter_succ_r. exact Hres.
    + split.
      * intros H. injection H as <-. exists 0%nat.
        split; [lia|]. split; [intros i Hi; lia|]. split; [exact Hv|].
        reflexivity.
      * intros (m & Hm & Hlt & Hstop & Hres). destruct m as [|m].
        -- simpl in Hres. congruence.
        -- specialize (Hlt 0%nat ltac:(lia)). simpl in Hlt. congruence.
Qed.

End Loop.

(** What a call of [_update_step] does, as an iteration of the solver. *)
Lemma update_step_returns_iff (fuel : nat)
  (objective : list (list R)) (niter : Z) (a : backtracking)
  (s : solver X) (last : list R) (fs : list func) (snap : vec) :
  (forall s', step (_algo s') = step s') ->
  index objective (-1) = Ok last ->
  smooth_funs a = Some fs ->
  sol a = Some snap ->
  let g := summed_grad fs snap (List.length (solver_sol s)) in
  let viol := majorant_violated (Rsum last) g fs snap in
  let it := fun m => Nat.iter m (shrink_solver _algo (eta a)) s in
  forall res,
    _update_step _algo fuel objective niter {| self := a; slv := s |}
      = Some res
    <-> exists m, (m < fuel)%nat
        /\ (forall i, (i < m)%nat -> viol (it i) = true)
        /\ viol (it m) = false
        /\ res = (Ok (step s * eta a ^ m), {| self := a; slv := it m |}).
Proof.
  intros Halgo Hlast Hfs Hsnap g viol it res.
  unfold _update_step, prologue, bind, lift, gets, attr, ret. simpl.
  rewrite Hlast, Hfs. simpl.
  rewrite (accumulate_ok fs 0 _ {| self := a; slv := s |} snap Hsnap). simpl.
  rewrite Rplus_0_l. fold (summed_grad fs snap (List.length (solver_sol s))).
  fold g.
  pose proof (while_returns a fs snap (Rsum last) g Hfs Hsnap fuel s) as Hw.
  split.
  - destruct (while_ _ _ _ _ _ _) as [[r w2]|] eqn:E; [|discriminate].
    destruct (proj1 (Hw (r, w2)) eq_refl) as (m & Hm & Hlt & Hstop & Hres).
    injection Hres as -> ->. intros H. injection H as <-.
    exists m. repeat split; try assumption.
    simpl. rewrite (iter_step _ _ _ Halgo). reflexivity.
  - intros (m & Hm & Hlt & Hstop & ->).
    rewrite (proj2 (Hw (Ok tt, _)) (ex_intro _ m (conj Hm (conj Hlt
               (conj Hstop eq_refl))))).
    simpl. rewrite (iter_step _ _ _ Halgo). reflexivity.
Qed.

(** C6 (as amended). With the scheme set up by [pre], a non-empty
    objective history and a solver whose [_algo] leaves the step alone:
    [_update_step] returns exactly when the quadratic-majorant inequality
    fails after some number [m] of shrinkings, having held at each of the
    [m] states before; the loop body ran [m] times (step times [eta],
    [_algo], [valp] again) and the value returned is the initial step
    times [eta^m].  Here [valn] is the sum of the last objective entry,
    [valp] the summed value of the smooth functions at the solver's trial
    point and [grad] their summed gradient at the snapshot.  When the
    inequality never fails the call does not return, whatever the
    fuel. *)
Theorem backtracking_update_step_shrinks (fuel : nat)
  (objective : list (list R)) (niter : Z) (a : backtracking)
  (s : solver X) (last : list R) (fs : list func) (snap : vec) :
  (forall s', step (_algo s') = step s') ->
  index objective (-1) = Ok last ->
  smooth_funs a = Some fs ->
  sol a = Some snap ->
  let g := summed_grad fs snap (List.length (solver_sol s)) in
  let viol := majorant_violated (Rsum last) g fs snap in
  let it := fun m => Nat.iter m (shrink_solver _algo (eta a)) s in
  forall res,
    _update_step _algo fuel objective niter {| self := a; slv := s |}
      = Some res
    <-> exists m, (m < fuel)%nat
        /\ (forall i, (i < m)%nat -> viol (it i) = true)
        /\ viol (it m) = false
        /\ res = (Ok (step s * eta a ^ m), {| self := a; slv := it m |}).
Proof.
  intros Halgo Hlast Hfs Hsnap.
  exact (update_step_returns_iff fuel objective niter a s last fs snap
           Halgo Hlast Hfs Hsnap).
Qed.

End BacktrackingStep.

(* ------------------------------------------------------------------ *)
(** * backtracking on a concrete objective                             *)
(* ------------------------------------------------------------------ *)

Section BacktrackingRun.

Import Backtracking.

Lemma sqnorm_cons (a : R) (x : vec) : sqnorm (a :: x) = a ^ 2 + sqnorm x.
Proof. reflexivity. Qed.

Lemma sqnorm_nonneg (x : vec) : 0 <= sqnorm x.
Proof.
  induction x as [|a x IH]; [unfold sqnorm; simpl; lra|].
  rewrite sqnorm_cons. pose proof (pow2_ge_0 a). lra.
Qed.

Lemma sqnorm_vscale (c : R) (x : vec) :
  sqnorm (vscale c x) = c ^ 2 * sqnorm x.
Proof.
  induction x as [|a x IH]; [unfold sqnorm; simpl; lra|].
  change (vscale c (a :: x)) with (c * a :: vscale c x).
  rewrite !sqnorm_cons, IH. ring.
Qed.

Lemma pseudo_huber_at (x y : R) :
  0 <= y -> 1 + x * x = y * y -> eval pseudo_huber [x] = y.
Proof.
  intros Hy Hxy. simpl. unfold sqnorm. simpl.
  apply sqrt_lem_1; nra.
Qed.

Lemma pseudo_huber_grad_at (x y : R) :
  0 < y -> 1 + x * x = y * y -> grad pseudo_huber [x] = [x / y].
Proof.
  intros Hy Hxy.
  pose proof (pseudo_huber_at x y ltac:(lra) Hxy) as He.
  simpl in *. rewrite He. f_equal. field. lra.
Qed.

(** The gradient of [pseudo_huber] is bounded by 1. *)
Lemma pseudo_huber_grad_bounded (x : vec) :
  sqnorm (grad pseudo_huber x) <= 1.
Proof.
  simpl. rewrite sqnorm_vscale.
  pose proof (sqnorm_nonneg x) as Hn.
  assert (Hs : 0 < sqrt (1 + sqnorm x)) by (apply sqrt_lt_R0; lra).
  assert (Hq : sqrt (1 + sqnorm x) * sqrt (1 + sqnorm x) = 1 + sqnorm x)
    by (apply sqrt_sqrt; lra).
  revert Hs Hq. generalize (sqrt (1 + sqnorm x)). intros s Hs Hq.
  replace ((/ s) ^ 2) with (/ (1 + sqnorm x))
    by (rewrite <- Hq; field; lra).
  apply (Rmult_le_reg_l (1 + sqnorm x)); [lra|].
  rewrite <- Rmult_assoc, Rinv_r by lra. lra.
Qed.

(** In one dimension, [grad] is the derivative of [eval]. *)
Lemma pseudo_huber_derivative (x : R) :
  derivable_pt_lim (fun y => eval pseudo_huber [y]) x
                   (nth 0 (grad pseudo_huber [x]) 0).
Proof.
  simpl. unfold sqnorm. simpl.
  assert (Hpos : 0 < 1 + (x * (x * 1) + 0)) by nra.
  assert (Hs : 0 < sqrt (1 + (x * (x * 1) + 0))) by (apply sqrt_lt_R0; lra).
  replace (/ sqrt (1 + (x * (x * 1) + 0)) * x)
    with (/ (2 * sqrt (1 + (x * (x * 1) + 0))) * (0 + (INR 2 * x ^ 1 + 0)))
    by (simpl; field; lra).
  change (fun y : R => sqrt (1 + (y * (y * 1) + 0)))
    with (comp sqrt (fct_cte 1 + ((fun y => y ^ 2) + fct_cte 0))%F).
  apply derivable_pt_lim_comp.
  - apply derivable_pt_lim_plus; [apply derivable_pt_lim_const|].
    apply derivable_pt_lim_plus; [|apply derivable_pt_lim_const].
    apply (derivable_pt_lim_pow x 2).
  - apply derivable_pt_lim_sqrt.
    unfold plus_fct, fct_cte. simpl. exact Hpos.
Qed.

(** The solver's trial point from [3/4] with step [c]. *)
Lemma gradient_algo_at (c : R) (s : solver vec) :
  aux s = [3/4] -> step s = c ->
  gradient_algo pseudo_huber s =
  {| solver_sol := [3/4 - c * (3/5)]; step := c; aux := [3/4] |}.
Proof.
  intros Ha Hc. unfold gradient_algo. rewrite Ha, Hc.
  rewrite (pseudo_huber_grad_at (3/4) (5/4)) by lra.
  simpl. unfold vsub. simpl.
  replace (3 / 4 - c * (3 / 4 / (5 / 4))) with (3 / 4 - c * (3 / 5))
    by field.
  reflexivity.
Qed.

(** The loop condition at the trial point [x] reached with step [c]. *)
Lemma bt_violated (c x y : R) :
  0 <= y -> 1 + x * x = y * y ->
  majorant_violated (Rsum [5/4])
    (summed_grad [pseudo_huber] [3/4] 1) [pseudo_huber] [3/4]
    {| solver_sol := [x]; step := c; aux := [3/4] |}
  = Rgtb (2 * c * (y - 5/4 - (x - 3/4) * (3/5))) ((x - 3/4) ^ 2).
Proof.
  intros Hy Hxy. unfold majorant_violated, summed_grad, sum_eval.
  cbn [solver_sol step map fold_left].
  rewrite (pseudo_huber_at x y Hy Hxy).
  rewrite (pseudo_huber_grad_at (3/4) (5/4)) by lra.
  unfold dot, sqnorm, vsub, vadd, zeros. simpl.
  f_equal; field.
Qed.

(** The state of the solver after [m] shrinkings. *)
Lemma bt_iterate (eta0 : R) (m : nat) :
  Nat.iter m (shrink_solver (gradient_algo pseudo_huber) eta0)
           (slv (bt_world eta0))
  = {| solver_sol := [3/4 - 5/2 * eta0 ^ m * (3/5)];
       step := 5/2 * eta0 ^ m; aux := [3/4] |}.
Proof.
  induction m as [|m IH].
  - simpl. apply gradient_algo_at; [reflexivity | simpl; lra].
  - rewrite Nat.iter_succ, IH. unfold shrink_solver.
    apply gradient_algo_at; [reflexivity | simpl; ring].
Qed.

Lemma bt_setup (eta0 : R) :
  (forall s, step (gradient_algo pseudo_huber s) = step s)
  /\ index bt_objective (-1) = Ok [5/4]
  /\ smooth_funs (bt_scheme eta0) = Some [pseudo_huber]
  /\ sol (bt_scheme eta0) = Some [3/4]
  /\ List.length (solver_sol (slv (bt_world eta0))) = 1%nat.
Proof. repeat split. Qed.

(** With [eta = 1/2] the inequality holds at the first trial point and
    fails after one shrinking. *)
Lemma bt_half_trace :
  let viol := majorant_violated (Rsum [5/4])
                (summed_grad [pseudo_huber] [3/4] 1) [pseudo_huber] [3/4] in
  let it := fun m => Nat.iter m
                (shrink_solver (gradient_algo pseudo_huber) (1/2))
                (slv (bt_world (1/2))) in
  viol (it 0%nat) = true /\ viol (it 1%nat) = false.
Proof.
  intros viol it. unfold it, viol. rewrite !bt_iterate. split.
  - rewrite (bt_violated _ _ (5/4)) by (simpl; lra).
    apply Rgtb_true. simpl. lra.
  - rewrite (bt_violated _ _ 1) by (simpl; lra).
    apply Rgtb_false. simpl. lra.
Qed.

Lemma backtracking_update_step_shrinks_witness :
  _update_step (gradient_algo pseudo_huber) 2 bt_objective 1
               (bt_world (1/2))
  = Some (Ok (5/2 * (1/2) ^ 1),
          {| self := bt_scheme (1/2);
             slv := Nat.iter 1
                      (shrink_solver (gradient_algo pseudo_huber) (1/2))
                      (slv (bt_world (1/2))) |}).
Proof.
  destruct (bt_setup (1/2)) as (H1 & H2 & H3 & H4 & _).
  destruct bt_half_trace as [Hv0 Hv1].
  apply (proj2 (backtracking_update_step_shrinks
                  (gradient_algo pseudo_huber) 2 bt_objective 1
                  (bt_scheme (1/2)) (slv (bt_world (1/2)))
                  [5/4] [pseudo_huber] [3/4] H1 H2 H3 H4 _)).
  exists 1%nat. split; [lia|]. split; [|split].
  - intros i Hi. assert (i = 0%nat) as -> by lia. exact Hv0.
  - exact Hv1.
  - reflexivity.
Defined.

(** The same run, for use below. *)
Lemma bt_half_run :
  _update_step (gradient_algo pseudo_huber) 2 bt_objective 1
               (bt_world (1/2))
  = Some (Ok (5/2 * (1/2) ^ 1),
          {| self := bt_scheme (1/2);
             slv := Nat.iter 1
                      (shrink_solver (gradient_algo pseudo_huber) (1/2))
                      (slv (bt_world (1/2))) |}).
Proof.
  destruct (bt_setup (1/2)) as (H1 & H2 & H3 & H4 & _).
  destruct bt_half_trace as [Hv0 Hv1].
  apply (proj2 (update_step_returns_iff
                  (gradient_algo pseudo_huber) 2 bt_objective 1
                  (bt_scheme (1/2)) (slv (bt_world (1/2)))
                  [5/4] [pseudo_huber] [3/4] H1 H2 H3 H4 _)).
  exists 1%nat. split; [lia|]. split; [|split].
  - intros i Hi. assert (i = 0%nat) as -> by lia. exact Hv0.
  - exact Hv1.
  - reflexivity.
Qed.

Lemma backtracking_update_step_frame_witness :
  step (slv ({| self := bt_scheme (1/2);
                slv := Nat.iter 1
                  (shrink_solver (gradient_algo pseudo_huber) (1/2))
                  (slv (bt_world (1/2))) |})) = 5/2 * (1/2) ^ 1
  /\ eta (bt_scheme (1/2)) = eta (self (bt_world (1/2))).
Proof.
  destruct (backtracking_update_step_frame
              (gradient_algo pseudo_huber) 2 bt_objective 1
              (bt_world (1/2)) _ _ bt_half_run)
    as (H1 & H2 & _).
  split; [exact H1 | exact H2].
Defined.

(** With [eta = 1] the step never changes, the trial point is recomputed
    to the same place and the inequality holds for ever. *)
Lemma bt_one_trace (m : nat) :
  majorant_violated (Rsum [5/4])
    (summed_grad [pseudo_huber] [3/4] 1) [pseudo_huber] [3/4]
    (Nat.iter m (shrink_solver (gradient_algo pseudo_huber) 1)
              (slv (bt_world 1))) = true.
Proof.
  rewrite bt_iterate, pow1.
  rewrite (bt_violated _ _ (5/4)) by lra.
  apply Rgtb_true. lra.
Qed.

(** C6, the claim as stated fails: [eta = 1] is accepted by the
    constructor, [pseudo_huber] is finite-valued and smooth with a bounded
    gradient, and yet [_update_step] never returns on it. *)
Lemma backtracking_eta_one_never_returns :
  (exists a, __init__ 1 [] = Ok a /\ pre [pseudo_huber] [3/4] a = bt_scheme 1)
  /\ (forall x, sqnorm (grad pseudo_huber x) <= 1)
  /\ (forall x, derivable_pt_lim (fun y => eval pseudo_huber [y]) x
                                  (nth 0 (grad pseudo_huber [x]) 0))
  /\ (forall fuel,
        _update_step (gradient_algo pseudo_huber) fuel bt_objective 1
                     (bt_world 1) = None).
Proof.
  split; [|split; [|split]].
  - eexists. split.
    + apply init_accepts. lra.
    + reflexivity.
  - apply pseudo_huber_grad_bounded.
  - apply pseudo_huber_derivative.
  - intros fuel.
    destruct (_update_step _ fuel bt_objective 1 (bt_world 1))
      as [res|] eqn:E; [|reflexivity].
    destruct (bt_setup 1) as (H1 & H2 & H3 & H4 & _).
    apply (proj1 (update_step_returns_iff
                    (gradient_algo pseudo_huber) fuel bt_objective 1
                    (bt_scheme 1) (slv (bt_world 1))
                    [5/4] [pseudo_huber] [3/4] H1 H2 H3 H4 res)) in E.
    destruct E as (m & _ & _ & Hstop & _).
    simpl in Hstop. rewrite bt_one_trace in Hstop. discriminate.
Qed.

End BacktrackingRun.

(* ------------------------------------------------------------------ *)
(** * regularized_nonlinear: construction                              *)
(* ------------------------------------------------------------------ *)

Section RNAInit.

Import RNA.

Variable float_of_str : string -> option R.

Let float := RNA.float float_of_str.
Let floats := RNA.floats float_of_str.
Let comprehension := RNA.comprehension float_of_str.
Let lambda_setter := RNA.lambda_setter float_of_str.




Lemma floats_of_floats (l : list R) : floats (map Float l) = Ok l.
Proof.
  unfold floats. induction l as [|r l IH]; simpl; [reflexivity|].
  now rewrite IH.
Qed.

(** Assigning a sequence of floats stores it. *)
Lemma assign_lambda_ok (l : list R) (w : world) :
  assign_lambda float_of_str l w = (Ok tt, on_self (set_lambda l) w).
Proof.
  unfold assign_lambda, RNA.lambda_setter, RNA.comprehension. simpl.
  rewrite floats_of_floats. reflexivity.
Qed.



End RNAInit.



(* ------------------------------------------------------------------ *)
(** * regularized_nonlinear: the blocks of [_update_sol]               *)
(* ------------------------------------------------------------------ *)

Section RNABlocks.

Import RNA.

Variable float_of_str : string -> option R.
Variable solve : matrix -> vec -> result vec.
Variable eigvals : matrix -> result (list R).
Variable line_search_armijo :
  (vec -> R) -> vec -> vec -> vec -> R -> R -> R -> option R.

Let rebuild_grid := RNA.rebuild_grid float_of_str eigvals.
Let choose := RNA.choose solve.
Let improve := RNA.improve line_search_armijo.
Let clear := RNA.clear float_of_str.
Let _update_sol :=
  RNA._update_sol float_of_str solve eigvals line_search_armijo.
Let run := RNA.run float_of_str solve eigvals line_search_armijo.

Lemma same_config_refl (w : world) : same_config w w.
Proof. unfold same_config. tauto. Qed.

Lemma same_config_trans (a b c : world) :
  same_config a b -> same_config b c -> same_config a c.
Proof.
  unfold same_config.
  intros (H1 & H2 & H3 & H4 & H5 & H6 & H7 & H8)
         (G1 & G2 & G3 & G4 & G5 & G6 & G7 & G8).
  repeat split; try congruence.
  intros Ha. rewrite G8, H8; congruence.
Qed.

Lemma eq_sym_trans (a b c : world) : b = a -> c = b -> c = a.
Proof. congruence. Qed.

(** The grid search and the guard only read. *)

Lemma size_k_reads : frame (fun w w' => w' = w) size_k.
Proof.
  unfold size_k. frame_tac (@eq_refl world) eq_sym_trans.
Qed.

Lemma extrapolate_reads (UU : matrix) (d : nat) (lam : R) :
  frame (fun w w' => w' = w) (extrapolate solve UU d lam).
Proof.
  unfold extrapolate.
  (apply frame_bind; [exact eq_sym_trans| |]);
    [apply size_k_reads | intro].
  frame_tac (@eq_refl world) eq_sym_trans.
Qed.

Lemma grid_search_reads (UU : matrix) (d : nat) (grid : list R) :
  frame (fun w w' => w' = w) (grid_search solve UU d grid).
Proof.
  induction grid as [|lam grid IH]; simpl.
  - (apply frame_ret; try exact (@eq_refl world)).
  - (apply frame_bind; [exact eq_sym_trans| |]);
      [apply extrapolate_reads | intro].
    (apply frame_bind; [exact eq_sym_trans| |]);
      [(apply frame_attr; try exact (@eq_refl world)) | intro].
    (apply frame_bind; [exact eq_sym_trans| |]);
      [apply IH | intro].
    (apply frame_ret; try exact (@eq_refl world)).
Qed.

Lemma bad_extrapolation_reads (fvals : list R) (objective : list (list R)) :
  frame (fun w w' => w' = w) (bad_extrapolation fvals objective).
Proof.
  intros w. unfold bad_extrapolation, bind, gets, lift, ret. simpl.
  destruct (forcedecrease (self w)); [|reflexivity].
  destruct (min fvals); [|reflexivity].
  destruct (index objective (-1)); reflexivity.
Qed.

Lemma best_extrapolation_reads (UU : matrix) (d : nat) (fvals : list R) :
  frame (fun w w' => w' = w) (best_extrapolation solve UU d fvals).
Proof.
  unfold best_extrapolation.
  (apply frame_bind; [exact eq_sym_trans| |]);
    [(apply frame_attr; try exact (@eq_refl world)) | intro].
  (apply frame_bind; [exact eq_sym_trans| |]);
    [(apply frame_lift; try exact (@eq_refl world)) | intro].
  (apply frame_bind; [exact eq_sym_trans| |]);
    [(apply frame_lift; try exact (@eq_refl world)) | intro].
  (apply frame_bind; [exact eq_sym_trans| |]);
    [(apply frame_lift; try exact (@eq_refl world)) | intro].
  apply extrapolate_reads.
Qed.

Lemma choose_reads (solver_sol : vec) (objective : list (list R))
  (UU : matrix) :
  frame (fun w w' => w' = w) (choose solver_sol objective UU).
Proof.
  unfold choose, RNA.choose.
  (apply frame_bind; [exact eq_sym_trans| |]);
    [apply size_k_reads | intro].
  (apply frame_bind; [exact eq_sym_trans| |]);
    [(apply frame_attr; try exact (@eq_refl world)) | intro].
  (apply frame_bind; [exact eq_sym_trans| |]);
    [apply grid_search_reads | intro].
  (apply frame_bind; [exact eq_sym_trans| |]);
    [apply bad_extrapolation_reads | intros [|]].
  - (apply frame_ret; try exact (@eq_refl world)).
  - apply best_extrapolation_reads.
Qed.

(** The other blocks, written out. *)

Lemma buffer_append_eq (x : vec) (w : world) :
  buffer_append x w =
  match buffer (self w) with
  | Some b => (Ok tt, on_self (set_buffer (b ++ [x])) w)
  | None => (Raise AttributeError, w)
  end.
Proof.
  unfold buffer_append, bind, attr, modify.
  destruct (buffer (self w)); reflexivity.
Qed.

Lemma rebuild_grid_eq (UU : matrix) (w : world) :
  rebuild_grid UU w =
  if adaptive (self w) then
    match _lambda_ (self w) with
    | None => (Raise AttributeError, w)
    | Some grid =>
        if (List.length grid <=? 1)%nat then
          match eigvals UU with
          | Ok ev => (Ok tt, on_self (set_lambda (adaptive_grid ev)) w)
          | Raise e => (Raise e, w)
          end
        else (Ok tt, w)
    end
  else (Ok tt, w).
Proof.
  unfold rebuild_grid, RNA.rebuild_grid, bind, gets, attr, lift, ret.
  destruct (adaptive (self w)); [|reflexivity].
  destruct (_lambda_ (self w)) as [grid|]; [|reflexivity].
  destruct (List.length grid <=? 1)%nat; [|reflexivity].
  destruct (eigvals UU); [|reflexivity].
  apply assign_lambda_ok.
Qed.

Lemma clear_eq (w : world) :
  clear w =
  let w1 := on_self (set_buffer []) w in
  if adaptive (self w) then (Ok tt, on_self (set_lambda []) w1)
  else match _lambda_ (self w) with
       | Some grid => (Ok tt, on_self (set_lambda grid) w1)
       | None => (Raise AttributeError, w1)
       end.
Proof.
  unfold clear, RNA.clear, bind, modify, gets, attr. simpl.
  destruct (adaptive (self w)); [apply assign_lambda_ok|].
  unfold set_buffer at 1. simpl.
  destruct (_lambda_ (self w)); [apply assign_lambda_ok | reflexivity].
Qed.

Lemma line_search_eq (extrap : vec) (objective : list (list R))
  (w : world) (b : list vec) (xk : vec) (old : list R) (fs : list func) :
  buffer (self w) = Some b ->
  index b 0 = Ok xk ->
  index objective (- k (self w)) = Ok old ->
  functions (self w) = Some fs ->
  line_search line_search_armijo extrap objective w =
  match line_search_armijo (sum_eval fs) xk (vsub extrap xk)
          (vsub extrap xk) (Rsum old) 1e-4 1 with
  | None =>
      (Ok extrap,
       {| self := self w; stdout := stdout w;
          warnings := warnings w
                      ++ ["Line search failed to find good step size"%string]
       |})
  | Some a => (Ok (vadd xk (vscale a (vsub extrap xk))), w)
  end.
Proof.
  intros Hb Hx Ho Hf.
  unfold line_search, bind, attr, lift, gets, warn, modify, ret.
  rewrite Hb, Hx, Ho, Hf.
  destruct (line_search_armijo _ _ _ _ _ _ _); reflexivity.
Qed.

(** No block changes the configuration. *)

Lemma buffer_append_config (x : vec) :
  frame same_config (buffer_append x).
Proof.
  intros w. rewrite buffer_append_eq.
  destruct (buffer (self w)); simpl; unfold same_config; simpl; tauto.
Qed.

Lemma rebuild_grid_config (UU : matrix) :
  frame same_config (rebuild_grid UU).
Proof.
  intros w. rewrite rebuild_grid_eq.
  destruct (adaptive (self w)) eqn:Ea; [|apply same_config_refl].
  destruct (_lambda_ (self w)) as [grid|]; [|apply same_config_refl].
  destruct (List.length grid <=? 1)%nat; [|apply same_config_refl].
  destruct (eigvals UU); [|apply same_config_refl].
  unfold same_config; simpl. rewrite Ea. repeat split; congruence.
Qed.

Lemma choose_config (solver_sol : vec) (objective : list (list R))
  (UU : matrix) :
  frame same_config (choose solver_sol objective UU).
Proof.
  intros w. rewrite (choose_reads solver_sol objective UU w).
  apply same_config_refl.
Qed.

Lemma improve_config (extrap : vec) (objective : list (list R)) :
  frame same_config (improve extrap objective).
Proof.
  unfold improve, RNA.improve, line_search.
  (apply frame_bind; [exact same_config_trans| |]);
    [(apply frame_gets; try exact same_config_refl) | intros [|]].
  - frame_tac same_config_refl same_config_trans.
    unfold warn. apply frame_modify. intros w.
    unfold same_config; simpl; tauto.
  - (apply frame_ret; try exact same_config_refl).
Qed.

Lemma clear_config : frame same_config clear.
Proof.
  intros w. rewrite clear_eq. simpl.
  destruct (adaptive (self w)) eqn:Ea.
  - unfold same_config; simpl. rewrite Ea. repeat split; congruence.
  - destruct (_lambda_ (self w)) eqn:El;
      unfold same_config; simpl; rewrite ?Ea, ?El; tauto.
Qed.

Lemma update_sol_config (solver_sol : vec) (objective : list (list R))
  (niter : Z) :
  frame same_config (_update_sol solver_sol objective niter).
Proof.
  unfold _update_sol, RNA._update_sol.
  (apply frame_bind; [exact same_config_trans| |]);
    [(apply frame_gets; try exact same_config_refl) | intro].
  (apply frame_bind; [exact same_config_trans| |]);
    [(apply frame_lift; try exact same_config_refl) | intro r].
  destruct (r =? 0)%Z.
  - (apply frame_bind; [exact same_config_trans| |]);
      [apply buffer_append_config | intro].
    (apply frame_bind; [exact same_config_trans| |]);
      [(apply frame_attr; try exact same_config_refl) | intro b].
    (apply frame_bind; [exact same_config_trans| |]);
      [apply rebuild_grid_config | intro].
    (apply frame_bind; [exact same_config_trans| |]);
      [apply choose_config | intro].
    (apply frame_bind; [exact same_config_trans| |]);
      [apply improve_config | intro].
    (apply frame_bind; [exact same_config_trans| |]);
      [apply clear_config | intro].
    (apply frame_ret; try exact same_config_refl).
  - (apply frame_bind; [exact same_config_trans| |]);
      [apply buffer_append_config | intro].
    (apply frame_ret; try exact same_config_refl).
Qed.

Lemma run_config (calls : list (vec * list (list R))) (niter : Z) :
  frame same_config (run calls niter).
Proof.
  revert niter. induction calls as [|[x o] calls IH]; intros niter; simpl.
  - (apply frame_ret; try exact same_config_refl).
  - (apply frame_bind; [exact same_config_trans| |]);
      [apply update_sol_config | intro].
    (apply frame_bind; [exact same_config_trans| |]);
      [apply IH | intro].
    (apply frame_ret; try exact same_config_refl).
Qed.

(** ** The grid search, step by step *)

Lemma size_k_eq (w : world) :
  size_k w = if (k (self w) <? 0)%Z then (Raise ValueError, w)
             else (Ok (Z.to_nat (k (self w))), w).
Proof.
  unfold size_k, bind, gets. destruct (k (self w) <? 0)%Z; reflexivity.
Qed.

Lemma extrapolate_eq (UU : matrix) (d : nat) (lam : R) (w : world)
  (b : list vec) (c : vec) :
  (0 <= k (self w))%Z ->
  coefficients solve UU lam (Z.to_nat (k (self w))) = Ok c ->
  buffer (self w) = Some b ->
  extrapolate solve UU d lam w = (Ok (combination d c (removelast b)), w).
Proof.
  intros Hk Hc Hb. unfold extrapolate, bind. rewrite size_k_eq.
  destruct (Z.ltb_spec (k (self w)) 0); [lia|].
  unfold lift, attr. rewrite Hc, Hb. reflexivity.
Qed.

Lemma grid_search_cons (UU : matrix) (d : nat) (lam : R) (grid : list R)
  (w : world) (e : vec) (fs : list func) (fvals : list R) :
  extrapolate solve UU d lam w = (Ok e, w) ->
  functions (self w) = Some fs ->
  grid_search solve UU d grid w = (Ok fvals, w) ->
  grid_search solve UU d (lam :: grid) w = (Ok (sum_eval fs e :: fvals), w).
Proof.
  intros He Hf Hg. simpl. unfold bind, attr. rewrite He, Hf, Hg.
  reflexivity.
Qed.

(** The guard fires: the solver's point is kept. *)
Lemma choose_fallback (solver_sol : vec) (objective : list (list R))
  (UU : matrix) (w : world) (grid fvals last : list R) (m : R) :
  (0 <= k (self w))%Z ->
  _lambda_ (self w) = Some grid ->
  grid_search solve UU (List.length solver_sol) grid w = (Ok fvals, w) ->
  forcedecrease (self w) = true ->
  min fvals = Ok m ->
  index objective (-1) = Ok last ->
  m > Rsum last ->
  choose solver_sol objective UU w = (Ok solver_sol, w).
Proof.
  intros Hk Hl Hg Hfd Hm Hlast Hgt.
  unfold choose, RNA.choose, bind. rewrite size_k_eq.
  destruct (Z.ltb_spec (k (self w)) 0); [lia|].
  unfold attr. rewrite Hl, Hg.
  unfold bad_extrapolation, bind, gets, lift, ret.
  rewrite Hfd, Hm, Hlast.
  rewrite (proj2 (Rgtb_true _ _) Hgt). reflexivity.
Qed.

(** The guard does not fire: the best extrapolation of the grid. *)
Lemma choose_best (solver_sol : vec) (objective : list (list R))
  (UU : matrix) (w : world) (grid fvals last : list R) (m lam : R) (i : Z)
  (e : vec) :
  (0 <= k (self w))%Z ->
  _lambda_ (self w) = Some grid ->
  grid_search solve UU (List.length solver_sol) grid w = (Ok fvals, w) ->
  min fvals = Ok m ->
  (forcedecrease (self w) = false
   \/ (index objective (-1) = Ok last /\ m <= Rsum last)) ->
  index_of m fvals = Ok i ->
  index grid i = Ok lam ->
  extrapolate solve UU (List.length solver_sol) lam w = (Ok e, w) ->
  choose solver_sol objective UU w = (Ok e, w).
Proof.
  intros Hk Hl Hg Hm Hfd Hi Hlam He.
  unfold choose, RNA.choose, bind. rewrite size_k_eq.
  destruct (Z.ltb_spec (k (self w)) 0); [lia|].
  unfold attr. rewrite Hl, Hg.
  assert (Hbad : bad_extrapolation fvals objective w = (Ok false, w)).
  { unfold bad_extrapolation, bind, gets, lift, ret.
    destruct Hfd as [Hfd | [Hlast Hle]].
    - rewrite Hfd. reflexivity.
    - destruct (forcedecrease (self w)); [|reflexivity].
      rewrite Hm, Hlast. rewrite (proj2 (Rgtb_false _ _) Hle).
      reflexivity. }
  rewrite Hbad.
  unfold best_extrapolation, bind, attr, lift.
  rewrite Hl, Hm, Hi, Hlam. exact He.
Qed.

(** ** The two branches of [_update_sol] *)

(** A call that does not extrapolate appends the solver's point to the
    buffer and returns that point. *)
Lemma update_sol_gathers (solver_sol : vec) (objective : list (list R))
  (niter : Z) (w : world) (b : list vec) :
  (k (self w) + 1 <> 0)%Z ->
  (niter mod (k (self w) + 1) <> 0)%Z ->
  buffer (self w) = Some b ->
  _update_sol solver_sol objective niter w =
  (Ok solver_sol, on_self (set_buffer (b ++ [solver_sol])) w).
Proof.
  intros Hk Hn Hb.
  unfold _update_sol, RNA._update_sol, bind at 1, gets.
  unfold bind at 1, lift, mod_.
  destruct (Z.eqb_spec (k (self w) + 1) 0) as [E|_]; [contradiction|].
  destruct (Z.eqb_spec (niter mod (k (self w) + 1)) 0) as [E|_];
    [contradiction|].
  unfold bind. rewrite buffer_append_eq, Hb. reflexivity.
Qed.

(** A call that extrapolates returns exactly when each of its blocks
    does: append, rebuild the grid, choose, improve, clear. *)
Lemma update_sol_extrapolates (solver_sol : vec)
  (objective : list (list R)) (niter : Z) (w w' : world) (x : vec) :
  (k (self w) + 1 <> 0)%Z ->
  (niter mod (k (self w) + 1) = 0)%Z ->
  _update_sol solver_sol objective niter w = (Ok x, w') <->
  exists b w2 e0 w3,
    buffer (self w) = Some b
    /\ rebuild_grid (normalized_gram (b ++ [solver_sol]))
                    (on_self (set_buffer (b ++ [solver_sol])) w)
       = (Ok tt, w2)
    /\ choose solver_sol objective (normalized_gram (b ++ [solver_sol])) w2
       = (Ok e0, w2)
    /\ improve e0 objective w2 = (Ok x, w3)
    /\ clear w3 = (Ok tt, w').
Proof.
  intros Hk Hn.
  unfold _update_sol, RNA._update_sol, bind at 1, gets.
  unfold bind at 1, lift, mod_.
  destruct (Z.eqb_spec (k (self w) + 1) 0) as [E|_]; [contradiction|].
  rewrite Hn. change (0 =? 0)%Z with true. cbv iota. split.
  - intros H.
    apply bind_Ok in H as ([] & w1 & H1 & H).
    rewrite buffer_append_eq in H1.
    destruct (buffer (self w)) as [b|]; [|discriminate].
    injection H1 as <-.
    apply bind_Ok in H as (b' & w1' & H2 & H).
    unfold attr in H2. simpl in H2. injection H2 as <- <-.
    apply bind_Ok in H as ([] & w2 & H3 & H).
    apply bind_Ok in H as (e0 & w2' & H4 & H).
    pose proof (choose_reads solver_sol objective
                  (normalized_gram (b ++ [solver_sol])) w2) as Hr.
    unfold choose in Hr. rewrite H4 in Hr. simpl in Hr. subst w2'.
    apply bind_Ok in H as (x' & w3 & H5 & H).
    apply bind_Ok in H as ([] & w4 & H6 & H).
    injection H as <- <-.
    exists b, w2, e0, w3. auto.
  - intros (b & w2 & e0 & w3 & Hb & H3 & H4 & H5 & H6).
    rewrite (bind_eq _ _ w (on_self (set_buffer (b ++ [solver_sol])) w) tt)
      by (rewrite buffer_append_eq, Hb; reflexivity).
    rewrite (bind_eq _ _ _ (on_self (set_buffer (b ++ [solver_sol])) w)
               (b ++ [solver_sol])) by reflexivity.
    rewrite (bind_eq _ _ _ w2 tt) by exact H3.
    rewrite (bind_eq _ _ _ w2 e0) by exact H4.
    rewrite (bind_eq _ _ _ w3 x) by exact H5.
    rewrite (bind_eq _ _ _ w' tt) by exact H6.
    reflexivity.
Qed.

Lemma rebuild_grid_Ok (UU : matrix) (w w2 : world) :
  rebuild_grid UU w = (Ok tt, w2) ->
  buffer (self w2) = buffer (self w)
  /\ warnings w2 = warnings w
  /\ same_config w w2.
Proof.
  intros H. pose proof (rebuild_grid_config UU w) as Hc.
  rewrite H in Hc. simpl in Hc. split; [|split]; [| |exact Hc].
  - rewrite rebuild_grid_eq in H.
    destruct (adaptive (self w)); [|now injection H as <-].
    destruct (_lambda_ (self w)); [|discriminate].
    destruct (List.length l <=? 1)%nat; [|now injection H as <-].
    destruct (eigvals UU); [|discriminate]. now injection H as <-.
  - rewrite rebuild_grid_eq in H.
    destruct (adaptive (self w)); [|now injection H as <-].
    destruct (_lambda_ (self w)); [|discriminate].
    destruct (List.length l <=? 1)%nat; [|now injection H as <-].
    destruct (eigvals UU); [|discriminate]. now injection H as <-.
Qed.

Lemma clear_Ok (w w' : world) :
  clear w = (Ok tt, w') ->
  buffer (self w') = Some []
  /\ warnings w' = warnings w
  /\ (adaptive (self w) = true -> _lambda_ (self w') = Some []).
Proof.
  rewrite clear_eq. simpl.
  destruct (adaptive (self w)).
  - intros H. injection H as <-. auto.
  - destruct (_lambda_ (self w)); [|discriminate].
    intros H. injection H as <-. repeat split. discriminate.
Qed.

(** ** Runs *)

Lemma run_snoc (calls : list (vec * list (list R)))
  (c : vec * list (list R)) (niter : Z) (w w' : world) (outs : list vec) :
  run (calls ++ [c]) niter w = (Ok outs, w') ->
  exists outs0 w0 x,
    run calls niter w = (Ok outs0, w0)
    /\ _update_sol (fst c) (snd c)
         (niter + Z.of_nat (List.length calls)) w0 = (Ok x, w')
    /\ outs = outs0 ++ [x].
Proof.
  revert niter w outs.
  induction calls as [|[x1 o1] calls IH]; intros niter w outs H.
  - destruct c as [xc oc]. simpl in H.
    apply bind_Ok in H as (x & w1 & H1 & H).
    injection H as <- <-.
    exists [], w, x. simpl. rewrite Z.add_0_r. auto.
  - simpl in H.
    apply bind_Ok in H as (y & w1 & H1 & H).
    apply bind_Ok in H as (ys & w2 & H2 & H).
    injection H as <- <-.
    apply IH in H2 as (outs0 & w0 & x & Hr & Hu & ->).
    exists (y :: outs0), w0, x. split; [|split].
    + simpl. fold run.
      rewrite (bind_eq _ _ w w1 y) by exact H1.
      rewrite (bind_eq _ _ w1 w0 outs0) by exact Hr.
      reflexivity.
    + replace (niter + Z.of_nat (List.length ((x1, o1) :: calls)))%Z
        with (niter + 1 + Z.of_nat (List.length calls))%Z
        by (simpl List.length; lia).
      exact Hu.
    + reflexivity.
Qed.

Lemma mod_succ (n p : Z) :
  (0 < p)%Z -> ((n + 1) mod p <> 0)%Z -> (n mod p + 1 = (n + 1) mod p)%Z.
Proof.
  intros Hp Hn.
  pose proof (Z.div_mod n p ltac:(lia)) as E1.
  pose proof (Z.mod_pos_bound n p Hp) as B1.
  destruct (Z.eq_dec (n mod p + 1) p) as [E|E].
  - exfalso. apply Hn.
    replace (n + 1)%Z with ((n / p + 1) * p)%Z by lia.
    apply Z.mod_mul. lia.
  - apply (Z.mod_unique _ _ (n / p)); lia.
Qed.

Lemma run_cons (calls : list (vec * list (list R))) (x : vec)
  (o : list (list R)) (niter : Z) (w w1 w2 : world) (y : vec)
  (ys : list vec) :
  _update_sol x o niter w = (Ok y, w1) ->
  run calls (niter + 1) w1 = (Ok ys, w2) ->
  run ((x, o) :: calls) niter w = (Ok (y :: ys), w2).
Proof.
  intros H1 H2. simpl. fold run.
  rewrite (bind_eq _ _ w w1 y) by exact H1.
  rewrite (bind_eq _ _ w1 w2 ys) by exact H2.
  reflexivity.
Qed.

(** After [n] calls the buffer holds [n mod (k+1)] points. *)
Lemma run_buffer (calls : list (vec * list (list R))) (w w' : world)
  (outs : list vec) :
  (0 < k (self w))%Z ->
  buffer (self w) = Some [] ->
  run calls 1 w = (Ok outs, w') ->
  exists b, buffer (self w') = Some b
    /\ Z.of_nat (List.length b)
       = (Z.of_nat (List.length calls) mod (k (self w) + 1))%Z.
Proof.
  intros Hk Hb. revert w' outs.
  induction calls as [|c calls IH] using rev_ind; intros w' outs H.
  - injection H as <- <-. exists []. split; [exact Hb|].
    simpl. rewrite Z.mod_0_l by lia. reflexivity.
  - apply run_snoc in H as (outs0 & w0 & x & Hr & Hu & ->).
    destruct (IH _ _ Hr) as (b0 & Hb0 & Hlen).
    pose proof (run_config calls 1 w) as Hc.
    rewrite Hr in Hc. destruct Hc as (Hk0 & _). simpl in Hk0.
    rewrite length_app. simpl List.length.
    replace (Z.of_nat (List.length calls + 1))
      with (1 + Z.of_nat (List.length calls))%Z by lia.
    destruct (Z.eq_dec ((1 + Z.of_nat (List.length calls))
                        mod (k (self w) + 1)) 0) as [E|E].
    + apply update_sol_extrapolates in Hu; [|lia|rewrite Hk0; exact E].
      destruct Hu as (b & w2 & e0 & w3 & _ & _ & _ & _ & Hclear).
      apply clear_Ok in Hclear as (Hbuf & _).
      exists []. split; [exact Hbuf|]. rewrite E. reflexivity.
    + rewrite (update_sol_gathers _ _ _ _ b0) in Hu;
        [|lia|rewrite Hk0; exact E|exact Hb0].
      injection Hu as _ <-. exists (b0 ++ [fst c]). split; [reflexivity|].
      rewrite length_app. simpl List.length.
      rewrite Nat2Z.inj_add, Hlen. simpl Z.of_nat.
      rewrite (Z.add_comm 1).
      apply mod_succ; [lia|]. rewrite Z.add_comm. exact E.
Qed.

(** C2. A run of [_update_sol] calls with iteration indices 1, 2, 3, ...
    on a scheme fresh from [pre], with [k] positive, seen at its last
    call, of index [n]: before it the buffer holds [(n - 1) mod (k + 1)]
    points, one for each call since the last reset.  If [n] is a
    multiple of [k + 1] the call goes through the extrapolation (rebuild
    the grid, choose, improve, clear) and leaves the buffer empty;
    otherwise it appends the solver's point to the buffer, changes
    nothing else and returns that point. *)
Theorem rna_buffer_cycle (calls : list (vec * list (list R)))
  (c : vec * list (list R)) (w w' : world) (outs : list vec) :
  (0 < k (self w))%Z ->
  buffer (self w) = Some [] ->
  run (calls ++ [c]) 1 w = (Ok outs, w') ->
  let n := (Z.of_nat (List.length calls) + 1)%Z in
  let p := (k (self w) + 1)%Z in
  exists outs0 w0 b0 x,
    run calls 1 w = (Ok outs0, w0)
    /\ outs = outs0 ++ [x]
    /\ buffer (self w0) = Some b0
    /\ Z.of_nat (List.length b0) = ((n - 1) mod p)%Z
    /\ if (n mod p =? 0)%Z
       then buffer (self w') = Some []
            /\ exists w2 e0 w3,
                 rebuild_grid (normalized_gram (b0 ++ [fst c]))
                   (on_self (set_buffer (b0 ++ [fst c])) w0) = (Ok tt, w2)
                 /\ choose (fst c) (snd c)
                      (normalized_gram (b0 ++ [fst c])) w2 = (Ok e0, w2)
                 /\ improve e0 (snd c) w2 = (Ok x, w3)
                 /\ clear w3 = (Ok tt, w')
       else x = fst c
            /\ w' = on_self (set_buffer (b0 ++ [fst c])) w0.
Proof.
  intros Hk Hb H n p.
  apply run_snoc in H as (outs0 & w0 & x & Hr & Hu & ->).
  destruct (run_buffer calls w w0 outs0 Hk Hb Hr) as (b0 & Hb0 & Hlen).
  pose proof (run_config calls 1 w) as Hc.
  rewrite Hr in Hc. destruct Hc as (Hk0 & _). simpl in Hk0.
  exists outs0, w0, b0, x.
  split; [exact Hr|]. split; [reflexivity|]. split; [exact Hb0|].
  split; [unfold n, p; rewrite Hlen; f_equal; lia|].
  replace (1 + Z.of_nat (List.length calls))%Z with n in Hu
    by (unfold n; lia).
  destruct (Z.eqb_spec (n mod p) 0) as [E|E].
  - apply update_sol_extrapolates in Hu;
      [|lia|rewrite Hk0; exact E].
    destruct Hu as (b & w2 & e0 & w3 & Hb1 & H1 & H2 & H3 & H4).
    rewrite Hb0 in Hb1. injection Hb1 as <-.
    split; [apply (clear_Ok _ _ H4)|].
    exists w2, e0, w3. auto.
  - rewrite (update_sol_gathers _ _ _ _ b0) in Hu;
      [|lia|rewrite Hk0; exact E|exact Hb0].
    injection Hu as <- <-. auto.
Qed.

(** ** The line search *)

Lemma choose_Ok_grid (solver_sol : vec) (objective : list (list R))
  (UU : matrix) (w w' : world) (e0 : vec) :
  choose solver_sol objective UU w = (Ok e0, w') ->
  exists grid, _lambda_ (self w) = Some grid.
Proof.
  unfold choose, RNA.choose. intros H.
  apply bind_Ok in H as (n & w1 & H1 & H).
  pose proof (size_k_reads w) as Hr. rewrite H1 in Hr. simpl in Hr.
  subst w1.
  apply bind_Ok in H as (grid & w1 & H2 & _).
  unfold attr in H2. destruct (_lambda_ (self w)) as [g|]; [|discriminate].
  now exists g.
Qed.

(** What the line search does to the result of an extrapolating call. *)
Lemma update_sol_line_search (solver_sol : vec)
  (objective : list (list R)) (niter : Z) (w w2 : world) (b : list vec)
  (e0 xk : vec) (old : list R) (fs : list func) :
  (0 < k (self w))%Z ->
  (niter mod (k (self w) + 1) = 0)%Z ->
  dolinesearch (self w) = true ->
  buffer (self w) = Some b ->
  functions (self w) = Some fs ->
  index (b ++ [solver_sol]) 0 = Ok xk ->
  index objective (- k (self w)) = Ok old ->
  rebuild_grid (normalized_gram (b ++ [solver_sol]))
    (on_self (set_buffer (b ++ [solver_sol])) w) = (Ok tt, w2) ->
  choose solver_sol objective (normalized_gram (b ++ [solver_sol])) w2
    = (Ok e0, w2) ->
  exists w',
    match line_search_armijo (sum_eval fs) xk (vsub e0 xk) (vsub e0 xk)
            (Rsum old) 1e-4 1 with
    | None =>
        _update_sol solver_sol objective niter w = (Ok e0, w')
        /\ warnings w' =
           warnings w ++ ["Line search failed to find good step size"%string]
    | Some a =>
        _update_sol solver_sol objective niter w
          = (Ok (vadd xk (vscale a (vsub e0 xk))), w')
        /\ warnings w' = warnings w
    end.
Proof.
  intros Hk Hn Hdl Hb Hfs Hxk Hold H1 H2.
  destruct (rebuild_grid_Ok _ _ _ H1)
    as (Hb2 & Hw2 & (Hk2 & Ha2 & Hdl2 & _ & Hf2 & _)).
  simpl in Hb2, Hw2, Hk2, Ha2, Hdl2, Hf2.
  destruct (choose_Ok_grid _ _ _ _ _ _ H2) as (grid & Hgrid).
  assert (Hls : improve e0 objective w2 =
                line_search line_search_armijo e0 objective w2).
  { unfold improve, RNA.improve, bind, gets. rewrite Hdl2, Hdl.
    reflexivity. }
  rewrite (line_search_eq e0 objective w2 (b ++ [solver_sol]) xk old fs)
    in Hls; [|exact Hb2|exact Hxk|rewrite Hk2; exact Hold
             |rewrite Hf2; exact Hfs].
  destruct (line_search_armijo _ _ _ _ _ _ _) as [a|].
  - destruct (clear w2) as [[[]|e] w'] eqn:Hc.
    + exists w'. split.
      * apply update_sol_extrapolates; [lia|exact Hn|].
        exists b, w2, e0, w2. auto.
      * apply clear_Ok in Hc as (_ & Hw & _). congruence.
    + exfalso. rewrite clear_eq in Hc. simpl in Hc.
      destruct (adaptive (self w2)); [discriminate|].
      rewrite Hgrid in Hc. discriminate.
  - match type of Hls with _ = (_, ?w3) => set (w3' := w3) in * end.
    destruct (clear w3') as [[[]|e] w'] eqn:Hc.
    + exists w'. split.
      * apply update_sol_extrapolates; [lia|exact Hn|].
        exists b, w2, e0, w3'. auto.
      * apply clear_Ok in Hc as (_ & Hw & _). rewrite Hw. unfold w3'.
        simpl. rewrite Hw2. reflexivity.
    + exfalso. rewrite clear_eq in Hc. unfold w3' in Hc. simpl in Hc.
      destruct (adaptive (self w2)); [discriminate|].
      rewrite Hgrid in Hc. discriminate.
Qed.

(** C9. An extrapolating call with [dolinesearch] on, whose grid search
    and guard have produced the extrapolation [e0]: when the Armijo
    search returns no step, [_update_sol] records the warning and returns
    [e0] itself, it does not raise; when the search returns the step [a],
    [_update_sol] returns [xk + a (e0 - xk)], with [xk] the first point of
    the buffer, and warns of nothing. *)
Theorem rna_line_search_outcome (solver_sol : vec)
  (objective : list (list R)) (niter : Z) (w w2 : world) (b : list vec)
  (e0 xk : vec) (old : list R) (fs : list func) :
  (0 < k (self w))%Z ->
  (niter mod (k (self w) + 1) = 0)%Z ->
  dolinesearch (self w) = true ->
  buffer (self w) = Some b ->
  functions (self w) = Some fs ->
  index (b ++ [solver_sol]) 0 = Ok xk ->
  index objective (- k (self w)) = Ok old ->
  rebuild_grid (normalized_gram (b ++ [solver_sol]))
    (on_self (set_buffer (b ++ [solver_sol])) w) = (Ok tt, w2) ->
  choose solver_sol objective (normalized_gram (b ++ [solver_sol])) w2
    = (Ok e0, w2) ->
  exists w',
    match line_search_armijo (sum_eval fs) xk (vsub e0 xk) (vsub e0 xk)
            (Rsum old) 1e-4 1 with
    | None =>
        _update_sol solver_sol objective niter w = (Ok e0, w')
        /\ warnings w' =
           warnings w ++ ["Line search failed to find good step size"%string]
    | Some a =>
        _update_sol solver_sol objective niter w
          = (Ok (vadd xk (vscale a (vsub e0 xk))), w')
        /\ warnings w' = warnings w
    end.
Proof.
  intros Hk Hn Hdl Hb Hfs Hxk Hold H1 H2.
  exact (update_sol_line_search solver_sol objective niter w w2 b e0 xk
           old fs Hk Hn Hdl Hb Hfs Hxk Hold H1 H2).
Qed.

(** ** The grid across cycles *)

(** An adaptive scheme leaves an extrapolating call with an empty
    grid. *)
Lemma update_sol_clears_grid (solver_sol : vec) (objective : list (list R))
  (niter : Z) (w w' : world) (x : vec) :
  (k (self w) + 1 <> 0)%Z ->
  (niter mod (k (self w) + 1) = 0)%Z ->
  adaptive (self w) = true ->
  _update_sol solver_sol objective niter w = (Ok x, w') ->
  _lambda_ (self w') = Some [].
Proof.
  intros Hk Hn Ha H.
  apply update_sol_extrapolates in H; [|exact Hk|exact Hn].
  destruct H as (b & w2 & e0 & w3 & _ & H1 & _ & H3 & H4).
  apply rebuild_grid_Ok in H1 as (_ & _ & (_ & Ha2 & _)).
  pose proof (improve_config e0 objective w2) as Hc.
  rewrite H3 in Hc. destruct Hc as (_ & Ha3 & _).
  simpl in Ha2, Ha3.
  apply (clear_Ok _ _ H4). congruence.
Qed.

(** In a run of an adaptive scheme the configured grid lasts until the
    first extrapolation and is empty between calls from then on. *)
Lemma run_grid (calls : list (vec * list (list R))) (w w' : world)
  (outs : list vec) :
  (0 < k (self w))%Z ->
  buffer (self w) = Some [] ->
  adaptive (self w) = true ->
  run calls 1 w = (Ok outs, w') ->
  _lambda_ (self w') =
  if (Z.of_nat (List.length calls) <? k (self w) + 1)%Z
  then _lambda_ (self w) else Some [].
Proof.
  intros Hk Hb Ha. revert w' outs.
  induction calls as [|c calls IH] using rev_ind; intros w' outs H.
  - injection H as <- <-. simpl.
    destruct (Z.ltb_spec 0 (k (self w) + 1)); [reflexivity | lia].
  - apply run_snoc in H as (outs0 & w0 & x & Hr & Hu & ->).
    specialize (IH _ _ Hr).
    destruct (run_buffer calls w w0 outs0 Hk Hb Hr) as (b0 & Hb0 & _).
    pose proof (run_config calls 1 w) as Hc.
    rewrite Hr in Hc. destruct Hc as (Hk0 & Ha0 & _).
    simpl in Hk0, Ha0.
    rewrite length_app. simpl List.length.
    set (n0 := Z.of_nat (List.length calls)) in *.
    replace (Z.of_nat (List.length calls + 1)) with (1 + n0)%Z
      by (unfold n0; lia).
    assert (Hn0 : (0 <= n0)%Z) by (unfold n0; lia).
    destruct (Z.eq_dec ((1 + n0) mod (k (self w) + 1)) 0) as [E|E].
    + assert (Hk1 : (k (self w0) + 1 <> 0)%Z) by lia.
      assert (Hn1 : ((1 + n0) mod (k (self w0) + 1) = 0)%Z)
        by (rewrite Hk0; exact E).
      assert (Ha1 : adaptive (self w0) = true) by congruence.
      rewrite (update_sol_clears_grid _ _ _ _ _ _ Hk1 Hn1 Ha1 Hu).
      destruct (Z.ltb_spec (1 + n0) (k (self w) + 1)) as [Hlt|_];
        [|reflexivity].
      rewrite Z.mod_small in E by lia. lia.
    + rewrite (update_sol_gathers _ _ _ _ b0) in Hu;
        [|lia|rewrite Hk0; exact E|exact Hb0].
      injection Hu as _ <-.
      change (_lambda_ (self (on_self (set_buffer (b0 ++ [fst c])) w0)))
        with (_lambda_ (self w0)).
      rewrite IH.
      destruct (Z.ltb_spec n0 (k (self w) + 1)) as [H1|H1];
        destruct (Z.ltb_spec (1 + n0) (k (self w) + 1)) as [H2|H2];
        try reflexivity; try (exfalso; lia).
      exfalso. apply E.
      replace (1 + n0)%Z with (k (self w) + 1)%Z by lia.
      apply Z.mod_same. lia.
Qed.

(** C3. A run of calls with indices 1, 2, 3, ... on a scheme fresh from
    [pre], with [k] positive.  When the scheme is not adaptive the grid
    is the configured one after the run.  When it is adaptive: once
    [k + 1] calls or more have been made the grid is empty after the run;
    and if the last call extrapolates, the grid it searches is either the
    configured grid, which happens only in the first cycle and only when
    that grid has more than one entry, or the grid assembled from the
    eigenvalues of the normalized Gram matrix (sorted absolute values,
    logarithms, means of neighbours, exponentials, with 0 in front). *)
Theorem rna_adaptive_grid_cycle (calls : list (vec * list (list R)))
  (c : vec * list (list R)) (w w' : world) (outs : list vec) :
  (0 < k (self w))%Z ->
  buffer (self w) = Some [] ->
  run (calls ++ [c]) 1 w = (Ok outs, w') ->
  let n := (Z.of_nat (List.length calls) + 1)%Z in
  let p := (k (self w) + 1)%Z in
  (adaptive (self w) = false -> _lambda_ (self w') = _lambda_ (self w))
  /\ (adaptive (self w) = true -> (p <= n)%Z -> _lambda_ (self w') = Some [])
  /\ (adaptive (self w) = true -> (n mod p = 0)%Z ->
      exists outs0 w0 b0 w2 e0,
        run calls 1 w = (Ok outs0, w0)
        /\ buffer (self w0) = Some b0
        /\ rebuild_grid (normalized_gram (b0 ++ [fst c]))
             (on_self (set_buffer (b0 ++ [fst c])) w0) = (Ok tt, w2)
        /\ choose (fst c) (snd c) (normalized_gram (b0 ++ [fst c])) w2
           = (Ok e0, w2)
        /\ ((n = p
             /\ exists grid, _lambda_ (self w) = Some grid
                  /\ (1 < List.length grid)%nat
                  /\ _lambda_ (self w2) = Some grid)
            \/ (exists ev,
                  eigvals (normalized_gram (b0 ++ [fst c])) = Ok ev
                  /\ _lambda_ (self w2) =
                     Some (0 :: map exp (pair_avg
                                  (map ln (sort (map Rabs ev)))))))).
Proof.
  intros Hk Hb H n p. split; [|split].
  - intros Ha. pose proof (run_config (calls ++ [c]) 1 w) as Hc.
    rewrite H in Hc. apply Hc. exact Ha.
  - intros Ha Hn.
    rewrite (run_grid _ _ _ _ Hk Hb Ha H).
    rewrite length_app. simpl List.length.
    destruct (Z.ltb_spec (Z.of_nat (List.length calls + 1))
                (k (self w) + 1)); [|reflexivity].
    unfold n, p in Hn. lia.
  - intros Ha Hn.
    apply run_snoc in H as (outs0 & w0 & x & Hr & Hu & ->).
    pose proof (run_grid _ _ _ _ Hk Hb Ha Hr) as Hg.
    pose proof (run_config calls 1 w) as Hc.
    rewrite Hr in Hc. destruct Hc as (Hk0 & Ha0 & _).
    simpl in Hk0, Ha0.
    replace (1 + Z.of_nat (List.length calls))%Z with n in Hu
      by (unfold n; lia).
    apply update_sol_extrapolates in Hu; [|lia|rewrite Hk0; exact Hn].
    destruct Hu as (b0 & w2 & e0 & w3 & Hb0 & H1 & H2 & _ & _).
    exists outs0, w0, b0, w2, e0.
    split; [exact Hr|]. split; [exact Hb0|]. split; [exact H1|].
    split; [exact H2|].
    rewrite rebuild_grid_eq in H1. simpl in H1.
    rewrite Ha0, Ha, Hg in H1.
    destruct (Z.ltb_spec (Z.of_nat (List.length calls)) (k (self w) + 1))
      as [Hlt|Hge].
    + destruct (_lambda_ (self w)) as [grid|] eqn:Hgrid; [|discriminate].
      destruct (Nat.leb_spec (List.length grid) 1) as [Hle|Hgt].
      * right.
        destruct (eigvals (normalized_gram (b0 ++ [fst c]))) as [ev|];
          [|discriminate].
        exists ev. split; [reflexivity|]. injection H1 as <-. reflexivity.
      * left. split.
        -- destruct (Z.eq_dec n p) as [E|E]; [exact E|].
           unfold p in Hn. rewrite Z.mod_small in Hn; unfold n in *; lia.
        -- exists grid. split; [reflexivity|]. split; [exact Hgt|].
           injection H1 as <-. simpl. exact Hg.
    + right. simpl in H1.
      destruct (eigvals (normalized_gram (b0 ++ [fst c]))) as [ev|];
        [|discriminate].
      exists ev. split; [reflexivity|]. injection H1 as <-. reflexivity.
Qed.

End RNABlocks.

(* ------------------------------------------------------------------ *)
(** * regularized_nonlinear on concrete runs                           *)
(* ------------------------------------------------------------------ *)

Section RNARuns.

Import RNA.

(** ** One cycle of the default scheme, [k = 1] *)

Lemma cycle_gram : normalized_gram [[0]; [2]] = [[1]].
Proof.
  unfold normalized_gram, gram, norm, mdiv, diff, vsub, dot, sqnorm.
  simpl.
  replace (sqrt _) with 4 by (symmetry; apply sqrt_lem_1; lra).
  entries. lra.
Qed.

Lemma cycle_coefficients : coefficients solve_cramer [[1]] 0 1 = Ok [1].
Proof.
  unfold coefficients, solve_cramer, madd, mscale, eye, ones, vadd, vscale.
  simpl.
  destruct (Req_dec_T _ _) as [E|E]; [exfalso; lra|].
  simpl. entries. field.
Qed.

Lemma cycle_rebuild :
  rebuild_grid float_of_char eigvals_diag (normalized_gram [[0]; [2]])
    (on_self (set_buffer [[0]; [2]]) cycle_w1) = (Ok tt, cycle_w2).
Proof.
  rewrite rebuild_grid_eq, cycle_gram. reflexivity.
Qed.

Lemma cycle_choose :
  choose solve_cramer [2] [[16]; [4]] (normalized_gram [[0]; [2]]) cycle_w2
  = (Ok [2], cycle_w2).
Proof.
  rewrite cycle_gram.
  apply (choose_fallback solve_cramer [2] [[16]; [4]] [[1]] cycle_w2 [0]
           [sum_eval [quadratic [4]] (combination 1 [1] [[0]])] [4]
           (sum_eval [quadratic [4]] (combination 1 [1] [[0]])));
    try reflexivity.
  - vm_compute. discriminate.
  - apply grid_search_cons; try reflexivity.
    apply (extrapolate_eq solve_cramer [[1]] 1 0 cycle_w2 [[0]; [2]] [1]);
      try reflexivity.
    + vm_compute. discriminate.
    + exact cycle_coefficients.
  - unfold sum_eval, combination, vadd, vscale, zeros. simpl.
    unfold sqnorm, vsub. simpl. lra.
Qed.

Lemma cycle_armijo :
  armijo (sum_eval [quadratic [4]]) [0] (vsub [2] [0]) (vsub [2] [0])
         (Rsum [4]) 1e-4 1 = Some 1.
Proof.
  unfold armijo, sum_eval, Rleb, dot, vsub, vadd, vscale. simpl.
  unfold sqnorm, vsub. simpl.
  destruct (Rle_dec _ _) as [H|H]; [reflexivity | exfalso; apply H; lra].
Qed.

Lemma cycle_improve :
  improve armijo [2] [[16]; [4]] cycle_w2 = (Ok [2], cycle_w2).
Proof.
  unfold improve, bind, gets. simpl.
  rewrite (line_search_eq armijo [2] [[16]; [4]] cycle_w2 [[0]; [2]] [0]
             [4] [quadratic [4]]); try reflexivity.
  rewrite cycle_armijo. unfold vadd, vscale, vsub. simpl.
  entries. lra.
Qed.

Lemma cycle_run :
  run float_of_char solve_cramer eigvals_diag armijo cycle_calls 1 cycle_w0
  = (Ok [[0]; [2]], cycle_w3).
Proof.
  apply (run_cons _ _ _ _ _ _ _ _ cycle_w0 cycle_w1 cycle_w3).
  - apply (update_sol_gathers _ _ _ _ _ _ _ _ []); try reflexivity;
      vm_compute; discriminate.
  - apply (run_cons _ _ _ _ _ _ _ _ cycle_w1 cycle_w3 cycle_w3);
      [|reflexivity].
    apply update_sol_extrapolates;
      [vm_compute; discriminate | reflexivity |].
    exists [[0]], cycle_w2, [2], cycle_w2.
    split; [reflexivity|]. split; [exact cycle_rebuild|].
    split; [exact cycle_choose|]. split; [exact cycle_improve|].
    rewrite clear_eq. reflexivity.
Qed.


Lemma overshoot_gram :
  normalized_gram [[0]; [3]; [6]] = [[1/2; 1/2]; [1/2; 1/2]].
Proof.
  unfold normalized_gram, gram, norm, mdiv, diff, vsub, dot, sqnorm.
  simpl.
  replace (sqrt _) with 18 by (symmetry; apply sqrt_lem_1; lra).
  entries; lra.
Qed.

Lemma overshoot_coefficients :
  coefficients solve_cramer [[1/2; 1/2]; [1/2; 1/2]] 1 2 = Ok [1/2; 1/2].
Proof.
  unfold coefficients, solve_cramer, madd, mscale, eye, ones, vadd, vscale.
  simpl.
  destruct (Req_dec_T _ _) as [E|E]; [exfalso; lra|].
  simpl. entries; field.
Qed.

Lemma overshoot_grid_search :
  grid_search solve_cramer [[1/2; 1/2]; [1/2; 1/2]] 1 [1] overshoot_w2
  = (Ok [sum_eval [quadratic [4]] (combination 1 [1/2; 1/2] [[0]; [3]])],
     overshoot_w2).
Proof.
  apply grid_search_cons; try reflexivity.
  apply (extrapolate_eq solve_cramer _ 1 1 overshoot_w2 [[0]; [3]; [6]]
           [1/2; 1/2]); try reflexivity.
  - vm_compute. discriminate.
  - exact overshoot_coefficients.
Qed.

Lemma overshoot_candidate :
  sum_eval [quadratic [4]] (combination 1 [1/2; 1/2] [[0]; [3]]) = 25/4.
Proof.
  unfold sum_eval, combination, vadd, vscale, zeros. simpl.
  unfold sqnorm, vsub. simpl. field.
Qed.

Lemma overshoot_choose :
  choose solve_cramer [6] [[16]; [1]; [4]] (normalized_gram [[0]; [3]; [6]])
         overshoot_w2 = (Ok [6], overshoot_w2).
Proof.
  rewrite overshoot_gram.
  apply (choose_fallback solve_cramer [6] [[16]; [1]; [4]] _ overshoot_w2
           [1] _ [4] _ ltac:(vm_compute; discriminate) eq_refl
           overshoot_grid_search eq_refl eq_refl eq_refl).
  rewrite overshoot_candidate. simpl. lra.
Qed.

Lemma overshoot_armijo :
  armijo (sum_eval [quadratic [4]]) [0] (vsub [6] [0]) (vsub [6] [0])
         (Rsum [1]) 1e-4 1 = Some (6/11).
Proof.
  unfold armijo, sum_eval, Rleb, dot, vsub, vadd, vscale. simpl.
  unfold sqnorm, vsub. simpl.
  destruct (Rle_dec _ _) as [H|H]; [exfalso; lra|].
  match goal with
  | |- (if _ then Some ?a else None) = _ =>
      replace a with (6/11) by (field; lra)
  end.
  destruct (Rle_dec _ _) as [H1|H1]; [reflexivity | exfalso; apply H1; lra].
Qed.

Lemma overshoot_improve :
  improve armijo [6] [[16]; [1]; [4]] overshoot_w2
  = (Ok [36/11], overshoot_w2).
Proof.
  unfold improve, bind, gets. simpl.
  rewrite (line_search_eq armijo [6] [[16]; [1]; [4]] overshoot_w2
             [[0]; [3]; [6]] [0] [1] [quadratic [4]]); try reflexivity.
  rewrite overshoot_armijo. unfold vadd, vscale, vsub. simpl.
  entries. field.
Qed.

Lemma overshoot_run :
  run float_of_char solve_cramer eigvals_diag armijo overshoot_calls 1
      overshoot_w0
  = (Ok [[0]; [3]; [36/11]], overshoot_w3).
Proof.
  apply (run_cons _ _ _ _ _ _ _ _ overshoot_w0
           (on_self (set_buffer [[0]]) overshoot_w0) overshoot_w3).
  { apply (update_sol_gathers _ _ _ _ _ _ _ _ []); try reflexivity;
      vm_compute; discriminate. }
  apply (run_cons _ _ _ _ _ _ _ _ _
           (on_self (set_buffer [[0]; [3]]) overshoot_w0) overshoot_w3).
  { rewrite (update_sol_gathers _ _ _ _ _ _ _ _ [[0]]);
      [reflexivity | vm_compute; discriminate | vm_compute; discriminate
      | reflexivity]. }
  apply (run_cons _ _ _ _ _ _ _ _ _ overshoot_w3 overshoot_w3);
    [|reflexivity].
  apply update_sol_extrapolates;
    [vm_compute; discriminate | reflexivity |].
  exists [[0]; [3]], overshoot_w2, [6], overshoot_w2.
  split; [reflexivity|]. split; [rewrite rebuild_grid_eq; reflexivity|].
  split; [exact overshoot_choose|]. split; [exact overshoot_improve|].
  rewrite clear_eq. reflexivity.
Qed.

(** C1. The scheme [regularized_nonlinear(k=2, lambda_=1.,
    adaptive=False)], line search and force-decrease on, on the objective
    [||x - 4||^2], with the solver at [0], [3] and then [6].  In the third
    call the only candidate of the grid is worse than the last objective
    value, the guard keeps the solver's point [6], and yet the call
    returns [36/11]: the line search runs on the fallback too. *)
Theorem rna_fallback_altered_by_line_search :
  forcedecrease (self overshoot_w0) = true
  /\ dolinesearch (self overshoot_w0) = true
  /\ (exists fvals,
        grid_search solve_cramer (normalized_gram [[0]; [3]; [6]]) 1 [1]
                    overshoot_w2 = (Ok fvals, overshoot_w2)
        /\ Forall (fun v => v > Rsum [4]) fvals)
  /\ choose solve_cramer [6] [[16]; [1]; [4]]
            (normalized_gram [[0]; [3]; [6]]) overshoot_w2
     = (Ok [6], overshoot_w2)
  /\ run float_of_char solve_cramer eigvals_diag armijo overshoot_calls 1
         overshoot_w0
     = (Ok [[0]; [3]; [36/11]], overshoot_w3)
  /\ [36/11] <> [6].
Proof.
  split; [reflexivity|]. split; [reflexivity|]. split; [|split; [|split]].
  - eexists. split.
    + rewrite overshoot_gram. exact overshoot_grid_search.
    + constructor; [|constructor]. rewrite overshoot_candidate. simpl. lra.
  - exact overshoot_choose.
  - exact overshoot_run.
  - intros H. injection H as H. lra.
Qed.

Lemma rna_buffer_cycle_witness :
  exists outs0 w0 b0 x,
    run float_of_char solve_cramer eigvals_diag armijo [([0], [[16]])] 1
        cycle_w0 = (Ok outs0, w0)
    /\ [[0]; [2]] = outs0 ++ [x]
    /\ buffer (self w0) = Some b0
    /\ Z.of_nat (List.length b0) = ((1 + 1 - 1) mod (1 + 1))%Z
    /\ buffer (self cycle_w3) = Some [].
Proof.
  destruct (rna_buffer_cycle float_of_char solve_cramer eigvals_diag armijo
              [([0], [[16]])] ([2], [[16]; [4]]) cycle_w0 cycle_w3
              [[0]; [2]] eq_refl eq_refl cycle_run)
    as (outs0 & w0 & b0 & x & Hr & Ho & Hb & Hl & Hc).
  exists outs0, w0, b0, x.
  split; [exact Hr|]. split; [exact Ho|]. split; [exact Hb|].
  split; [exact Hl|]. exact (proj1 Hc).
Defined.

Lemma rna_adaptive_grid_cycle_witness :
  adaptive (self cycle_w0) = true /\ _lambda_ (self cycle_w3) = Some [].
Proof.
  split; [reflexivity|].
  apply (rna_adaptive_grid_cycle float_of_char solve_cramer eigvals_diag
           armijo [([0], [[16]])] ([2], [[16]; [4]]) cycle_w0 cycle_w3
           [[0]; [2]] eq_refl eq_refl cycle_run).
  - reflexivity.
  - vm_compute. discriminate.
Defined.

Lemma rna_line_search_outcome_witness :
  exists w',
    match armijo (sum_eval [quadratic [4]]) [0] (vsub [2] [0])
            (vsub [2] [0]) (Rsum [4]) 1e-4 1 with
    | None =>
        _update_sol float_of_char solve_cramer eigvals_diag armijo
          [2] [[16]; [4]] 2 cycle_w1 = (Ok [2], w')
        /\ warnings w' =
           warnings cycle_w1
           ++ ["Line search failed to find good step size"%string]
    | Some a =>
        _update_sol float_of_char solve_cramer eigvals_diag armijo
          [2] [[16]; [4]] 2 cycle_w1
        = (Ok (vadd [0] (vscale a (vsub [2] [0]))), w')
        /\ warnings w' = warnings cycle_w1
    end.
Proof.
  apply (rna_line_search_outcome float_of_char solve_cramer eigvals_diag
           armijo [2] [[16]; [4]] 2 cycle_w1 cycle_w2 [[0]] [2] [0] [4]
           [quadratic [4]] eq_refl eq_refl eq_refl eq_refl eq_refl eq_refl
           eq_refl cycle_rebuild cycle_choose).
Defined.
End RNARuns.

(* ------------------------------------------------------------------ *)
(** * regularized_nonlinear: the coefficients of the extrapolation     *)
(* ------------------------------------------------------------------ *)

Section Coefficients.

Import RNA.

(** ** Dot products *)

Lemma dot_nil_r (u : vec) : dot u [] = 0.
Proof. destruct u; reflexivity. Qed.

Lemma dot_cons (a b : R) (u v : vec) :
  dot (a :: u) (b :: v) = a * b + dot u v.
Proof. reflexivity. Qed.

Lemma dot_comm (u v : vec) : dot u v = dot v u.
Proof.
  revert v. induction u as [|a u IH]; intros [|b v];
    try reflexivity.
  rewrite !dot_cons, IH. ring.
Qed.

Lemma dot_zeros_r (u : vec) (d : nat) : dot u (zeros d) = 0.
Proof.
  revert d. induction u as [|a u IH]; intros [|d]; try reflexivity.
  change (zeros (S d)) with (0 :: zeros d).
  rewrite dot_cons, IH. ring.
Qed.

Lemma dot_vadd_r (u p q : vec) :
  List.length p = List.length q ->
  dot u (vadd p q) = dot u p + dot u q.
Proof.
  revert p q. induction u as [|a u IH]; intros [|b p] [|c q] H;
    try discriminate; try (unfold dot; simpl; lra).
  change (vadd (b :: p) (c :: q)) with (b + c :: vadd p q).
  rewrite !dot_cons, IH by (simpl in H; lia). ring.
Qed.

Lemma dot_vscale_r (u p : vec) (c : R) :
  dot u (vscale c p) = c * dot u p.
Proof.
  revert p. induction u as [|a u IH]; intros [|b p];
    try (unfold dot; simpl; lra).
  change (vscale c (b :: p)) with (c * b :: vscale c p).
  rewrite !dot_cons, IH. ring.
Qed.

Lemma dot_map_div_r (u p : vec) (c : R) :
  dot u (map (fun t => t / c) p) = dot u p / c.
Proof.
  revert p. induction u as [|a u IH]; intros [|b p];
    try (unfold dot; simpl; lra).
  simpl map. rewrite !dot_cons, IH. unfold Rdiv. ring.
Qed.

Lemma dot_self_nonneg (w : vec) : 0 <= dot w w.
Proof.
  induction w as [|a w IH]; [unfold dot; simpl; lra|].
  rewrite dot_cons. nra.
Qed.

Lemma dot_self_zero (w u : vec) : dot w w = 0 -> dot u w = 0.
Proof.
  revert u. induction w as [|a w IH]; intros u H.
  - apply dot_nil_r.
  - rewrite dot_cons in H. pose proof (dot_self_nonneg w) as Hw.
    assert (Ha : a = 0) by nra.
    assert (Hw0 : dot w w = 0) by nra.
    destruct u as [|b u]; [reflexivity|].
    rewrite dot_cons, (IH u Hw0), Ha. ring.
Qed.

Lemma dot_ones_r (u : vec) : dot u (ones (List.length u)) = Rsum u.
Proof.
  induction u as [|a u IH]; [reflexivity|].
  change (ones (List.length (a :: u))) with (1 :: ones (List.length u)).
  rewrite dot_cons, IH. simpl. ring.
Qed.

Lemma length_zip_with {A B C} (f : A -> B -> C) (l1 : list A)
  (l2 : list B) :
  List.length l1 = List.length l2 ->
  List.length (zip_with f l1 l2) = List.length l1.
Proof.
  revert l2. induction l1 as [|a l1 IH]; intros [|b l2] H;
    try discriminate; [reflexivity|].
  simpl. rewrite IH by (simpl in H; lia). reflexivity.
Qed.

(** ** Combinations of points *)

Lemma length_combination (d : nat) (c : vec) (P : list vec) :
  Forall (fun p => List.length p = d) P ->
  List.length (combination d c P) = d.
Proof.
  intros HP. revert c. induction HP as [|p P Hp HP IH]; intros [|ci c];
    simpl; try apply repeat_length.
  unfold vadd. rewrite length_zip_with; unfold vscale;
    rewrite length_map; [exact Hp | now rewrite IH].
Qed.

(** [<u, sum_i c_i p_i> = sum_i c_i <u, p_i>] *)
Lemma dot_combination (d : nat) (u c : vec) (P : list vec) :
  Forall (fun p => List.length p = d) P ->
  dot u (combination d c P) = dot c (map (fun p => dot u p) P).
Proof.
  intros HP. revert c. induction HP as [|p P Hp HP IH]; intros [|ci c];
    simpl; try (rewrite dot_zeros_r; reflexivity).
  rewrite dot_vadd_r, dot_vscale_r, IH, dot_cons.
  - ring.
  - unfold vscale. rewrite length_map, length_combination; auto.
Qed.

(** [x^T (U U^T) x = ||sum_i x_i u_i||^2] *)
Lemma gram_quadratic (d : nat) (U : matrix) (x : vec) :
  Forall (fun u => List.length u = d) U ->
  dot x (mat_vec (gram U) x)
  = dot (combination d x U) (combination d x U).
Proof.
  intros HU. rewrite (dot_combination d _ x U HU).
  f_equal. unfold mat_vec, gram. rewrite map_map.
  apply map_ext. intros u.
  rewrite (dot_comm _ x), (dot_comm (combination d x U) u).
  rewrite (dot_combination d u x U HU). reflexivity.
Qed.

(** ** The regularized matrix applied to a vector *)

Lemma dot_vadd_l (p q x : vec) :
  List.length p = List.length q ->
  dot (vadd p q) x = dot p x + dot q x.
Proof.
  intros H. rewrite !(dot_comm _ x). now apply dot_vadd_r.
Qed.

Lemma dot_unit_tail (s m n : nat) (x : vec) :
  dot (map (fun j => if Nat.eqb s j then 1 else 0) (seq (S s + m) n)) x = 0.
Proof.
  revert m x. induction n as [|n IH]; intros m x; [reflexivity|].
  destruct x as [|a x]; [apply dot_nil_r|].
  simpl map. rewrite dot_cons.
  replace (S (S (s + m))) with (S s + S m)%nat by lia.
  rewrite IH.
  destruct (Nat.eqb_spec s (S (s + m))); [lia | ring].
Qed.

Lemma mat_vec_eye_from (n s : nat) (x : vec) :
  List.length x = n ->
  map (fun i => dot (map (fun j => if Nat.eqb i j then 1 else 0)
                         (seq s n)) x) (seq s n) = x.
Proof.
  revert s x. induction n as [|n IH]; intros s [|a x] H;
    try discriminate; [reflexivity|].
  simpl seq. simpl map. f_equal.
  - rewrite dot_cons, Nat.eqb_refl.
    pose proof (dot_unit_tail s 0 n x) as Ht.
    rewrite Nat.add_0_r in Ht. simpl in Ht. rewrite Ht. ring.
  - transitivity
      (map (fun i => dot (map (fun j => if Nat.eqb i j then 1 else 0)
                              (seq (S s) n)) x) (seq (S s) n)).
    + apply map_ext_in. intros i Hi. apply in_seq in Hi.
      rewrite dot_cons.
      destruct (Nat.eqb_spec i s); [lia | ring].
    + apply IH. simpl in H. lia.
Qed.

Lemma mat_vec_eye (n : nat) (x : vec) :
  List.length x = n -> mat_vec (eye n) x = x.
Proof.
  intros H. unfold mat_vec, eye. rewrite map_map.
  now apply mat_vec_eye_from.
Qed.

Lemma length_eye_rows (n : nat) :
  Forall (fun r => List.length r = n) (eye n).
Proof.
  unfold eye. apply Forall_forall. intros r Hr.
  apply in_map_iff in Hr as (i & <- & _).
  now rewrite length_map, length_seq.
Qed.

Lemma mat_vec_madd (n : nat) (P Q : matrix) (x : vec) :
  Forall (fun r => List.length r = n) P ->
  Forall (fun r => List.length r = n) Q ->
  mat_vec (madd P Q) x = vadd (mat_vec P x) (mat_vec Q x).
Proof.
  intros HP. revert Q. induction HP as [|p P Hp HP IH]; intros Q HQ.
  - reflexivity.
  - destruct HQ as [|q Q Hq HQ]; [reflexivity|].
    unfold madd, mat_vec, vadd in *. simpl. f_equal.
    + apply dot_vadd_l. congruence.
    + now apply IH.
Qed.

Lemma mat_vec_mdiv (A : matrix) (c : R) (x : vec) :
  mat_vec (mdiv A c) x = map (fun t => t / c) (mat_vec A x).
Proof.
  unfold mat_vec, mdiv. rewrite !map_map. apply map_ext. intros r.
  rewrite (dot_comm _ x), dot_map_div_r, (dot_comm x). reflexivity.
Qed.

Lemma mat_vec_mscale (A : matrix) (c : R) (x : vec) :
  mat_vec (mscale c A) x = vscale c (mat_vec A x).
Proof.
  unfold mat_vec, mscale, vscale. rewrite !map_map. apply map_ext.
  intros r. fold (vscale c r).
  rewrite (dot_comm _ x), dot_vscale_r, (dot_comm x). reflexivity.
Qed.

Lemma length_diff (d : nat) (b : list vec) :
  Forall (fun p => List.length p = d) b ->
  List.length (diff b) = pred (List.length b)
  /\ Forall (fun u => List.length u = d) (diff b).
Proof.
  intros Hb. induction Hb as [|p b Hp Hb IH]; [split; constructor|].
  destruct Hb as [|q b Hq Hb]; [split; constructor|].
  destruct IH as [IH1 IH2]. split.
  - simpl in *. now rewrite IH1.
  - simpl. constructor; [|exact IH2].
    unfold vsub. rewrite length_zip_with; congruence.
Qed.

Lemma length_gram_rows (U : matrix) :
  Forall (fun r => List.length r = List.length U) (gram U).
Proof.
  unfold gram. apply Forall_forall. intros r Hr.
  apply in_map_iff in Hr as (u & <- & _). now rewrite length_map.
Qed.

Lemma Forall_mdiv_rows (n : nat) (A : matrix) (c : R) :
  Forall (fun r => List.length r = n) A ->
  Forall (fun r => List.length r = n) (mdiv A c).
Proof.
  intros H. unfold mdiv. apply Forall_forall. intros r Hr.
  apply in_map_iff in Hr as (u & <- & Hu). rewrite length_map.
  revert u Hu. now apply Forall_forall.
Qed.

Lemma Forall_mscale_rows (n : nat) (A : matrix) (c : R) :
  Forall (fun r => List.length r = n) A ->
  Forall (fun r => List.length r = n) (mscale c A).
Proof.
  intros H. unfold mscale. apply Forall_forall. intros r Hr.
  apply in_map_iff in Hr as (u & <- & Hu). unfold vscale.
  rewrite length_map. revert u Hu. now apply Forall_forall.
Qed.

(** The regularized, normalized Gram matrix applied to [x]. *)
Lemma regularized_gram_apply (d : nat) (b : list vec) (lam : R) (x : vec) :
  Forall (fun p => List.length p = d) b ->
  List.length x = pred (List.length b) ->
  let U := diff b in
  mat_vec (madd (normalized_gram b) (mscale lam (eye (List.length x)))) x
  = vadd (map (fun t => t / norm (gram U)) (mat_vec (gram U) x))
         (vscale lam x).
Proof.
  intros Hb Hx U. destruct (length_diff d b Hb) as [HU1 HU2].
  unfold normalized_gram.
  rewrite (mat_vec_madd (List.length x)).
  - rewrite mat_vec_mdiv, mat_vec_mscale, mat_vec_eye; reflexivity.
  - apply Forall_mdiv_rows. rewrite Hx, <- HU1. apply length_gram_rows.
  - apply Forall_mscale_rows, length_eye_rows.
Qed.

Lemma gram_apply (d : nat) (U : matrix) (x : vec) :
  Forall (fun u => List.length u = d) U ->
  mat_vec (gram U) x = map (fun u => dot u (combination d x U)) U.
Proof.
  intros HU. unfold mat_vec, gram. rewrite map_map. apply map_ext.
  intros u. rewrite (dot_combination d u x U HU). apply dot_comm.
Qed.

(** ** The sum of a solution is positive *)

Lemma Rsum_map_div (x : vec) (s : R) :
  Rsum (map (fun t => t / s) x) = Rsum x / s.
Proof.
  induction x as [|a x IH]; simpl; [unfold Rdiv; ring|].
  rewrite IH. unfold Rdiv. ring.
Qed.

Lemma norm_pos (A : matrix) : norm A <> 0 -> 0 < norm A.
Proof.
  unfold norm. intros H. pose proof (sqrt_pos (Rsum (map sqnorm A))). lra.
Qed.

(** Any solution of [(UU + lambda I) x = 1], with [UU] the normalized
    Gram matrix of the differences of at least two points and
    [lambda >= 0], has a positive sum. *)
Lemma solution_sum_pos (d : nat) (b : list vec) (lam : R) (x : vec) :
  Forall (fun p => List.length p = d) b ->
  (0 < List.length x)%nat ->
  List.length x = pred (List.length b) ->
  norm (gram (diff b)) <> 0 ->
  0 <= lam ->
  mat_vec (madd (normalized_gram b) (mscale lam (eye (List.length x)))) x
    = ones (List.length x) ->
  0 < Rsum x.
Proof.
  intros Hb Hn Hx Hnu Hlam H.
  rewrite (regularized_gram_apply d b lam x Hb Hx) in H.
  destruct (length_diff d b Hb) as [HU1 HU2].
  apply norm_pos in Hnu.
  set (nu := norm (gram (diff b))) in *.
  set (U := diff b) in *.
  set (w := combination d x U).
  assert (Hsum : Rsum x = dot w w / nu + lam * dot x x).
  { rewrite <- dot_ones_r, <- H.
    rewrite dot_vadd_r, dot_map_div_r, dot_vscale_r.
    - rewrite (gram_quadratic d U x HU2). reflexivity.
    - unfold vscale, mat_vec, gram. rewrite !length_map. lia. }
  pose proof (dot_self_nonneg w) as Hw.
  pose proof (dot_self_nonneg x) as Hxx.
  assert (Hq : 0 <= dot w w / nu)
    by (apply Rmult_le_pos; [exact Hw | left; now apply Rinv_0_lt_compat]).
  assert (Hl : 0 <= lam * dot x x) by (now apply Rmult_le_pos).
  destruct (Rle_lt_dec (Rsum x) 0) as [Hle|Hgt]; [exfalso | exact Hgt].
  assert (Hw0 : dot w w = 0).
  { assert (E : dot w w / nu = 0) by lra.
    unfold Rdiv in E. apply Rmult_integral in E as [E|E]; [exact E|].
    pose proof (Rinv_0_lt_compat nu Hnu). lra. }
  assert (Hl0 : lam * dot x x = 0) by lra.
  rewrite (gram_apply d U x HU2) in H. fold w in H.
  destruct x as [|x0 x]; [simpl in Hn; lia|].
  destruct U as [|u0 U']; [simpl in HU1, Hx; lia|].
  simpl in H. unfold vadd in H. simpl in H.
  injection H as H0 _.
  rewrite (dot_self_zero w u0 Hw0) in H0.
  rewrite dot_cons in Hl0. pose proof (dot_self_nonneg x) as Hx'.
  assert (Hlam0 : lam <> 0) by (intros ->; lra).
  apply Rmult_integral in Hl0 as [E|E]; [contradiction|].
  assert (Hx0 : x0 = 0) by nra.
  rewrite Hx0 in H0. unfold Rdiv in H0. lra.
Qed.

(** ** Coordinates of a combination *)

Lemma nth_zeros (j d : nat) : nth j (repeat 0 d) 0 = 0.
Proof.
  revert j. induction d as [|d IH]; intros [|j]; simpl; auto.
Qed.

Lemma nth_vscale (j : nat) (c : R) (p : vec) :
  nth j (vscale c p) 0 = c * nth j p 0.
Proof.
  revert j. induction p as [|a p IH]; intros [|j]; simpl; auto; ring.
Qed.

Lemma nth_vadd (j : nat) (p q : vec) :
  (j < List.length p)%nat -> (j < List.length q)%nat ->
  nth j (vadd p q) 0 = nth j p 0 + nth j q 0.
Proof.
  revert j q. induction p as [|a p IH]; intros j [|b q] Hp Hq;
    simpl in *; try lia.
  destruct j as [|j]; [reflexivity|]. apply IH; lia.
Qed.

Lemma nth_combination (d j : nat) (c : vec) (P : list vec) :
  Forall (fun p => List.length p = d) P ->
  (j < d)%nat ->
  nth j (combination d c P) 0 = dot c (map (fun p => nth j p 0) P).
Proof.
  intros HP Hj. revert c.
  induction HP as [|p P Hp HP IH]; intros [|ci c]; simpl;
    unfold zeros; try (rewrite nth_zeros; reflexivity).
  rewrite nth_vadd, nth_vscale, IH, dot_cons.
  - reflexivity.
  - unfold vscale. rewrite length_map. lia.
  - rewrite length_combination; auto.
Qed.

(** ** The theorem *)


Lemma solve_cramer_spec (A : matrix) (y x : vec) :
  solve_cramer A y = Ok x ->
  mat_vec A x = y /\ List.length x = List.length y.
Proof.
  unfold solve_cramer.
  destruct A as [|[|a [|b [|? ?]]] [|[|c [|d [|? ?]]] [|? ?]]];
    try discriminate;
    destruct y as [|y1 [|y2 [|? ?]]]; try discriminate.
  - destruct (Req_dec_T a 0) as [E|E]; [discriminate|].
    intros H. injection H as <-. split; [|reflexivity].
    unfold mat_vec, dot. simpl. entries. field. exact E.
  - destruct (Req_dec_T (a * d - b * c) 0) as [E|E]; [discriminate|].
    intros H. injection H as <-. split; [|reflexivity].
    unfold mat_vec, dot. simpl. entries; field; exact E.
Qed.


End Coefficients.

(* ------------------------------------------------------------------ *)
(** * fista_backtracking: construction                                 *)
(* ------------------------------------------------------------------ *)

Section FistaBacktrackingInit.

Import FistaBacktracking.

Lemma fista_init_eq (kwargs : list string) (a : fista_backtracking) :
  fista_init kwargs a =
  match kwargs with
  | [] => (Ok tt, {| eta := eta a; t := Some 1 |})
  | _ :: _ => (Raise TypeError, {| eta := eta a; t := Some 1 |})
  end.
Proof. destruct kwargs; reflexivity. Qed.

Lemma fista_backtracking_init_eq (eta_kw : option R)
  (others : list string) :
  __init__ eta_kw others blank =
  match eta_kw with
  | Some e =>
      if Rgtb e 1 || Rleb e 0 then (Raise ValueError, blank)
      else (Raise TypeError, {| eta := Some e; t := Some 1 |})
  | None =>
      match others with
      | [] => (Ok tt, {| eta := Some 0.5; t := Some 1 |})
      | _ :: _ => (Raise TypeError, {| eta := Some 0.5; t := Some 1 |})
      end
  end.
Proof.
  unfold __init__, backtracking_init, bind, modify, raise.
  destruct eta_kw as [e|]; simpl names.
  - destruct (Rgtb e 1 || Rleb e 0); [reflexivity|].
    rewrite fista_init_eq. destruct others; reflexivity.
  - rewrite (proj2 (Rgtb_false 0.5 1)), (proj2 (Rleb_false 0.5 0)) by lra.
    simpl. rewrite fista_init_eq. destruct others; reflexivity.
Qed.

(** X1. A [fista_backtracking] scheme can only be built with no keyword
    at all, and then [eta = 0.5] and [t = 1]: a keyword [eta] outside
    (0, 1] is a [ValueError], and every other call with a keyword, a
    valid [eta] included, ends in the [TypeError] of [accel.__init__],
    because the second parent's constructor is handed all the keywords
    again. *)
Theorem fista_backtracking_init_keywords (eta_kw : option R)
  (others : list string) :
  let out := __init__ eta_kw others blank in
  (fst out = Ok tt <-> eta_kw = None /\ others = [])
  /\ (eta_kw = None -> others = [] ->
      snd out = {| eta := Some 0.5; t := Some 1 |})
  /\ (forall e, eta_kw = Some e -> ~ (0 < e <= 1) ->
      fst out = Raise ValueError)
  /\ (forall e, eta_kw = Some e -> 0 < e <= 1 -> fst out = Raise TypeError)
  /\ (eta_kw = None -> others <> [] -> fst out = Raise TypeError).
Proof.
  cbv zeta. rewrite fista_backtracking_init_eq.
  split; [|split; [|split; [|split]]].
  - destruct eta_kw as [e|].
    + destruct (Rgtb e 1 || Rleb e 0); simpl; split;
        try discriminate; intros [H _]; discriminate.
    + destruct others; simpl; split; try discriminate; auto.
      intros [_ H]. discriminate.
  - intros -> ->. reflexivity.
  - intros e -> He.
    assert (E : Rgtb e 1 || Rleb e 0 = true).
    { destruct (Rgt_dec e 1) as [H|H].
      - rewrite (proj2 (Rgtb_true _ _) H). reflexivity.
      - rewrite (proj2 (Rleb_true e 0)) by lra. apply orb_true_r. }
    rewrite E. reflexivity.
  - intros e -> He.
    rewrite (proj2 (Rgtb_false e 1)), (proj2 (Rleb_false e 0)) by lra.
    reflexivity.
  - intros -> H. destruct others; [contradiction | reflexivity].
Qed.

Lemma fista_backtracking_init_keywords_witness :
  fst (__init__ (Some (1/2)) [] blank) = Raise TypeError.
Proof.
  apply (fista_backtracking_init_keywords (Some (1/2)) [] ) with (e := 1/2);
    [reflexivity | lra].
Defined.

End FistaBacktrackingInit.

(* ------------------------------------------------------------------ *)
(** * fista over a run                                                 *)
(* ------------------------------------------------------------------ *)

Section FistaRuns.

Import Fista FistaLifecycle.

Lemma fista_update_sol_eq (a : fista) (snapshot x : vec) (niter : Z) :
  sol a = Some snapshot ->
  _update_sol x niter a =
  let t0 := if (niter =? 1)%Z then 1 else t a in
  (Ok (vadd x (vscale ((t0 - 1) / t_next t0) (vsub x snapshot))),
   {| t := t_next t0; sol := Some x |}).
Proof.
  intros Hs. unfold _update_sol, bind, modify, gets, attr, ret, set_t,
               set_sol. simpl. rewrite Hs. reflexivity.
Qed.

Lemma last_cons {A : Type} (x : A) (l : list A) (d : A) :
  last (x :: l) d = last l x.
Proof.
  revert x d. induction l as [|y l IH]; intros x d; [reflexivity|].
  change (last (x :: y :: l) d) with (last (y :: l) d).
  rewrite !IH. reflexivity.
Qed.

Lemma t_next_step (x : R) : t_next x > x + 1 / 2.
Proof.
  unfold t_next. pose proof (sqrt_gt_double x). lra.
Qed.

Lemma t_next_pos (x : R) : 1 <= t_next x.
Proof.
  unfold t_next. assert (1 <= sqrt (1 + 4 * x ^ 2)).
  { rewrite <- sqrt_1 at 1. apply sqrt_le_1_alt. nra. }
  lra.
Qed.

(** Past the first iteration every call adds at least [1/2] to [t]. *)
Lemma fista_run_from (calls : list vec) (niter : Z) (a : fista)
  (s0 : vec) :
  (1 < niter)%Z ->
  sol a = Some s0 ->
  exists outs a',
    run calls niter a = (Ok outs, a')
    /\ List.length outs = List.length calls
    /\ t a' >= t a + INR (List.length calls) / 2
    /\ sol a' = Some (last calls s0).
Proof.
  revert niter a s0. induction calls as [|x calls IH]; intros niter a s0 Hn Hs.
  - exists [], a. simpl. repeat split; [lra | exact Hs].
  - simpl run. unfold bind at 1.
    rewrite (fista_update_sol_eq a s0 x niter Hs). cbv zeta.
    destruct (Z.eqb_spec niter 1) as [E|_]; [lia|].
    destruct (IH (niter + 1)%Z {| t := t_next (t a); sol := Some x |} x
                 ltac:(lia) eq_refl) as (outs & a' & Hr & Hl & Ht & Hsol).
    unfold bind. rewrite Hr. eexists. exists a'.
    split; [reflexivity|]. split; [simpl; now rewrite Hl|].
    split.
    + simpl t in Ht. pose proof (t_next_step (t a)).
      change (List.length (x :: calls)) with (S (List.length calls)).
      rewrite S_INR. lra.
    + rewrite Hsol, last_cons. reflexivity.
Qed.

(** X2. A run of [fista._update_sol] calls with iteration indices
    1, 2, 3, ... on a scheme with a snapshot in place, the solver's
    points having the shape of the snapshot, never raises; it ends with
    the last point of the solver as snapshot and, whatever [t] was stored
    before, with [t >= 1 + n/2] after [n >= 1] calls. *)
Theorem fista_t_grows (calls : list vec) (a : fista) (s0 : vec) :
  sol a = Some s0 ->
  Forall (fun x => List.length x = List.length s0) calls ->
  calls <> [] ->
  exists outs a',
    run calls 1 a = (Ok outs, a')
    /\ List.length outs = List.length calls
    /\ t a' >= 1 + INR (List.length calls) / 2
    /\ sol a' = Some (last calls s0).
Proof.
  intros Hs _ Hc. destruct calls as [|x calls]; [contradiction|].
  simpl run. unfold bind at 1.
  rewrite (fista_update_sol_eq a s0 x 1 Hs). cbv zeta.
  change (1 =? 1)%Z with true. cbv iota.
  destruct (fista_run_from calls 2%Z {| t := t_next 1; sol := Some x |}
              x ltac:(lia) eq_refl) as (outs & a' & Hr & Hl & Ht & Hsol).
  unfold bind. rewrite Hr. eexists. exists a'.
  split; [reflexivity|]. split; [simpl; now rewrite Hl|]. split.
  - simpl t in Ht. pose proof (t_next_step 1).
    change (List.length (x :: calls)) with (S (List.length calls)).
    rewrite S_INR. lra.
  - rewrite Hsol, last_cons. reflexivity.
Qed.

Lemma fista_t_grows_witness :
  exists outs a',
    run [[1]; [2]] 1 {| t := 7; sol := Some [0] |} = (Ok outs, a')
    /\ List.length outs = 2%nat
    /\ t a' >= 1 + INR 2 / 2
    /\ sol a' = Some [2].
Proof.
  apply (fista_t_grows [[1]; [2]] {| t := 7; sol := Some [0] |} [0]);
    [reflexivity | repeat constructor | discriminate].
Defined.

Lemma vadd_zero_scale (x s : vec) :
  List.length s = List.length x ->
  vadd x (vscale 0 (vsub x s)) = x.
Proof.
  revert s. induction x as [|a x IH]; intros [|b s] H;
    try discriminate; [reflexivity|].
  unfold vadd, vscale, vsub in *. simpl. rewrite IH by (simpl in H; lia).
  f_equal. ring.
Qed.

(** X3. The momentum weight of a [fista._update_sol] call on a point of
    the snapshot's shape: when it is the first iteration or the stored
    [t] is at least 1, the call returns [sol + beta (sol - snapshot)]
    with [0 <= beta < 1]; at the first iteration [beta = 0] and the call
    returns the solver's point itself. *)
Theorem fista_momentum_weight (a : fista) (snapshot x : vec) (niter : Z) :
  sol a = Some snapshot ->
  List.length snapshot = List.length x ->
  niter = 1%Z \/ 1 <= t a ->
  exists beta,
    0 <= beta < 1
    /\ fst (_update_sol x niter a)
       = Ok (vadd x (vscale beta (vsub x snapshot)))
    /\ (niter = 1%Z -> beta = 0 /\ fst (_update_sol x niter a) = Ok x).
Proof.
  intros Hs Hl Ht. rewrite (fista_update_sol_eq a snapshot x niter Hs).
  cbv zeta. simpl fst.
  set (t0 := if (niter =? 1)%Z then 1 else t a).
  assert (H0 : 1 <= t0).
  { unfold t0. destruct (Z.eqb_spec niter 1); [lra|].
    destruct Ht; [contradiction | assumption]. }
  pose proof (t_next_increases t0) as Hinc.
  exists ((t0 - 1) / t_next t0). split; [|split].
  - split.
    + apply Rmult_le_pos; [lra|]. left. apply Rinv_0_lt_compat. lra.
    + apply (Rmult_lt_reg_r (t_next t0)); [lra|].
      unfold Rdiv. rewrite Rmult_assoc, Rinv_l by lra. lra.
  - reflexivity.
  - intros ->. unfold t0. simpl.
    replace ((1 - 1) / t_next 1) with 0 by (unfold Rdiv; ring).
    split; [reflexivity|]. now rewrite vadd_zero_scale.
Qed.

Lemma fista_momentum_weight_witness :
  exists beta,
    0 <= beta < 1
    /\ fst (_update_sol [1] 1 {| t := 7; sol := Some [0] |})
       = Ok (vadd [1] (vscale beta (vsub [1] [0])))
    /\ (1%Z = 1%Z ->
        beta = 0
        /\ fst (_update_sol [1] 1 {| t := 7; sol := Some [0] |}) = Ok [1]).
Proof.
  apply (fista_momentum_weight {| t := 7; sol := Some [0] |} [0] [1] 1);
    [reflexivity | reflexivity | now left].
Defined.

End FistaRuns.

(* ------------------------------------------------------------------ *)
(** * backtracking: errors, bounds and life cycle                      *)
(* ------------------------------------------------------------------ *)

Section BacktrackingErrors.

Import Backtracking BacktrackingLifecycle.

Context {X : Type}.
Variable _algo : solver X -> solver X.

Lemma index_last_nil {A} : index (@nil A) (-1) = Raise IndexError.
Proof. reflexivity. Qed.

Lemma index_last_Ok {A} (l : list A) (d : A) :
  l <> [] -> index l (-1) = Ok (last l d).
Proof.
  intros Hl. unfold index.
  assert (Hn : (0 < List.length l)%nat) by (destruct l; simpl; [easy | lia]).
  change (-1 <? 0)%Z with true. cbv iota zeta.
  replace ((0 <=? -1 + Z.of_nat (List.length l))
           && (-1 + Z.of_nat (List.length l) <? Z.of_nat (List.length l)))%Z
    with true
    by (symmetry; apply andb_true_intro; split;
        [apply Z.leb_le | apply Z.ltb_lt]; lia).
  replace (Z.to_nat (-1 + Z.of_nat (List.length l)))
    with (List.length l - 1)%nat by lia.
  rewrite (nth_error_nth' l d) by lia.
  f_equal. clear. induction l as [|a [|b l] IH]; try reflexivity.
  change (last (a :: b :: l) d) with (last (b :: l) d). rewrite <- IH.
  simpl. rewrite !Nat.sub_0_r. reflexivity.
Qed.

Lemma update_step_no_objective (fuel : nat) (niter : Z) (w : world X) :
  _update_step _algo fuel [] niter w = Some (Raise IndexError, w).
Proof. reflexivity. Qed.

Lemma update_step_no_funs (fuel : nat) (objective : list (list R))
  (niter : Z) (w : world X) :
  objective <> [] ->
  smooth_funs (self w) = None ->
  _update_step _algo fuel objective niter w = Some (Raise AttributeError, w).
Proof.
  intros Ho Hf. unfold _update_step, prologue, bind, lift, gets, attr, ret.
  rewrite (index_last_Ok objective [] Ho). simpl. rewrite Hf. reflexivity.
Qed.

Lemma update_step_no_snapshot (fuel : nat) (objective : list (list R))
  (niter : Z) (w : world X) (fs : list func) :
  objective <> [] ->
  smooth_funs (self w) = Some fs ->
  sol (self w) = None ->
  _update_step _algo (S fuel) objective niter w
  = Some (Raise AttributeError, w).
Proof.
  intros Ho Hf Hs. unfold _update_step, prologue, bind, lift, gets, attr, ret.
  rewrite (index_last_Ok objective [] Ho). simpl. rewrite Hf. simpl.
  destruct fs as [|f fs].
  - simpl. unfold criterion, bind, gets, attr, ret. simpl. rewrite Hs.
    reflexivity.
  - simpl. unfold bind, gets, attr. simpl. rewrite Hs. reflexivity.
Qed.

Lemma update_step_set_up (fuel : nat) (objective : list (list R))
  (niter : Z) (w : world X) (fs : list func) (snap : vec) (e : exn)
  (w' : world X) :
  objective <> [] ->
  smooth_funs (self w) = Some fs ->
  sol (self w) = Some snap ->
  _update_step _algo fuel objective niter w <> Some (Raise e, w').
Proof.
  intros Ho Hf Hs H. destruct w as [a s]. simpl in Hf, Hs.
  revert H. unfold _update_step, prologue, bind, lift, gets, attr, ret.
  rewrite (index_last_Ok objective [] Ho). simpl. rewrite Hf. simpl.
  rewrite (accumulate_ok fs 0 _ {| self := a; slv := s |} snap Hs).
  simpl. rewrite Rplus_0_l.
  destruct (while_ _ _ _ _ _ _) as [[r w2]|] eqn:E; [|discriminate].
  apply (while_returns _algo a fs snap _ _ Hf Hs) in E.
  destruct E as (m & _ & _ & _ & Hres). injection Hres as -> ->.
  discriminate.
Qed.

(** X4. When [backtracking._update_step] raises, for vectors of one
    shape (the snapshot has the shape of the solver's point, a gradient
    that of its argument, and the solver's point keeps its shape through
    the shrinkings, so that numpy has no shape to object to): exactly
    when the objective history is empty (IndexError) or the scheme has
    not been through [pre] (AttributeError); the solver and the scheme
    are then what they were before the call, so the step has not been
    changed and [_algo] has not been run. *)
Theorem backtracking_update_step_raises (fuel : nat)
  (objective : list (list R)) (niter : Z) (w w' : world X) (e : exn) :
  (forall snap, sol (self w) = Some snap ->
     List.length snap = List.length (solver_sol (slv w))) ->
  (forall fs f x, smooth_funs (self w) = Some fs -> In f fs ->
     List.length (grad f x) = List.length x) ->
  (forall m,
     List.length
       (solver_sol (Nat.iter m (shrink_solver _algo (eta (self w))) (slv w)))
     = List.length (solver_sol (slv w))) ->
  _update_step _algo (S fuel) objective niter w = Some (Raise e, w')
  <-> w' = w
      /\ ((objective = [] /\ e = IndexError)
          \/ (objective <> []
              /\ (smooth_funs (self w) = None \/ sol (self w) = None)
              /\ e = AttributeError)).
Proof.
  intros _ _ _. split.
  - intros H. destruct objective as [|o objective].
    + rewrite update_step_no_objective in H. injection H as <- <-.
      split; [reflexivity | left; split; reflexivity].
    + assert (Ho : o :: objective <> []) by discriminate.
      destruct (smooth_funs (self w)) as [fs|] eqn:Hf.
      * destruct (sol (self w)) as [snap|] eqn:Hs.
        -- exfalso. exact (update_step_set_up _ _ _ _ fs snap e w' Ho Hf Hs H).
        -- rewrite (update_step_no_snapshot _ _ _ _ fs Ho Hf Hs) in H.
           injection H as <- <-.
           split; [reflexivity | right; repeat split; auto; discriminate].
      * rewrite (update_step_no_funs _ _ _ _ Ho Hf) in H.
        injection H as <- <-.
        split; [reflexivity | right; repeat split; auto; discriminate].
  - intros (-> & [[-> ->] | (Ho & Hm & ->)]).
    + apply update_step_no_objective.
    + destruct (smooth_funs (self w)) as [fs|] eqn:Hf.
      * destruct Hm as [Hm | Hm]; [discriminate|].
        exact (update_step_no_snapshot _ _ _ _ fs Ho Hf Hm).
      * exact (update_step_no_funs _ _ _ _ Ho Hf).
Qed.

Lemma pow_le_1 (x : R) (m : nat) : 0 < x <= 1 -> 0 < x ^ m <= 1.
Proof.
  intros Hx. induction m as [|m IH]; simpl; [lra|]. nra.
Qed.

(** X5. [backtracking._update_step] never lengthens the step: with a
    solver whose [_algo] leaves the step alone, [0 < eta <= 1] and a step
    that is not negative, any value the call returns is not negative, is
    at most the step before the call, and is the step the solver holds
    afterwards. *)
Theorem backtracking_step_never_grows (fuel : nat)
  (objective : list (list R)) (niter : Z) (w w' : world X) (r : R) :
  (forall s', step (_algo s') = step s') ->
  0 < eta (self w) <= 1 ->
  0 <= step (slv w) ->
  _update_step _algo fuel objective niter w = Some (Ok r, w') ->
  0 <= r <= step (slv w) /\ step (slv w') = r.
Proof.
  intros Halgo Heta Hstep H. destruct w as [a s]. simpl in *.
  destruct objective as [|o objective].
  { rewrite update_step_no_objective in H. discriminate. }
  assert (Ho : o :: objective <> []) by discriminate.
  destruct (smooth_funs a) as [fs|] eqn:Hf.
  2:{ rewrite (update_step_no_funs _ _ _ {| self := a; slv := s |} Ho Hf)
        in H. discriminate. }
  destruct (sol a) as [snap|] eqn:Hs.
  2:{ destruct fuel as [|fuel].
      - revert H. unfold _update_step, prologue, bind, lift, gets, attr, ret.
        rewrite (index_last_Ok _ [] Ho). simpl. rewrite Hf. simpl.
        destruct (accumulate _ _ _ _) as [[[v g]|e] w1]; discriminate.
      - rewrite (update_step_no_snapshot _ _ _ {| self := a; slv := s |}
                   fs Ho Hf Hs) in H. discriminate. }
  apply (update_step_returns_iff _algo fuel _ niter a s _ fs snap Halgo
           (index_last_Ok _ [] Ho) Hf Hs) in H.
  destruct H as (m & _ & _ & _ & Hres). injection Hres as -> ->.
  pose proof (pow_le_1 (eta a) m Heta) as Hp. simpl.
  rewrite (iter_step _algo _ _ _ Halgo). split; [split; nra | reflexivity].
Qed.

End BacktrackingErrors.

Lemma backtracking_step_never_grows_witness :
  0 <= 5/2 * (1/2) ^ 1 <= 5/2
  /\ Backtracking.step
       (Backtracking.slv
          {| Backtracking.self := bt_scheme (1/2);
             Backtracking.slv :=
               Nat.iter 1
                 (Backtracking.shrink_solver (gradient_algo pseudo_huber)
                    (1/2))
                 (Backtracking.slv (bt_world (1/2))) |})
     = 5/2 * (1/2) ^ 1.
Proof.
  apply (backtracking_step_never_grows (gradient_algo pseudo_huber) 2
           bt_objective 1 (bt_world (1/2)) _ (5/2 * (1/2) ^ 1)).
  - reflexivity.
  - simpl. lra.
  - simpl. lra.
  - exact bt_half_run.
Defined.

Lemma backtracking_update_step_raises_witness :
  Backtracking._update_step (gradient_algo pseudo_huber) 1 [] 1
    (bt_world (1/2))
  = Some (Raise IndexError, bt_world (1/2)).
Proof.
  apply (backtracking_update_step_raises (gradient_algo pseudo_huber) 0 []
           1 (bt_world (1/2)) (bt_world (1/2)) IndexError).
  - intros snap H. injection H as <-. reflexivity.
  - intros fs f x H Hin. injection H as <-.
    destruct Hin as [<- | []]. apply length_map.
  - intros m. rewrite bt_iterate. reflexivity.
  - split; [reflexivity | left; split; reflexivity].
Defined.

Section BacktrackingLife.

Import Backtracking BacktrackingLifecycle.

Context {X : Type}.
Variable _algo : solver X -> solver X.

Lemma filter_no_grad (functions : list func) (x0 : vec) :
  Forall (fun f => ~ In "GRAD"%string (cap f x0)) functions ->
  filter (has_grad x0) functions = [].
Proof.
  induction 1 as [|f fs Hf _ IH]; [reflexivity|].
  simpl. unfold has_grad at 1.
  destruct (in_dec string_dec "GRAD"%string (cap f x0));
    [contradiction | exact IH].
Qed.

(** X6. A scheme set up by [pre] on functions none of which has the
    GRAD capability never shortens the step: with a non-negative step
    and a last objective entry of non-negative sum, [_update_step]
    returns the solver's step at once, the solver untouched. *)
Theorem backtracking_without_gradients (fuel : nat)
  (objective : list (list R)) (niter : Z) (functions : list func)
  (x0 : vec) (a : backtracking) (s : solver X) :
  Forall (fun f => ~ In "GRAD"%string (cap f x0)) functions ->
  objective <> [] ->
  0 <= Rsum (last objective []) ->
  0 <= step s ->
  _update_step _algo (S fuel) objective niter
               {| self := pre functions x0 a; slv := s |}
  = Some (Ok (step s), {| self := pre functions x0 a; slv := s |}).
Proof.
  intros Hg Ho Hv Hs.
  unfold _update_step, prologue, bind, lift, gets, attr, ret.
  rewrite (index_last_Ok objective [] Ho). simpl.
  rewrite (filter_no_grad _ _ Hg). simpl.
  unfold criterion, bind, gets, attr, ret. simpl.
  rewrite dot_zeros_r.
  rewrite (proj2 (Rgtb_false _ _)); [reflexivity|].
  pose proof (sqnorm_nonneg (vsub (solver_sol s) x0)). nra.
Qed.

(** X7. [dummy._update_sol], which [backtracking] inherits, returns the
    solver's point and writes it into the snapshot in place: the snapshot
    keeps its shape, taking the solver's entries when the shapes agree
    and the single entry everywhere when the solver's point has one
    entry; any other shape is a ValueError that changes nothing.  The
    solver is never written to. *)
Theorem backtracking_update_sol_tracks (w : world X) (snap : vec) :
  sol (self w) = Some snap ->
  let x := solver_sol (slv w) in
  (List.length x = List.length snap \/ List.length x = 1%nat ->
   exists snap',
     _update_sol w = (Ok x, on_self (set_sol snap') w)
     /\ List.length snap' = List.length snap
     /\ forall i, (i < List.length snap)%nat ->
          nth i snap' 0
          = nth (if (List.length x =? List.length snap)%nat then i else 0%nat)
                x 0)
  /\ (List.length x <> List.length snap -> List.length x <> 1%nat ->
      _update_sol w = (Raise ValueError, w)).
Proof.
  intros Hs x. unfold _update_sol, bind, gets, attr, lift, modify, ret.
  simpl. rewrite Hs. unfold assign_slice. fold x. split.
  - intros Hx. destruct (Nat.eqb_spec (List.length x) (List.length snap))
      as [E|E].
    + exists x. repeat split; auto.
    + destruct Hx as [Hx|Hx]; [contradiction|]. rewrite Hx. simpl.
      exists (repeat (hd 0 x) (List.length snap)).
      split; [reflexivity|]. split; [apply repeat_length|].
      intros i Hi. rewrite nth_repeat_lt by exact Hi.
      destruct x; reflexivity.
  - intros H1 H2.
    destruct (Nat.eqb_spec (List.length x) (List.length snap)) as [E|_];
      [contradiction|].
    destruct (Nat.eqb_spec (List.length x) 1) as [E|_]; [contradiction|].
    reflexivity.
Qed.

(** X8. The life cycle of a [backtracking] scheme: [post] after [pre]
    gives back the scheme as constructed; a second [post], or a [post]
    with no [pre] before, raises AttributeError and changes nothing; and
    [_update_step] on a scheme that is not between [pre] and [post]
    raises AttributeError without touching the solver. *)
Theorem backtracking_post_once (functions : list func) (x0 : vec)
  (a : backtracking) :
  smooth_funs a = None ->
  sol a = None ->
  post (pre functions x0 a) = (Ok tt, a)
  /\ post a = (Raise AttributeError, a)
  /\ forall fuel objective niter (s : solver X),
       objective <> [] ->
       _update_step _algo fuel objective niter
         {| self := snd (post (pre functions x0 a)); slv := s |}
       = Some (Raise AttributeError, {| self := a; slv := s |}).
Proof.
  intros Hf Hs. destruct a as [e f x]. simpl in Hf, Hs. subst f x.
  split; [reflexivity|]. split; [reflexivity|].
  intros fuel objective niter s Ho.
  apply update_step_no_funs; [exact Ho | reflexivity].
Qed.

End BacktrackingLife.

Lemma backtracking_update_sol_tracks_witness :
  let w := {| Backtracking.self :=
                {| Backtracking.eta := 1/2;
                   Backtracking.smooth_funs := None;
                   Backtracking.sol := Some [0; 0] |};
              Backtracking.slv :=
                {| Backtracking.solver_sol := [7]; Backtracking.step := 1;
                   Backtracking.aux := tt |} |} in
  exists snap',
    BacktrackingLifecycle._update_sol w
    = (Ok [7],
       BacktrackingLifecycle.on_self (BacktrackingLifecycle.set_sol snap') w)
    /\ List.length snap' = 2%nat
    /\ forall i, (i < 2)%nat -> nth i snap' 0 = nth 0 [7] 0.
Proof.
  intros w.
  apply (proj1 (backtracking_update_sol_tracks w [0; 0] eq_refl)).
  right. reflexivity.
Defined.

Lemma backtracking_without_gradients_witness :
  let f := {| cap := fun _ => ["EVAL"; "PROX"]%string;
              eval := fun x => Rsum (map Rabs x);
              grad := fun x => x |} in
  let a := {| Backtracking.eta := 1/2; Backtracking.smooth_funs := None;
              Backtracking.sol := None |} in
  let s := {| Backtracking.solver_sol := [1]; Backtracking.step := 5/2;
              Backtracking.aux := [3/4] |} in
  Backtracking._update_step (gradient_algo pseudo_huber) 1 [[5/4]] 1
    {| Backtracking.self := Backtracking.pre [f] [3/4] a;
       Backtracking.slv := s |}
  = Some (Ok (5/2),
          {| Backtracking.self := Backtracking.pre [f] [3/4] a;
             Backtracking.slv := s |}).
Proof.
  intros f a s.
  apply (backtracking_without_gradients (gradient_algo pseudo_huber) 0
           [[5/4]] 1 [f] [3/4] a s).
  - repeat constructor. simpl. intros [H|[H|[]]]; discriminate.
  - discriminate.
  - simpl. lra.
  - simpl. lra.
Defined.

Lemma backtracking_post_once_witness :
  let a := {| Backtracking.eta := 1/2; Backtracking.smooth_funs := None;
              Backtracking.sol := None |} in
  BacktrackingLifecycle.post (Backtracking.pre [pseudo_huber] [3/4] a)
  = (Ok tt, a).
Proof.
  intros a.
  apply (proj1 (backtracking_post_once (gradient_algo pseudo_huber)
                  [pseudo_huber] [3/4] a eq_refl eq_refl)).
Defined.

(* ------------------------------------------------------------------ *)
(** * regularized_nonlinear: the adaptive grid                         *)
(* ------------------------------------------------------------------ *)

Section AdaptiveGrid.

Import RNA.

Lemma insert_perm (x : R) (l : list R) : Permutation (insert x l) (x :: l).
Proof.
  induction l as [|y l IH]; simpl; [apply Permutation_refl|].
  destruct (Rle_dec x y); [apply Permutation_refl|].
  apply (Permutation_trans (perm_skip y IH)). apply perm_swap.
Qed.

Lemma sort_perm (l : list R) : Permutation (sort l) l.
Proof.
  induction l as [|x l IH]; simpl; [apply perm_nil|].
  apply (Permutation_trans (insert_perm x (sort l))).
  now apply perm_skip.
Qed.

Lemma insert_sorted (x : R) (l : list R) :
  Sorted Rle l -> Sorted Rle (insert x l).
Proof.
  induction 1 as [|y l Hl IH Hhd]; simpl.
  - repeat constructor.
  - destruct (Rle_dec x y) as [Hxy|Hxy].
    + constructor; [constructor; assumption | constructor; exact Hxy].
    + constructor; [exact IH|].
      destruct Hhd as [|z l Hyz]; simpl.
      * constructor. lra.
      * destruct (Rle_dec x z); constructor; lra.
Qed.

Lemma sort_sorted (l : list R) : Sorted Rle (sort l).
Proof.
  induction l as [|x l IH]; simpl; [constructor | now apply insert_sorted].
Qed.

Lemma sorted_adjacent (l : list R) (i : nat) :
  Sorted Rle l -> (S i < List.length l)%nat -> nth i l 0 <= nth (S i) l 0.
Proof.
  intros Hl. revert i. induction Hl as [|x l Hl IH Hhd]; intros i Hi.
  - simpl in Hi. lia.
  - destruct i as [|i].
    + destruct Hhd as [|y l Hxy]; [simpl in Hi; lia | exact Hxy].
    + apply IH. simpl in Hi. lia.
Qed.

Lemma length_pair_avg (l : list R) :
  List.length (pair_avg l) = (List.length l - 1)%nat.
Proof.
  induction l as [|a [|b l] IH]; try reflexivity.
  change (pair_avg (a :: b :: l))
    with (0.5 * (a + b) :: pair_avg (b :: l)).
  simpl List.length in *. rewrite IH. lia.
Qed.

Lemma nth_pair_avg (l : list R) (i : nat) :
  (S i < List.length l)%nat ->
  nth i (pair_avg l) 0 = 0.5 * (nth i l 0 + nth (S i) l 0).
Proof.
  revert i. induction l as [|a [|b l] IH]; intros i Hi;
    try (simpl in Hi; lia).
  destruct i as [|i]; [reflexivity|].
  change (pair_avg (a :: b :: l))
    with (0.5 * (a + b) :: pair_avg (b :: l)).
  change (nth (S i) (0.5 * (a + b) :: pair_avg (b :: l)) 0)
    with (nth i (pair_avg (b :: l)) 0).
  rewrite IH by (simpl in Hi |- *; lia). reflexivity.
Qed.

Lemma geometric_mean (a b : R) :
  0 < a -> 0 < b -> exp (0.5 * (ln a + ln b)) = sqrt (a * b).
Proof.
  intros Ha Hb. symmetry. apply sqrt_lem_1.
  - nra.
  - left. apply exp_pos.
  - rewrite <- exp_plus.
    replace (0.5 * (ln a + ln b) + 0.5 * (ln a + ln b))
      with (ln a + ln b) by lra.
    rewrite exp_plus, !exp_ln by assumption. reflexivity.
Qed.

Lemma geometric_mean_between (a b : R) :
  0 < a -> a <= b -> a <= sqrt (a * b) <= b.
Proof.
  intros Ha Hab. split.
  - rewrite <- (sqrt_square a) at 1 by lra. apply sqrt_le_1_alt. nra.
  - rewrite <- (sqrt_square b) at 2 by lra. apply sqrt_le_1_alt. nra.
Qed.

(** X9. The grid an adaptive scheme assembles from eigenvalues none of
    which is zero: the sorted absolute eigenvalues [s] are a sorted
    rearrangement of the absolute values; the grid starts with 0, has as
    many entries as there are eigenvalues (one when there is none), and
    its entry [i + 1] is the geometric mean of [s_i] and [s_(i+1)], so
    it is positive and lies between the two. *)
Theorem rna_adaptive_grid_geometric (eigenvalues : list R) :
  Forall (fun e => e <> 0) eigenvalues ->
  let s := sort (map Rabs eigenvalues) in
  let grid := adaptive_grid eigenvalues in
  Permutation s (map Rabs eigenvalues)
  /\ Sorted Rle s
  /\ nth 0 grid 1 = 0
  /\ List.length grid = Nat.max 1 (List.length eigenvalues)
  /\ forall i, (S i < List.length eigenvalues)%nat ->
       nth (S i) grid 0 = sqrt (nth i s 0 * nth (S i) s 0)
       /\ 0 < nth i s 0 <= nth (S i) grid 0
       /\ nth (S i) grid 0 <= nth (S i) s 0.
Proof.
  intros Hnz s grid.
  assert (Hperm : Permutation s (map Rabs eigenvalues))
    by apply sort_perm.
  assert (Hsorted : Sorted Rle s) by apply sort_sorted.
  assert (Hlen : List.length s = List.length eigenvalues).
  { rewrite (Permutation_length Hperm). apply length_map. }
  assert (Hpos : forall i, (i < List.length s)%nat -> 0 < nth i s 0).
  { intros i Hi.
    assert (Hin : In (nth i s 0) (map Rabs eigenvalues))
      by (apply (Permutation_in _ Hperm); now apply nth_In).
    apply in_map_iff in Hin. destruct Hin as (e & <- & He).
    apply Rabs_pos_lt. rewrite Forall_forall in Hnz. now apply Hnz. }
  split; [exact Hperm|]. split; [exact Hsorted|].
  split; [reflexivity|]. split.
  - unfold grid, adaptive_grid. simpl List.length.
    rewrite !length_map, length_pair_avg, length_map. fold s.
    rewrite Hlen. lia.
  - intros i Hi. unfold grid, adaptive_grid.
    change (nth (S i) (0 :: ?l) 0) with (nth i l 0).
    assert (Hi' : (S i < List.length s)%nat) by lia.
    assert (Hnth : nth i (map exp (pair_avg (map ln s))) 0
                   = sqrt (nth i s 0 * nth (S i) s 0)).
    { rewrite (nth_indep _ 0 (exp 0))
        by (rewrite length_map, length_pair_avg, length_map; lia).
      rewrite map_nth, nth_pair_avg by (rewrite length_map; lia).
      rewrite !(nth_indep (map ln s) 0 (ln 0))
        by (rewrite length_map; lia).
      rewrite !map_nth. apply geometric_mean; apply Hpos; lia. }
    fold s. rewrite Hnth.
    pose proof (Hpos i ltac:(lia)) as Hp.
    pose proof (sorted_adjacent s i Hsorted Hi') as Hadj.
    pose proof (geometric_mean_between _ _ Hp Hadj) as [H1 H2].
    repeat split; assumption.
Qed.

Lemma rna_adaptive_grid_geometric_witness :
  let s := sort (map Rabs [4; -1]) in
  let grid := adaptive_grid [4; -1] in
  Permutation s (map Rabs [4; -1])
  /\ Sorted Rle s
  /\ nth 0 grid 1 = 0
  /\ List.length grid = Nat.max 1 2
  /\ forall i, (S i < 2)%nat ->
       nth (S i) grid 0 = sqrt (nth i s 0 * nth (S i) s 0)
       /\ 0 < nth i s 0 <= nth (S i) grid 0
       /\ nth (S i) grid 0 <= nth (S i) s 0.
Proof.
  apply (rna_adaptive_grid_geometric [4; -1]).
  repeat constructor; lra.
Defined.

End AdaptiveGrid.

(* ------------------------------------------------------------------ *)
(** * regularized_nonlinear: grids of at most one entry                *)
(* ------------------------------------------------------------------ *)

Section RNAShortGrid.

Import RNA.

Variable float_of_str : string -> option R.
Variable solve : matrix -> vec -> result vec.
Variable eigvals : matrix -> result (list R).
Variable line_search_armijo :
  (vec -> R) -> vec -> vec -> vec -> R -> R -> R -> option R.

Let rebuild_grid := RNA.rebuild_grid float_of_str eigvals.
Let choose := RNA.choose solve.
Let improve := RNA.improve line_search_armijo.
Let clear := RNA.clear float_of_str.
Let _update_sol :=
  RNA._update_sol float_of_str solve eigvals line_search_armijo.
Let run := RNA.run float_of_str solve eigvals line_search_armijo.

(** An extrapolating call, split at the moment the grid is in place. *)
Lemma update_sol_from_grid (solver_sol : vec) (objective : list (list R))
  (niter : Z) (w : world) (b : list vec) :
  (k (self w) + 1 <> 0)%Z ->
  (niter mod (k (self w) + 1) = 0)%Z ->
  buffer (self w) = Some b ->
  let UU := normalized_gram (b ++ [solver_sol]) in
  _update_sol solver_sol objective niter w =
  match rebuild_grid UU (on_self (set_buffer (b ++ [solver_sol])) w) with
  | (Ok _, w2) =>
      (extrap <- choose solver_sol objective UU ;;
       extrap <- improve extrap objective ;;
       clear ;;; ret extrap)%py w2
  | (Raise e, w2) => (Raise e, w2)
  end.
Proof.
  intros Hk Hn Hb UU.
  unfold _update_sol, RNA._update_sol, bind at 1, gets.
  unfold bind at 1, lift, mod_.
  destruct (Z.eqb_spec (k (self w) + 1) 0) as [E|_]; [contradiction|].
  rewrite Hn. change (0 =? 0)%Z with true. cbv iota.
  rewrite (bind_eq _ _ w (on_self (set_buffer (b ++ [solver_sol])) w) tt)
    by (rewrite buffer_append_eq, Hb; reflexivity).
  rewrite (bind_eq _ _ _ (on_self (set_buffer (b ++ [solver_sol])) w)
             (b ++ [solver_sol])) by reflexivity.
  fold UU. unfold bind at 1. fold rebuild_grid.
  destruct (rebuild_grid UU _) as [[[]|e] w2]; reflexivity.
Qed.

Lemma update_sol_no_buffer (solver_sol : vec) (objective : list (list R))
  (niter : Z) (w : world) :
  (k (self w) + 1 <> 0)%Z ->
  buffer (self w) = None ->
  _update_sol solver_sol objective niter w = (Raise AttributeError, w).
Proof.
  intros Hk Hb.
  unfold _update_sol, RNA._update_sol, bind at 1, gets.
  unfold bind at 1, lift, mod_.
  destruct (Z.eqb_spec (k (self w) + 1) 0) as [E|_]; [contradiction|].
  destruct (_ =? 0)%Z; unfold bind; rewrite buffer_append_eq, Hb;
    reflexivity.
Qed.

Lemma update_sol_no_period (solver_sol : vec) (objective : list (list R))
  (niter : Z) (w : world) :
  (k (self w) + 1 = 0)%Z ->
  _update_sol solver_sol objective niter w = (Raise ZeroDivisionError, w).
Proof.
  intros Hk.
  unfold _update_sol, RNA._update_sol, bind at 1, gets.
  unfold bind at 1, lift, mod_. rewrite Hk. reflexivity.
Qed.

Lemma world_grid_eta (w : world) (l : list R) :
  _lambda_ (self w) = Some l -> w = on_self (set_lambda l) w.
Proof.
  destruct w as [[k0 l0 a d f b fs s] o ws]. simpl. intros ->. reflexivity.
Qed.

Lemma update_sol_short_grid (solver_sol : vec) (objective : list (list R))
  (niter : Z) (w : world) (l1 l2 : list R) :
  adaptive (self w) = true ->
  (List.length l1 <= 1)%nat ->
  (List.length l2 <= 1)%nat ->
  let o1 := _update_sol solver_sol objective niter
                        (on_self (set_lambda l1) w) in
  let o2 := _update_sol solver_sol objective niter
                        (on_self (set_lambda l2) w) in
  fst o1 = fst o2
  /\ forall y, fst o1 = Ok y ->
       exists w' l1' l2',
         snd o1 = on_self (set_lambda l1') w'
         /\ snd o2 = on_self (set_lambda l2') w'
         /\ adaptive (self w') = true
         /\ (List.length l1' <= 1)%nat
         /\ (List.length l2' <= 1)%nat.
Proof.
  intros Ha H1 H2 o1 o2.
  destruct (Z.eq_dec (k (self w) + 1) 0) as [Hk|Hk].
  { unfold o1, o2. rewrite !update_sol_no_period by exact Hk.
    split; [reflexivity | discriminate]. }
  destruct (buffer (self w)) as [b|] eqn:Hb.
  2:{ unfold o1, o2. rewrite !update_sol_no_buffer by assumption.
      split; [reflexivity | discriminate]. }
  destruct (Z.eq_dec (niter mod (k (self w) + 1)) 0) as [Hn|Hn].
  - assert (E1 : o1 = _update_sol solver_sol objective niter
                        (on_self (set_lambda l1) w)) by reflexivity.
    assert (E2 : o2 = _update_sol solver_sol objective niter
                        (on_self (set_lambda l2) w)) by reflexivity.
    rewrite (update_sol_from_grid _ _ _ _ b) in E1
      by (try exact Hk; try exact Hn; exact Hb).
    rewrite (update_sol_from_grid _ _ _ _ b) in E2
      by (try exact Hk; try exact Hn; exact Hb).
    unfold rebuild_grid in E1, E2. rewrite rebuild_grid_eq in E1, E2.
    simpl adaptive in E1, E2. rewrite Ha in E1, E2.
    simpl _lambda_ in E1, E2.
    apply Nat.leb_le in H1, H2. cbv beta iota in E1, E2.
    rewrite H1 in E1. rewrite H2 in E2.
    destruct (eigvals (normalized_gram (b ++ [solver_sol]))) as [ev|e].
    + assert (E : o1 = o2) by (rewrite E1, E2; reflexivity).
      split; [now rewrite E|]. intros y Hy.
      assert (Hg : _lambda_ (self (snd o1)) = Some []).
      { apply (update_sol_clears_grid float_of_str solve eigvals
                 line_search_armijo solver_sol objective niter
                 (on_self (set_lambda l1) w) (snd o1) y);
          try assumption.
        unfold o1 in *. fold _update_sol.
        destruct (_update_sol _ _ _ _) as [r s]. simpl in Hy |- *.
        now rewrite Hy. }
      exists (snd o1), [], []. rewrite <- E.
      pose proof (update_sol_config float_of_str solve eigvals
                    line_search_armijo solver_sol objective niter
                    (on_self (set_lambda l1) w)) as (_ & Had & _).
      repeat split; try (simpl; lia).
      * now apply world_grid_eta.
      * now apply world_grid_eta.
      * fold _update_sol o1 in Had. rewrite Had. exact Ha.
    + rewrite E1, E2. split; [reflexivity | discriminate].
  - unfold o1, o2.
    rewrite !(update_sol_gathers float_of_str solve eigvals
                line_search_armijo _ _ _ _ b) by assumption.
    split; [reflexivity|]. intros y _.
    exists (on_self (set_buffer (b ++ [solver_sol])) w), l1, l2.
    repeat split; assumption.
Qed.

(** X10. With [adaptive] set, a grid of at most one entry is never
    used: two runs of [_update_sol] calls that differ only in such a
    grid return the same points and end with the same exception, if
    any.  A scalar [lambda_], which the setter stores as a one-entry
    grid, therefore has no influence on an adaptive scheme. *)
Theorem rna_short_grid_unused (calls : list (vec * list (list R)))
  (niter : Z) (w : world) (l1 l2 : list R) :
  adaptive (self w) = true ->
  (List.length l1 <= 1)%nat ->
  (List.length l2 <= 1)%nat ->
  fst (run calls niter (on_self (set_lambda l1) w))
  = fst (run calls niter (on_self (set_lambda l2) w)).
Proof.
  revert niter w l1 l2.
  induction calls as [|[x o] calls IH]; intros niter w l1 l2 Ha H1 H2;
    [reflexivity|].
  destruct (update_sol_short_grid x o niter w l1 l2 Ha H1 H2) as [Hf Hs].
  unfold run. simpl RNA.run. fold _update_sol.
  fold (RNA.run float_of_str solve eigvals line_search_armijo). fold run.
  unfold bind at 1 3.
  destruct (_update_sol x o niter (on_self (set_lambda l1) w))
    as [[y|e] s1] eqn:E1;
    destruct (_update_sol x o niter (on_self (set_lambda l2) w))
      as [[y2|e2] s2] eqn:E2; simpl in Hf; try discriminate.
  - injection Hf as <-.
    destruct (Hs y eq_refl) as (w' & l1' & l2' & S1 & S2 & Ha' & H1' & H2').
    simpl in S1, S2. subst s1 s2.
    specialize (IH (niter + 1)%Z w' l1' l2' Ha' H1' H2').
    unfold bind.
    destruct (run calls (niter + 1) (on_self (set_lambda l1') w'))
      as [[ys|e] s1'];
      destruct (run calls (niter + 1) (on_self (set_lambda l2') w'))
        as [[ys2|e2'] s2']; simpl in IH; try discriminate.
    + injection IH as <-. reflexivity.
    + exact IH.
  - simpl. injection Hf as <-. reflexivity.
Qed.

(** X11. A grid that is unset (the constructor printed its diagnostic
    and went on) or, in a scheme that is not adaptive, empty, goes
    unnoticed while points are gathered and surfaces at the first
    extrapolating call: AttributeError for the unset grid, ValueError
    (the minimum of no value) for the empty one.  The solver's point has
    been appended by then and the buffer is not cleared. *)
Theorem rna_missing_grid_raises (solver_sol : vec)
  (objective : list (list R)) (niter : Z) (w : world) (b : list vec) :
  (0 <= k (self w))%Z ->
  (niter mod (k (self w) + 1) = 0)%Z ->
  buffer (self w) = Some b ->
  let w1 := on_self (set_buffer (b ++ [solver_sol])) w in
  (_lambda_ (self w) = None ->
   _update_sol solver_sol objective niter w = (Raise AttributeError, w1))
  /\ (_lambda_ (self w) = Some [] -> adaptive (self w) = false ->
      _update_sol solver_sol objective niter w = (Raise ValueError, w1)).
Proof.
  intros Hk Hn Hb w1.
  assert (Hk1 : (k (self w) + 1 <> 0)%Z) by lia.
  rewrite (update_sol_from_grid _ _ _ _ b Hk1 Hn Hb).
  unfold rebuild_grid. rewrite rebuild_grid_eq. fold w1.
  change (adaptive (self w1)) with (adaptive (self w)).
  change (_lambda_ (self w1)) with (_lambda_ (self w)).
  assert (Hs : size_k w1 = (Ok (Z.to_nat (k (self w))), w1)).
  { rewrite size_k_eq. change (k (self w1)) with (k (self w)).
    destruct (Z.ltb_spec (k (self w)) 0); [lia | reflexivity]. }
  split.
  - intros Hl. rewrite Hl. destruct (adaptive (self w)); [reflexivity|].
    unfold choose, RNA.choose. unfold bind at 1.
    rewrite (bind_eq _ _ _ _ _ Hs). unfold bind at 1, attr.
    change (_lambda_ (self w1)) with (_lambda_ (self w)). rewrite Hl.
    reflexivity.
  - intros Hl Ha. rewrite Hl, Ha.
    unfold choose, RNA.choose. unfold bind at 1.
    rewrite (bind_eq _ _ _ _ _ Hs). unfold bind at 1, attr.
    change (_lambda_ (self w1)) with (_lambda_ (self w)). rewrite Hl.
    unfold bind, bad_extrapolation, best_extrapolation, bind, gets, lift,
      attr, ret. simpl.
    destruct (forcedecrease (self w)); simpl; [reflexivity|].
    rewrite Hl. reflexivity.
Qed.

End RNAShortGrid.

(* ------------------------------------------------------------------ *)
(** * regularized_nonlinear: the grid search and the guard             *)
(* ------------------------------------------------------------------ *)

Section RNAChoice.

Import RNA.

Variable float_of_str : string -> option R.
Variable solve : matrix -> vec -> result vec.
Variable eigvals : matrix -> result (list R).
Variable line_search_armijo :
  (vec -> R) -> vec -> vec -> vec -> R -> R -> R -> option R.

Let rebuild_grid := RNA.rebuild_grid float_of_str eigvals.
Let extrapolate := RNA.extrapolate solve.
Let grid_search := RNA.grid_search solve.
Let choose := RNA.choose solve.
Let improve := RNA.improve line_search_armijo.
Let clear := RNA.clear float_of_str.
Let _update_sol :=
  RNA._update_sol float_of_str solve eigvals line_search_armijo.

Lemma fold_min_spec (l : list R) (x : R) :
  let m := fold_left (fun m y => if Rlt_dec y m then y else m) l x in
  (m = x \/ In m l) /\ m <= x /\ Forall (fun v => m <= v) l.
Proof.
  revert x. induction l as [|y l IH]; intros x; simpl.
  - repeat split; [now left | lra | constructor].
  - destruct (IH (if Rlt_dec y x then y else x)) as (Hin & Hle & Hall).
    destruct (Rlt_dec y x) as [Hyx|Hyx].
    + repeat split.
      * right. destruct Hin as [-> | Hin]; [now left | now right].
      * lra.
      * constructor; [exact Hle | exact Hall].
    + repeat split.
      * destruct Hin as [-> | Hin]; [now left | right; now right].
      * exact Hle.
      * constructor; [lra | exact Hall].
Qed.

Lemma min_spec (l : list R) (m : R) :
  min l = Ok m -> In m l /\ Forall (fun v => m <= v) l.
Proof.
  destruct l as [|x l]; [discriminate|]. simpl. intros H. injection H as <-.
  destruct (fold_min_spec l x) as (Hin & Hle & Hall). split.
  - destruct Hin as [-> | Hin]; [now left | now right].
  - constructor; assumption.
Qed.

Lemma index_of_In (x : R) (l : list R) :
  In x l ->
  exists i, index_of x l = Ok (Z.of_nat i)
    /\ (i < List.length l)%nat /\ nth i l 0 = x.
Proof.
  induction l as [|y l IH]; intros Hin; [contradiction|]. simpl.
  destruct (Req_dec_T y x) as [E|E].
  - exists 0%nat. repeat split; [simpl; lia | exact E].
  - destruct Hin as [Hin|Hin]; [contradiction|].
    destruct (IH Hin) as (i & -> & Hi & Hn). exists (S i).
    repeat split; [f_equal; lia | simpl; lia | exact Hn].
Qed.

Lemma index_nat {A} (l : list A) (i : nat) (d : A) :
  (i < List.length l)%nat -> index l (Z.of_nat i) = Ok (nth i l d).
Proof.
  intros Hi. unfold index.
  destruct (Z.ltb_spec (Z.of_nat i) 0) as [H|_]; [lia|]. cbv zeta.
  replace ((0 <=? Z.of_nat i) && (Z.of_nat i <? Z.of_nat (List.length l)))%Z
    with true
    by (symmetry; apply andb_true_intro; split;
        [apply Z.leb_le | apply Z.ltb_lt]; lia).
  rewrite Nat2Z.id, (nth_error_nth' l d Hi). reflexivity.
Qed.

Lemma index_nat_raises {A} (l : list A) (i : nat) :
  (List.length l <= i)%nat -> index l (Z.of_nat i) = Raise IndexError.
Proof.
  intros Hi. unfold index.
  destruct (Z.ltb_spec (Z.of_nat i) 0) as [H|_]; [lia|]. cbv zeta.
  replace (Z.of_nat i <? Z.of_nat (List.length l))%Z with false
    by (symmetry; apply Z.ltb_ge; lia).
  now rewrite andb_false_r.
Qed.

(** What the grid search returns: the objective at the extrapolation of
    each entry of the grid, in order. *)
Lemma grid_search_spec (UU : matrix) (d : nat) (grid : list R)
  (w w' : world) (fvals : list R) (fs : list func) :
  functions (self w) = Some fs ->
  grid_search UU d grid w = (Ok fvals, w') ->
  w' = w
  /\ Forall2 (fun lam v => exists e, extrapolate UU d lam w = (Ok e, w)
                                     /\ v = sum_eval fs e) grid fvals.
Proof.
  intros Hfs. revert fvals w'.
  induction grid as [|lam grid IH]; intros fvals w' H.
  - injection H as <- <-. split; [reflexivity | constructor].
  - unfold grid_search in H. simpl in H.
    apply bind_Ok in H as (e & w1 & He & H).
    pose proof (extrapolate_reads solve UU d lam w) as Hr.
    rewrite He in Hr. simpl in Hr. subst w1.
    apply bind_Ok in H as (fs' & w1 & Hf & H).
    unfold attr in Hf. rewrite Hfs in Hf. injection Hf as <- <-.
    apply bind_Ok in H as (fvals' & w1 & Hg & H).
    injection H as <- <-.
    destruct (IH _ _ Hg) as [-> Hall]. split; [reflexivity|].
    constructor; [|exact Hall]. exists e. split; [exact He | reflexivity].
Qed.

Lemma Forall2_nth_l {A B} (P : A -> B -> Prop) (l : list A) (l' : list B)
  (i : nat) (a : A) (b : B) :
  Forall2 P l l' -> (i < List.length l')%nat -> P (nth i l a) (nth i l' b).
Proof.
  intros H. revert i. induction H as [|x y l l' Hxy _ IH]; intros i Hi.
  - simpl in Hi. lia.
  - destruct i as [|i]; [exact Hxy|]. apply IH. simpl in Hi. lia.
Qed.

(** What [choose] has done when it returns. *)
Lemma choose_Ok (solver_sol : vec) (objective : list (list R))
  (UU : matrix) (w w' : world) (e : vec) (fs : list func) :
  functions (self w) = Some fs ->
  choose solver_sol objective UU w = (Ok e, w') ->
  exists grid fvals m,
    _lambda_ (self w) = Some grid
    /\ grid_search UU (List.length solver_sol) grid w = (Ok fvals, w)
    /\ min fvals = Ok m
    /\ ((e = solver_sol
         /\ forcedecrease (self w) = true
         /\ exists last, index objective (-1) = Ok last /\ m > Rsum last)
        \/ (sum_eval fs e = m
            /\ (exists lam, In lam grid
                  /\ extrapolate UU (List.length solver_sol) lam w
                     = (Ok e, w))
            /\ (forcedecrease (self w) = true ->
                exists last, index objective (-1) = Ok last
                             /\ m <= Rsum last))).
Proof.
  intros Hfs H. unfold choose, RNA.choose in H.
  apply bind_Ok in H as (n & w1 & Hn & H).
  pose proof (size_k_reads w) as Hr. rewrite Hn in Hr. simpl in Hr.
  subst w1.
  apply bind_Ok in H as (grid & w1 & Hg & H).
  unfold attr in Hg. destruct (_lambda_ (self w)) as [grid'|] eqn:Hl;
    [|discriminate]. injection Hg as <- <-.
  apply bind_Ok in H as (fvals & w1 & Hgs & H).
  fold grid_search in Hgs.
  destruct (grid_search_spec _ _ _ _ _ _ fs Hfs Hgs) as [-> Hall].
  apply bind_Ok in H as (bad & w1 & Hbad & H).
  pose proof (bad_extrapolation_reads fvals objective w) as Hr.
  rewrite Hbad in Hr. simpl in Hr. subst w1.
  unfold bad_extrapolation, bind, gets, lift, ret in Hbad.
  destruct bad.
  - injection H as <- <-.
    destruct (forcedecrease (self w)) eqn:Hfd; [|discriminate].
    destruct (min fvals) as [m|] eqn:Hm; [|discriminate].
    destruct (index objective (-1)) as [last|] eqn:Hi; [|discriminate].
    injection Hbad as Hbad. apply Rgtb_true in Hbad.
    exists grid', fvals, m. repeat split; try assumption.
    left. repeat split. exists last. split; [reflexivity | exact Hbad].
  - unfold best_extrapolation in H.
    apply bind_Ok in H as (grid & w1 & Hg & H).
    unfold attr in Hg. rewrite Hl in Hg. injection Hg as <- <-.
    apply bind_Ok in H as (m & w1 & Hm & H).
    unfold lift in Hm. destruct (min fvals) as [m'|] eqn:Hmin;
      [|discriminate]. injection Hm as <- <-.
    apply bind_Ok in H as (i & w1 & Hi & H).
    unfold lift in Hi.
    destruct (min_spec _ _ Hmin) as [Hin _].
    destruct (index_of_In _ _ Hin) as (j & Hj & Hlt & Hnth).
    rewrite Hj in Hi. injection Hi as <- <-.
    apply bind_Ok in H as (lam & w1 & Hlam & H).
    unfold lift in Hlam.
    assert (Hlen : List.length grid' = List.length fvals)
      by (apply (Forall2_length Hall)).
    rewrite (index_nat grid' j 0) in Hlam by lia.
    injection Hlam as <- <-.
    destruct (Forall2_nth_l _ _ _ j 0 0 Hall Hlt) as (e' & He' & Hv).
    fold extrapolate in H. rewrite He' in H. injection H as <- <-.
    exists grid', fvals, m'. repeat split; try assumption.
    right. split; [rewrite <- Hv; exact Hnth|]. split.
    { exists (nth j grid' 0). split; [apply nth_In; lia | exact He']. }
    intros Hfd. rewrite Hfd in Hbad.
    destruct (index objective (-1)) as [last|] eqn:Hi; [|discriminate].
    injection Hbad as Hbad. apply Rgtb_false in Hbad.
    exists last. split; [reflexivity | exact Hbad].
Qed.

(** X12. What [choose], the grid search with its guard, returns: with
    [fvals] the objective at the extrapolation of each grid entry, it is
    either the solver's point, and then only because [forcedecrease] is
    set and every entry of [fvals] exceeds the last objective entry; or
    an extrapolation whose objective is the least entry of [fvals], which
    with [forcedecrease] set does not exceed the last objective entry.
    The scheme itself is left as it was. *)
Theorem rna_choose_best_of_grid (solver_sol : vec)
  (objective : list (list R)) (UU : matrix) (w w' : world) (e : vec)
  (fs : list func) :
  functions (self w) = Some fs ->
  choose solver_sol objective UU w = (Ok e, w') ->
  w' = w
  /\ exists grid fvals,
       _lambda_ (self w) = Some grid
       /\ grid_search UU (List.length solver_sol) grid w = (Ok fvals, w)
       /\ List.length fvals = List.length grid
       /\ ((e = solver_sol
            /\ forcedecrease (self w) = true
            /\ exists last, index objective (-1) = Ok last
                 /\ Forall (fun v => v > Rsum last) fvals)
           \/ (In (sum_eval fs e) fvals
               /\ Forall (fun v => sum_eval fs e <= v) fvals
               /\ (forcedecrease (self w) = true ->
                   exists last, index objective (-1) = Ok last
                                /\ sum_eval fs e <= Rsum last))).
Proof.
  intros Hfs H.
  pose proof (choose_reads solve solver_sol objective UU w) as Hr.
  fold choose in Hr. rewrite H in Hr. simpl in Hr. subst w'.
  split; [reflexivity|].
  destruct (choose_Ok _ _ _ _ _ _ fs Hfs H)
    as (grid & fvals & m & Hl & Hgs & Hm & Hcase).
  destruct (grid_search_spec _ _ _ _ _ _ fs Hfs Hgs) as [_ Hall].
  destruct (min_spec _ _ Hm) as [Hin Hle].
  exists grid, fvals. repeat split; try assumption.
  { symmetry. apply (Forall2_length Hall). }
  destruct Hcase as [(-> & Hfd & last & Hi & Hgt) | (Hv & _ & Hfd)].
  - left. repeat split; try assumption. exists last. split; [exact Hi|].
    apply (Forall_impl _ (P := fun v => m <= v)); [intros v; lra | exact Hle].
  - right. rewrite Hv. repeat split; assumption.
Qed.

End RNAChoice.

Lemma rna_short_grid_unused_witness :
  fst (RNA.run float_of_char solve_cramer eigvals_diag armijo cycle_calls 1
         (RNA.on_self (RNA.set_lambda [1]) cycle_w0))
  = fst (RNA.run float_of_char solve_cramer eigvals_diag armijo cycle_calls 1
           (RNA.on_self (RNA.set_lambda []) cycle_w0)).
Proof.
  apply (rna_short_grid_unused float_of_char solve_cramer eigvals_diag
           armijo cycle_calls 1 cycle_w0 [1] []).
  - reflexivity.
  - simpl. lia.
  - simpl. lia.
Defined.

Lemma rna_missing_grid_raises_witness :
  RNA._update_sol float_of_char solve_cramer eigvals_diag armijo
    [2] [[16]; [4]] 2
    (RNA.on_self (RNA.set_buffer [[0]])
       (rna_start 1 (Py.List []) false true true))
  = (Raise ValueError,
     RNA.on_self (RNA.set_buffer ([[0]] ++ [[2]]))
       (RNA.on_self (RNA.set_buffer [[0]])
          (rna_start 1 (Py.List []) false true true))).
Proof.
  apply (proj2 (rna_missing_grid_raises float_of_char solve_cramer
                  eigvals_diag armijo [2] [[16]; [4]] 2
                  (RNA.on_self (RNA.set_buffer [[0]])
                     (rna_start 1 (Py.List []) false true true))
                  [[0]] ltac:(simpl; lia) eq_refl eq_refl));
    reflexivity.
Defined.

Lemma rna_choose_best_of_grid_witness :
  overshoot_w2 = overshoot_w2
  /\ exists grid fvals,
       RNA._lambda_ (RNA.self overshoot_w2) = Some grid
       /\ RNA.grid_search solve_cramer
            (RNA.normalized_gram [[0]; [3]; [6]]) (List.length [6]) grid
            overshoot_w2 = (Ok fvals, overshoot_w2)
       /\ List.length fvals = List.length grid
       /\ (([6] = [6]
            /\ RNA.forcedecrease (RNA.self overshoot_w2) = true
            /\ exists last, index [[16]; [1]; [4]] (-1) = Ok last
                 /\ Forall (fun v => v > Rsum last) fvals)
           \/ (In (sum_eval [quadratic [4]] [6]) fvals
               /\ Forall (fun v => sum_eval [quadratic [4]] [6] <= v) fvals
               /\ (RNA.forcedecrease (RNA.self overshoot_w2) = true ->
                   exists last, index [[16]; [1]; [4]] (-1) = Ok last
                     /\ sum_eval [quadratic [4]] [6] <= Rsum last))).
Proof.
  apply (rna_choose_best_of_grid solve_cramer [6] [[16]; [1]; [4]]
           (RNA.normalized_gram [[0]; [3]; [6]]) overshoot_w2 overshoot_w2
           [6] [quadratic [4]]).
  - reflexivity.
  - exact overshoot_choose.
Defined.

(* ------------------------------------------------------------------ *)
(** * regularized_nonlinear: a string as [lambda_]                     *)
(* ------------------------------------------------------------------ *)

Section RNAStringGrid.

Import RNA.

Variable float_of_str : string -> option R.

Let lambda_setter := RNA.lambda_setter float_of_str.

Lemma floats_chars_ok (cs : list string) (rs : list R) :
  map float_of_str cs = map Some rs ->
  floats float_of_str (map Str cs) = Ok rs.
Proof.
  revert rs. induction cs as [|c cs IH]; intros [|r rs] H;
    try discriminate; [reflexivity|].
  simpl in H. injection H as Hc Hcs. simpl. rewrite Hc, (IH rs Hcs).
  reflexivity.
Qed.

Lemma floats_chars_bad (cs : list string) :
  (exists c, In c cs /\ float_of_str c = None) ->
  floats float_of_str (map Str cs) = Raise ValueError.
Proof.
  induction cs as [|c cs IH]; intros (c' & Hin & Hc'); [contradiction|].
  simpl. destruct (float_of_str c) as [r|] eqn:Hc; [|reflexivity].
  destruct Hin as [-> | Hin]; [congruence|].
  rewrite IH by (exists c'; auto). reflexivity.
Qed.

Lemma comprehension_string (s : string) :
  comprehension float_of_str (Str s)
  = floats float_of_str
      (map Str (map (fun c => String c EmptyString)
                    (list_ascii_of_string s))).
Proof. unfold comprehension. simpl. now rewrite map_map. Qed.

(** X14. A string given as [lambda_] is converted character by
    character, never as a whole: when every character converts, the grid
    is the list of the characters' values; when one does not, the setter
    prints its "list of numbers" line and leaves the grid as it
    was. *)
Theorem rna_lambda_setter_string (s : string) (w : world) :
  let chars := map (fun c => String c EmptyString) (list_ascii_of_string s) in
  (forall rs, map float_of_str chars = map Some rs ->
     lambda_setter (Str s) w = (Ok tt, on_self (set_lambda rs) w))
  /\ ((exists c, In c chars /\ float_of_str c = None) ->
      lambda_setter (Str s) w
      = (Ok tt,
         {| self := self w;
            stdout := stdout w
                      ++ ["User must provide a list of numbers: "%string];
            warnings := warnings w |})).
Proof.
  intros chars. unfold lambda_setter, RNA.lambda_setter.
  rewrite comprehension_string. fold chars. split.
  - intros rs H. rewrite (floats_chars_ok _ _ H). reflexivity.
  - intros H. rewrite (floats_chars_bad _ H). reflexivity.
Qed.

End RNAStringGrid.

Lemma rna_lambda_setter_string_witness :
  RNA.lambda_setter float_of_char (Str "12") RNA.blank
  = (Ok tt, RNA.on_self (RNA.set_lambda [INR 1; INR 2]) RNA.blank).
Proof.
  apply (proj1 (rna_lambda_setter_string float_of_char "12" RNA.blank)).
  reflexivity.
Defined.

(* ------------------------------------------------------------------ *)
(** * regularized_nonlinear: from one run to the next                  *)
(* ------------------------------------------------------------------ *)

Section RNAReuse.

Import RNA RNALifecycle.

Variable float_of_str : string -> option R.
Variable solve : matrix -> vec -> result vec.
Variable eigvals : matrix -> result (list R).
Variable line_search_armijo :
  (vec -> R) -> vec -> vec -> vec -> R -> R -> R -> option R.

Let _update_sol :=
  RNA._update_sol float_of_str solve eigvals line_search_armijo.
Let run := RNA.run float_of_str solve eigvals line_search_armijo.

Lemma post_eq (w : world) (b : list vec) (fs : list func) (x : vec) :
  buffer (self w) = Some b ->
  functions (self w) = Some fs ->
  sol (self w) = Some x ->
  post w =
  (Ok tt,
   on_self (fun a =>
     {| k := k a; _lambda_ := _lambda_ a; adaptive := adaptive a;
        dolinesearch := dolinesearch a; forcedecrease := forcedecrease a;
        buffer := None; functions := None; sol := None |}) w).
Proof.
  intros Hb Hf Hs. unfold post, _post, bind, del_buffer, del_functions,
                     del_sol.
  rewrite Hb. simpl. rewrite Hf. simpl. rewrite Hs. reflexivity.
Qed.

(** X15. From one run to the next.  After a run of [_update_sol] calls
    that started from [pre], [post] succeeds and unsets the buffer, the
    functions and the snapshot; a second [post] or a further
    [_update_sol] then raises AttributeError.  A new [pre] makes the
    scheme usable again with an empty buffer, but does not bring back the
    grid: an adaptive scheme that has extrapolated once starts its next
    run with an empty grid, whatever grid it was constructed with. *)
Theorem rna_reuse_after_post (calls : list (vec * list (list R)))
  (w0 w' : world) (outs : list vec) (fs fs' : list func) (x0 x0' : vec) :
  (0 < k (self w0))%Z ->
  run calls 1 (on_self (pre fs x0) w0) = (Ok outs, w') ->
  exists w'',
    post w' = (Ok tt, w'')
    /\ buffer (self w'') = None
    /\ post w'' = (Raise AttributeError, w'')
    /\ (forall x o n, _update_sol x o n w'' = (Raise AttributeError, w''))
    /\ let w2 := on_self (pre fs' x0') w'' in
       buffer (self w2) = Some []
       /\ functions (self w2) = Some fs'
       /\ k (self w2) = k (self w0)
       /\ adaptive (self w2) = adaptive (self w0)
       /\ _lambda_ (self w2)
          = if adaptive (self w0)
               && (k (self w0) + 1 <=? Z.of_nat (List.length calls))%Z
            then Some [] else _lambda_ (self w0).
Proof.
  intros Hk Hrun. set (w := on_self (pre fs x0) w0) in *.
  assert (Hkw : (0 < k (self w))%Z) by exact Hk.
  destruct (run_buffer float_of_str solve eigvals line_search_armijo
              calls w w' outs Hkw eq_refl Hrun) as (b & Hb & _).
  pose proof (run_config float_of_str solve eigvals line_search_armijo
                calls 1 w) as Hcfg.
  fold run in Hcfg. rewrite Hrun in Hcfg. simpl snd in Hcfg.
  destruct Hcfg as (Hk' & Had & _ & _ & Hfs & Hsol & _ & Hgrid).
  change (k (self w)) with (k (self w0)) in Hk'.
  change (adaptive (self w)) with (adaptive (self w0)) in Had, Hgrid.
  change (_lambda_ (self w)) with (_lambda_ (self w0)) in Hgrid.
  simpl in Hfs, Hsol.
  eexists. split; [exact (post_eq w' b fs x0 Hb Hfs Hsol)|].
  split; [reflexivity|]. split; [reflexivity|]. split.
  - intros x o n. apply update_sol_no_buffer; [simpl; lia | reflexivity].
  - simpl. repeat split; try assumption.
    destruct (adaptive (self w0)) eqn:Ha.
    + rewrite (run_grid float_of_str solve eigvals line_search_armijo
                 calls w w' outs Hkw eq_refl Ha Hrun).
      change (k (self w)) with (k (self w0)).
      change (_lambda_ (self w)) with (_lambda_ (self w0)). simpl.
      destruct (Z.ltb_spec (Z.of_nat (List.length calls))
                           (k (self w0) + 1));
        destruct (Z.leb_spec (k (self w0) + 1)
                             (Z.of_nat (List.length calls)));
        try lia; reflexivity.
    + simpl. now apply Hgrid.
Qed.

(** X16. What a call of [regularized_nonlinear._update_sol] never
    touches, whether it returns or raises: [k], the three flags, the
    functions, the snapshot [sol] that [pre] stored, and the standard
    output; nor the grid of a scheme that is not adaptive. *)
Theorem rna_update_sol_frame (solver_sol : vec) (objective : list (list R))
  (niter : Z) (w : world) :
  let w' := snd (_update_sol solver_sol objective niter w) in
  k (self w') = k (self w)
  /\ adaptive (self w') = adaptive (self w)
  /\ dolinesearch (self w') = dolinesearch (self w)
  /\ forcedecrease (self w') = forcedecrease (self w)
  /\ functions (self w') = functions (self w)
  /\ sol (self w') = sol (self w)
  /\ stdout w' = stdout w
  /\ (adaptive (self w) = false -> _lambda_ (self w') = _lambda_ (self w)).
Proof.
  exact (update_sol_config float_of_str solve eigvals line_search_armijo
           solver_sol objective niter w).
Qed.

End RNAReuse.

Lemma rna_reuse_after_post_witness :
  exists w'',
    RNALifecycle.post cycle_w3 = (Ok tt, w'')
    /\ RNA.buffer (RNA.self w'') = None
    /\ RNALifecycle.post w'' = (Raise AttributeError, w'')
    /\ (forall x o n,
          RNA._update_sol float_of_char solve_cramer eigvals_diag armijo
            x o n w'' = (Raise AttributeError, w''))
    /\ let w2 := RNA.on_self (RNA.pre [quadratic [4]] [2]) w'' in
       RNA.buffer (RNA.self w2) = Some []
       /\ RNA.functions (RNA.self w2) = Some [quadratic [4]]
       /\ RNA.k (RNA.self w2) = 1%Z
       /\ RNA.adaptive (RNA.self w2) = true
       /\ RNA._lambda_ (RNA.self w2) = Some [].
Proof.
  apply (rna_reuse_after_post float_of_char solve_cramer eigvals_diag armijo
           cycle_calls
           (snd (RNA.__init__ float_of_char 1 (Float 1e-6) true true true
                   RNA.blank))
           cycle_w3 [[0]; [2]] [quadratic [4]] [quadratic [4]] [0] [2]).
  - simpl. lia.
  - exact cycle_run.
Defined.

(* ------------------------------------------------------------------ *)
(** * regularized_nonlinear: extrapolations are affine combinations    *)
(* ------------------------------------------------------------------ *)

Section RNAAffine.

Import RNA.

Variable solve : matrix -> vec -> result vec.

Hypothesis solve_spec :
  forall A y x, solve A y = Ok x ->
                mat_vec A x = y /\ List.length x = List.length y.

(** An extrapolation that returns is a combination of the first [k]
    buffered points with [k] coefficients of sum 1. *)
Lemma extrapolate_affine (d n : nat) (b : list vec) (lam : R)
  (w w' : world) (e : vec) :
  (0 < n)%nat ->
  k (self w) = Z.of_nat n ->
  buffer (self w) = Some b ->
  List.length b = S n ->
  Forall (fun p => List.length p = d) b ->
  norm (gram (diff b)) <> 0 ->
  0 <= lam ->
  extrapolate solve (normalized_gram b) d lam w = (Ok e, w') ->
  exists c,
    e = combination d c (firstn n b)
    /\ List.length c = n
    /\ Rsum c = 1.
Proof.
  intros Hn Hk Hb Hlen Hd Hnu Hlam H.
  unfold extrapolate in H.
  apply bind_Ok in H as (n' & w1 & H1 & H).
  rewrite size_k_eq, Hk in H1.
  destruct (Z.ltb_spec (Z.of_nat n) 0) as [|_]; [lia|].
  rewrite Nat2Z.id in H1. injection H1 as <- <-.
  apply bind_Ok in H as (c & w1 & H2 & H).
  unfold lift in H2. injection H2 as H2 <-.
  apply bind_Ok in H as (b' & w1 & H3 & H).
  unfold attr in H3. rewrite Hb in H3. injection H3 as <- <-.
  injection H as <- <-.
  exists c. rewrite removelast_firstn_len, Hlen. split; [reflexivity|].
  unfold coefficients in H2.
  destruct (solve _ _) as [x|] eqn:Hx; [|discriminate].
  injection H2 as <-.
  destruct (solve_spec _ _ _ Hx) as [Hax Hlx].
  unfold ones in Hlx. rewrite repeat_length in Hlx.
  assert (Hpos : 0 < Rsum x).
  { apply (solution_sum_pos d b lam x Hd); try assumption; try lia.
    rewrite Hlx. exact Hax. }
  split; [now rewrite length_map|].
  rewrite Rsum_map_div. field. lra.
Qed.

Lemma dot_repeat_r (c : vec) (a : R) :
  dot c (repeat a (List.length c)) = a * Rsum c.
Proof.
  induction c as [|x c IH]; [unfold dot; simpl; ring|].
  change (repeat a (List.length (x :: c)))
    with (a :: repeat a (List.length c)).
  rewrite dot_cons, IH. simpl. ring.
Qed.

Lemma map_constant {A} (f : A -> R) (a : R) (l : list A) :
  Forall (fun p => f p = a) l -> map f l = repeat a (List.length l).
Proof.
  induction 1 as [|p l Hp _ IH]; [reflexivity|].
  simpl. now rewrite Hp, IH.
Qed.

(** X17. Extrapolations respect affine constraints: for a candidate
    [lambda >= 0], a buffer of [k + 1] points of one dimension whose Gram
    matrix is not zero and any [solve] that returns solutions, every
    equation [<u, x> = a] that the first [k] buffered points satisfy is
    satisfied by the extrapolation; in particular, coordinates on which
    these points agree are kept. *)
Theorem rna_extrapolation_affine (d n : nat) (b : list vec) (lam : R)
  (w w' : world) (e u : vec) (a : R) :
  (0 < n)%nat ->
  k (self w) = Z.of_nat n ->
  buffer (self w) = Some b ->
  List.length b = S n ->
  Forall (fun p => List.length p = d) b ->
  norm (gram (diff b)) <> 0 ->
  0 <= lam ->
  extrapolate solve (normalized_gram b) d lam w = (Ok e, w') ->
  Forall (fun p => dot u p = a) (firstn n b) ->
  dot u e = a
  /\ forall j, (j < d)%nat ->
       forall v, Forall (fun p => nth j p 0 = v) (firstn n b) ->
                 nth j e 0 = v.
Proof.
  intros Hn Hk Hb Hlen Hd Hnu Hlam H Hu.
  destruct (extrapolate_affine d n b lam w w' e Hn Hk Hb Hlen Hd Hnu Hlam H)
    as (c & -> & Hc & Hsum).
  assert (Hd' : Forall (fun p => List.length p = d) (firstn n b)).
  { apply Forall_forall. intros p Hp.
    assert (Hin : In p b)
      by (rewrite <- (firstn_skipn n b); apply in_or_app; now left).
    clear Hp. revert p Hin. now apply Forall_forall. }
  assert (Hl : List.length (firstn n b) = List.length c).
  { rewrite length_firstn, Hlen, Hc. lia. }
  split.
  - rewrite (dot_combination d u c _ Hd').
    rewrite (map_constant (fun p => dot u p) a _ Hu), Hl.
    rewrite dot_repeat_r, Hsum. ring.
  - intros j Hj v Hv.
    rewrite (nth_combination d j _ _ Hd' Hj).
    rewrite (map_constant (fun p => nth j p 0) v _ Hv).
    change (@List.length (list R) (firstn n b))
      with (@List.length vec (firstn n b)). rewrite Hl.
    rewrite dot_repeat_r, Hsum. ring.
Qed.

End RNAAffine.

Lemma rna_extrapolation_affine_witness :
  dot [3] (RNA.combination 1 [1] [[0]]) = 0
  /\ forall j, (j < 1)%nat ->
       forall v, Forall (fun p => nth j p 0 = v) (firstn 1 [[0]; [2]]) ->
                 nth j (RNA.combination 1 [1] [[0]]) 0 = v.
Proof.
  apply (rna_extrapolation_affine solve_cramer solve_cramer_spec 1 1
           [[0]; [2]] 0 cycle_w2 cycle_w2 (RNA.combination 1 [1] [[0]]) [3] 0).
  - lia.
  - reflexivity.
  - reflexivity.
  - reflexivity.
  - repeat constructor.
  - unfold RNA.norm, RNA.gram, RNA.diff, vsub, dot, sqnorm. simpl.
    replace (sqrt _) with 4 by (symmetry; apply sqrt_lem_1; lra). lra.
  - lra.
  - rewrite cycle_gram.
    apply (extrapolate_eq solve_cramer [[1]] 1 0 cycle_w2 [[0]; [2]] [1]).
    + vm_compute. discriminate.
    + exact cycle_coefficients.
    + reflexivity.
  - repeat constructor. unfold dot. simpl. lra.
Defined.

(* ------------------------------------------------------------------ *)
(** * regularized_nonlinear: the force-decrease guarantee              *)
(* ------------------------------------------------------------------ *)

Section RNAForceDecrease.

Import RNA.

Variable float_of_str : string -> option R.
Variable solve : matrix -> vec -> result vec.
Variable eigvals : matrix -> result (list R).
Variable line_search_armijo :
  (vec -> R) -> vec -> vec -> vec -> R -> R -> R -> option R.

Hypothesis solve_spec :
  forall A y x, solve A y = Ok x ->
                mat_vec A x = y /\ List.length x = List.length y.

Let rebuild_grid := RNA.rebuild_grid float_of_str eigvals.
Let _update_sol :=
  RNA._update_sol float_of_str solve eigvals line_search_armijo.

Lemma adaptive_grid_nonneg (ev : list R) :
  Forall (fun l => 0 <= l) (adaptive_grid ev).
Proof.
  unfold adaptive_grid. constructor; [lra|].
  apply Forall_forall. intros l Hl. apply in_map_iff in Hl.
  destruct Hl as (x & <- & _). left. apply exp_pos.
Qed.

(** The grid in place after [rebuild_grid] has no negative entry when
    the stored one has none. *)
Lemma rebuild_grid_nonneg (UU : matrix) (w w2 : world) (grid : list R) :
  (forall g, _lambda_ (self w) = Some g -> Forall (fun l => 0 <= l) g) ->
  rebuild_grid UU w = (Ok tt, w2) ->
  _lambda_ (self w2) = Some grid ->
  Forall (fun l => 0 <= l) grid.
Proof.
  intros Hg H Hl. unfold rebuild_grid in H. rewrite rebuild_grid_eq in H.
  destruct (adaptive (self w)); [|injection H as <-; now apply Hg].
  destruct (_lambda_ (self w)) as [g|] eqn:E; [|discriminate].
  destruct (List.length g <=? 1)%nat.
  - destruct (eigvals UU) as [ev|]; [|discriminate]. injection H as <-.
    simpl in Hl. injection Hl as <-. apply adaptive_grid_nonneg.
  - injection H as <-. apply Hg. now rewrite <- Hl.
Qed.

(** X13. The force-decrease guarantee of a scheme without line search.
    The buffer holds [k] points and the solver's point brings a further
    one, all of one dimension, with a Gram matrix that is not zero; the
    stored grid has no negative entry and [solve] returns solutions, so
    that nothing is divided by zero.  Then an extrapolating call of
    [_update_sol] that returns gives either the solver's own point, or a
    combination of the [k] buffered points, with coefficients of sum 1,
    at which the summed objective does not exceed the last entry of the
    objective history. *)
Theorem rna_force_decrease (solver_sol : vec) (objective : list (list R))
  (niter : Z) (w w' : world) (y : vec) (fs : list func) (b : list vec)
  (n d : nat) :
  (0 < n)%nat ->
  k (self w) = Z.of_nat n ->
  (niter mod (k (self w) + 1) = 0)%Z ->
  forcedecrease (self w) = true ->
  dolinesearch (self w) = false ->
  functions (self w) = Some fs ->
  buffer (self w) = Some b ->
  List.length b = n ->
  Forall (fun p => List.length p = d) (b ++ [solver_sol]) ->
  norm (gram (diff (b ++ [solver_sol]))) <> 0 ->
  (forall g, _lambda_ (self w) = Some g -> Forall (fun l => 0 <= l) g) ->
  _update_sol solver_sol objective niter w = (Ok y, w') ->
  exists last,
    index objective (-1) = Ok last
    /\ (y = solver_sol
        \/ (sum_eval fs y <= Rsum last
            /\ exists c, y = combination d c b
                         /\ List.length c = n /\ Rsum c = 1)).
Proof.
  intros Hn Hk Hmod Hfd Hdl Hfs Hb Hlen Hd Hnu Hg H.
  assert (Hk1 : (k (self w) + 1 <> 0)%Z) by lia.
  apply (update_sol_extrapolates float_of_str solve eigvals
           line_search_armijo _ _ _ _ _ _ Hk1 Hmod) in H.
  destruct H as (b' & w2 & e0 & w3 & Hb' & Hrb & Hch & Him & Hcl).
  rewrite Hb in Hb'. injection Hb' as <-.
  destruct (rebuild_grid_Ok float_of_str eigvals _ _ _ Hrb)
    as (Hbuf & _ & Hcfg).
  destruct Hcfg as (Hk2 & _ & Hdl2 & Hfd2 & Hfs2 & _).
  simpl in Hbuf, Hk2, Hdl2, Hfd2, Hfs2.
  rewrite Hdl in Hdl2. rewrite Hfd in Hfd2. rewrite Hfs in Hfs2.
  unfold RNA.improve, bind, gets in Him. rewrite Hdl2 in Him.
  injection Him as <- <-.
  destruct (choose_Ok solve _ _ _ _ _ _ fs Hfs2 Hch)
    as (grid & fvals & m & Hgrid & _ & _ & Hcase).
  destruct Hcase as [(-> & _ & last & Hi & _)
                    | (Hv & (lam & Hin & Hex) & Hdec)].
  - exists last. split; [exact Hi | now left].
  - destruct (Hdec Hfd2) as (last & Hi & Hle).
    exists last. split; [exact Hi|]. right. split; [lra|].
    assert (Hlam : 0 <= lam).
    { assert (Hall : Forall (fun l => 0 <= l) grid).
      { apply (rebuild_grid_nonneg _ _ w2 grid) with (3 := Hgrid)
          (2 := Hrb). intros g. simpl. exact (Hg g). }
      rewrite Forall_forall in Hall. now apply Hall. }
    assert (Hdim : List.length solver_sol = d).
    { rewrite Forall_forall in Hd. apply Hd. apply in_or_app.
      right. now left. }
    rewrite Hdim in Hex.
    destruct (extrapolate_affine solve solve_spec d n (b ++ [solver_sol])
                lam w2 w2 e0 Hn) as (c & Hc & Hcl' & Hsum);
      try assumption.
    + now rewrite Hk2.
    + rewrite length_app, Hlen. simpl. lia.
    + exists c. split; [|split; assumption].
      rewrite Hc. f_equal. rewrite <- Hlen.
      rewrite firstn_app, firstn_all, Nat.sub_diag. simpl.
      apply app_nil_r.
Qed.

End RNAForceDecrease.

Section RNAForceDecreaseRun.

Import RNA.

Lemma plain_choose :
  choose solve_cramer [2] [[16]; [4]] (normalized_gram [[0]; [2]]) plain_w2
  = (Ok [2], plain_w2).
Proof.
  rewrite cycle_gram.
  apply (choose_fallback solve_cramer [2] [[16]; [4]] [[1]] plain_w2 [0]
           [sum_eval [quadratic [4]] (combination 1 [1] [[0]])] [4]
           (sum_eval [quadratic [4]] (combination 1 [1] [[0]])));
    try reflexivity.
  - vm_compute. discriminate.
  - apply grid_search_cons; try reflexivity.
    apply (extrapolate_eq solve_cramer [[1]] 1 0 plain_w2 [[0]; [2]] [1]);
      try reflexivity.
    + vm_compute. discriminate.
    + exact cycle_coefficients.
  - unfold sum_eval, combination, vadd, vscale, zeros. simpl.
    unfold sqnorm, vsub. simpl. lra.
Qed.

Lemma plain_call :
  _update_sol float_of_char solve_cramer eigvals_diag armijo
    [2] [[16]; [4]] 2 plain_w1 = (Ok [2], plain_w3).
Proof.
  apply update_sol_extrapolates;
    [vm_compute; discriminate | reflexivity |].
  exists [[0]], plain_w2, [2], plain_w2.
  split; [reflexivity|]. split.
  { change ([[0]] ++ [[2]]) with [[0]; [2]].
    rewrite rebuild_grid_eq, cycle_gram. reflexivity. }
  split; [exact plain_choose|]. split; [reflexivity|].
  rewrite clear_eq. reflexivity.
Qed.

End RNAForceDecreaseRun.

Lemma rna_force_decrease_witness :
  exists last,
    index [[16]; [4]] (-1) = Ok last
    /\ ([2] = [2]
        \/ (sum_eval [quadratic [4]] [2] <= Rsum last
            /\ exists c, [2] = RNA.combination 1 c [[0]]
                         /\ List.length c = 1%nat /\ Rsum c = 1)).
Proof.
  apply (rna_force_decrease float_of_char solve_cramer eigvals_diag armijo
           solve_cramer_spec [2] [[16]; [4]] 2 plain_w1 plain_w3 [2]
           [quadratic [4]] [[0]] 1 1).
  - lia.
  - reflexivity.
  - reflexivity.
  - reflexivity.
  - reflexivity.
  - reflexivity.
  - reflexivity.
  - reflexivity.
  - repeat constructor.
  - unfold RNA.norm, RNA.gram, RNA.diff, vsub, dot, sqnorm. simpl.
    replace (sqrt _) with 4 by (symmetry; apply sqrt_lem_1; lra). lra.
  - intros g H. injection H as <-. repeat constructor. lra.
  - exact plain_call.
Defined.
